(** * SINV: the PDIV "local map" algorithm ([pdiv_localmap.py]) and the
      [pdiv] entry point ([pdiv_parallel.py]), embedded in Rocq.

    Conventions of the embedding.

    - Python values: [int] is [Z]; a Python list is a Rocq [list] (stdpp's
      lookup [!!] and insert [<[i:=x]>], with the [IndexError] Python raises
      out of range written out); [None] is a constructor of [pyobj].
    - A call either returns, raises or blocks for ever: [outcome].
    - numpy is not part of the repository.  Its arrays are modelled as
      2-dimensional arrays over exact (Gaussian) rationals, tagged with a
      dtype ([float64], [complex128]); floating-point rounding is abstracted
      to exact arithmetic.  [np.linalg.inv] raises [LinAlgError] on a
      non-square or singular argument.
    - MPI: one rank's view.  [comm.send] and [comm.recv] are answered by the
      environment (a [Comm] record); every theorem quantifies over it.
      Communication, [np.linalg.inv] and [print] are recorded in a trace. *)

From Stdlib Require Import ZArith QArith List Lia Bool Sorted.
From stdpp Require Import base list.
Import ListNotations.

Local Open Scope Z_scope.

(* ===================================================================== *)
(** * Outcomes of a Python call *)
(* ===================================================================== *)

Inductive exn : Type :=
| TypeError      (* also numpy's UFuncTypeError, a subclass *)
| NameError
| IndexError
| ValueError
| LinAlgError
| MPIException.

Inductive outcome (A : Type) : Type :=
| Ret (a : A)
| Raise (e : exn)
| Hang.          (* a blocking MPI call that never returns *)
Arguments Ret {A} a.
Arguments Raise {A} e.
Arguments Hang {A}.

Definition obind {A B} (m : outcome A) (k : A -> outcome B) : outcome B :=
  match m with
  | Ret a => k a
  | Raise e => Raise e
  | Hang => Hang
  end.

Declare Scope py_scope.
Delimit Scope py_scope with py.
Notation "x <- m ;; k" := (obind m (fun x => k))
  (at level 100, m at next level, right associativity) : py_scope.
Local Open Scope py_scope.

(* ===================================================================== *)
(** * Scalars: exact Gaussian rationals, kept in reduced form *)
(* ===================================================================== *)

Record cplx : Type := Cplx { re : Q; im : Q }.

Definition c0 : cplx := Cplx (0#1) (0#1).
Definition c1 : cplx := Cplx (1#1) (0#1).
Definition creal (q : Q) : cplx := Cplx (Qred q) (0#1).

Definition cadd (a b : cplx) : cplx :=
  Cplx (Qred (re a + re b)) (Qred (im a + im b)).
Definition cneg (a : cplx) : cplx :=
  Cplx (Qred (- re a)) (Qred (- im a)).
Definition cmul (a b : cplx) : cplx :=
  Cplx (Qred (re a * re b - im a * im b)) (Qred (re a * im b + im a * re b)).
Definition cnorm2 (a : cplx) : Q := re a * re a + im a * im a.
Definition cdiv (a b : cplx) : cplx :=
  let d := cnorm2 b in
  Cplx (Qred ((re a * re b + im a * im b) / d))
       (Qred ((im a * re b - re a * im b) / d)).
Definition c_is_zero (a : cplx) : bool :=
  Qeq_bool (re a) 0 && Qeq_bool (im a) 0.
Definition drop_imag (a : cplx) : cplx := Cplx (re a) (0#1).

(* ===================================================================== *)
(** * numpy arrays (2-dimensional) *)
(* ===================================================================== *)

Inductive Dtype : Type := float64 | complex128.

(** numpy's type promotion for a binary operation. *)
Definition promote (a b : Dtype) : Dtype :=
  match a, b with
  | float64, float64 => float64
  | _, _ => complex128
  end.

Record ndarray : Type := NdArray {
  dtype : Dtype;
  nrows : nat;
  ncols : nat;
  data  : list (list cplx)
}.

(** [A[i, j]] for indices in range. *)
Definition entry (A : ndarray) (i j : nat) : cplx :=
  nth j (nth i (data A) []) c0.

(** The array of the given shape whose entry (i, j) is [f i j]. *)
Definition tabulate (dt : Dtype) (nr nc : nat) (f : nat -> nat -> cplx) : ndarray :=
  NdArray dt nr nc (map (fun i => map (fun j => f i j) (seq 0 nc)) (seq 0 nr)).

(** Build an array from a list of rows (used for concrete inputs). *)
Definition of_rows (dt : Dtype) (rows : list (list cplx)) : ndarray :=
  NdArray dt (length rows) (match rows with [] => 0%nat | r :: _ => length r end) rows.

(** [A.shape[0]] *)
Definition shape0 (A : ndarray) : Z := Z.of_nat (nrows A).

(** [np.zeros((r, c), dtype=dt)]: negative dimensions are a [ValueError]. *)
Definition np_zeros (r c : Z) (dt : Dtype) : outcome ndarray :=
  if (r <? 0) || (c <? 0) then Raise ValueError
  else Ret (tabulate dt (Z.to_nat r) (Z.to_nat c) (fun _ _ => c0)).

(** [np.identity(n, dtype=dt)] *)
Definition np_identity (n : Z) (dt : Dtype) : outcome ndarray :=
  if n <? 0 then Raise ValueError
  else Ret (tabulate dt (Z.to_nat n) (Z.to_nat n)
              (fun i j => if Nat.eqb i j then c1 else c0)).

(** [-A] *)
Definition np_neg (A : ndarray) : ndarray :=
  tabulate (dtype A) (nrows A) (ncols A) (fun i j => cneg (entry A i j)).

Definition csum (l : list cplx) : cplx := fold_left cadd l c0.

(** [A @ B]: the inner dimensions must agree. *)
Definition matmul (A B : ndarray) : outcome ndarray :=
  if Nat.eqb (ncols A) (nrows B) then
    Ret (tabulate (promote (dtype A) (dtype B)) (nrows A) (ncols B)
           (fun i j => csum (map (fun k => cmul (entry A i k) (entry B k j))
                                 (seq 0 (ncols A)))))
  else Raise ValueError.

(** Broadcasting of one dimension: equal, or one of them is 1. *)
Definition bdim (a b : nat) : option nat :=
  if Nat.eqb a b then Some a
  else if Nat.eqb a 1 then Some b
  else if Nat.eqb b 1 then Some a
  else None.

(** Index into a dimension of extent [n] broadcast to a larger one. *)
Definition bidx (n i : nat) : nat := if Nat.eqb n 1 then 0%nat else i.

(** [np.broadcast_to(V, (nr, nc))] on the entries; [None] when the shape of
    [V] cannot be broadcast to (nr, nc). *)
Definition broadcast_to (V : ndarray) (nr nc : nat) : option (nat -> nat -> cplx) :=
  if (Nat.eqb (nrows V) nr || Nat.eqb (nrows V) 1)
     && (Nat.eqb (ncols V) nc || Nat.eqb (ncols V) 1)
  then Some (fun i j => entry V (bidx (nrows V) i) (bidx (ncols V) j))
  else None.

(** [A + B] *)
Definition np_add (A B : ndarray) : outcome ndarray :=
  match bdim (nrows A) (nrows B), bdim (ncols A) (ncols B) with
  | Some nr, Some nc =>
      Ret (tabulate (promote (dtype A) (dtype B)) nr nc
             (fun i j => cadd (entry A (bidx (nrows A) i) (bidx (ncols A) j))
                              (entry B (bidx (nrows B) i) (bidx (ncols B) j))))
  | _, _ => Raise ValueError
  end.

(** [A += B] (in place): the result keeps the dtype and shape of [A]; a
    complex right-hand side cannot be cast into a real array
    ([UFuncTypeError]), and [B] must broadcast to the shape of [A]. *)
Definition np_iadd (A B : ndarray) : outcome ndarray :=
  match dtype A, dtype B with
  | float64, complex128 => Raise TypeError
  | _, _ =>
      match broadcast_to B (nrows A) (ncols A) with
      | Some b => Ret (tabulate (dtype A) (nrows A) (ncols A)
                         (fun i j => cadd (entry A i j) (b i j)))
      | None => Raise ValueError
      end
  end.

(** Python's normalisation of a slice bound against a length. *)
Definition slice_bound (len x : Z) : Z :=
  if x <? 0 then Z.max (x + len) 0 else Z.min x len.

(** Start and length of the slice [start:stop] of a dimension of extent [len]. *)
Definition slice_range (len : nat) (start stop : Z) : nat * nat :=
  let s := slice_bound (Z.of_nat len) start in
  let e := slice_bound (Z.of_nat len) stop in
  (Z.to_nat s, Z.to_nat (e - s)).

(** [A[r0:r1, c0:c1]] (a read-only use of the view). *)
Definition np_getitem (A : ndarray) (r0 r1 c0' c1' : Z) : ndarray :=
  let '(rs, rl) := slice_range (nrows A) r0 r1 in
  let '(cs, cl) := slice_range (ncols A) c0' c1' in
  tabulate (dtype A) rl cl (fun i j => entry A (rs + i) (cs + j)).

(** Cast on assignment into an array of dtype [dt] (numpy drops the
    imaginary part with a warning when [dt] is real). *)
Definition cast_to (dt : Dtype) (x : cplx) : cplx :=
  match dt with float64 => drop_imag x | complex128 => x end.

(** [A[r0:r1, c0:c1] = V] *)
Definition np_setitem (A : ndarray) (r0 r1 c0' c1' : Z) (V : ndarray) : outcome ndarray :=
  let '(rs, rl) := slice_range (nrows A) r0 r1 in
  let '(cs, cl) := slice_range (ncols A) c0' c1' in
  match broadcast_to V rl cl with
  | Some v =>
      Ret (tabulate (dtype A) (nrows A) (ncols A)
             (fun i j =>
                if (rs <=? i)%nat && (i <? rs + rl)%nat
                   && (cs <=? j)%nat && (j <? cs + cl)%nat
                then cast_to (dtype A) (v (i - rs)%nat (j - cs)%nat)
                else entry A i j))
  | None => Raise ValueError
  end.

(** ** [np.linalg.inv], by cofactors *)

Fixpoint remove_nth {A} (n : nat) (l : list A) : list A :=
  match l, n with
  | [], _ => []
  | _ :: t, O => t
  | h :: t, S n' => h :: remove_nth n' t
  end.

Definition minor (i j : nat) (M : list (list cplx)) : list (list cplx) :=
  map (remove_nth j) (remove_nth i M).

Definition csign (k : nat) (x : cplx) : cplx := if Nat.even k then x else cneg x.

(** Determinant of the leading [n] x [n] part, expanding along the first row. *)
Fixpoint det (n : nat) (M : list (list cplx)) : cplx :=
  match n with
  | O => c1
  | S n' =>
      match M with
      | [] => c1
      | row :: rest =>
          csum (map (fun j => csign j (cmul (nth j row c0)
                                           (det n' (map (remove_nth j) rest))))
                    (seq 0 (S n')))
      end
  end.

Definition np_linalg_inv (A : ndarray) : outcome ndarray :=
  if negb (Nat.eqb (nrows A) (ncols A)) then Raise LinAlgError
  else
    let n := nrows A in
    let d := det n (data A) in
    if c_is_zero d then Raise LinAlgError
    else Ret (tabulate (dtype A) n n
                (fun i j => cdiv (csign (i + j) (det (pred n) (minor j i (data A)))) d)).

(* ===================================================================== *)
(** * Python values and expressions *)
(* ===================================================================== *)

(** [l[i]] on a Python list: negative indices count from the end,
    out of range is an [IndexError]. *)
Definition list_index {A} (l : list A) (i : Z) : outcome nat :=
  let n := Z.of_nat (length l) in
  let k := if i <? 0 then i + n else i in
  if (k <? 0) || (n <=? k) then Raise IndexError else Ret (Z.to_nat k).

Definition list_getitem {A} (l : list A) (i : Z) : outcome A :=
  k <- list_index l i;;
  match l !! k with
  | Some x => Ret x
  | None => Raise IndexError
  end.

(** [l[i] = x] *)
Definition list_setitem {A} (l : list A) (i : Z) (x : A) : outcome (list A) :=
  k <- list_index l i;;
  Ret (<[k := x]> l).

(** The values a name of these modules can be bound to, beyond arrays. *)
Inductive pyobj : Type :=
| PyNone
| PyList (l : list ndarray).

(** [o[i]]: [None] is not subscriptable. *)
Definition py_getitem (o : pyobj) (i : Z) : outcome ndarray :=
  match o with
  | PyNone => Raise TypeError
  | PyList l => list_getitem l i
  end.

(** [x1, ..., xn = o]: [None] cannot be unpacked; a sequence must have
    exactly [n] items. *)
Definition py_unpack (o : pyobj) (n : nat) : outcome (list ndarray) :=
  match o with
  | PyNone => Raise TypeError
  | PyList l => if Nat.eqb (length l) n then Ret l else Raise ValueError
  end.

(** The module's global names that functions read without binding them. *)
Record Globals : Type := { g_blocksize : option Z }.

(** Reading the global name [blocksize]. *)
Definition global_blocksize (g : Globals) : outcome Z :=
  match g_blocksize g with
  | Some b => Ret b
  | None => Raise NameError
  end.

(** Operands are evaluated left to right, then the operation is applied. *)
Definition ret_nd (a : ndarray) : outcome ndarray := Ret a.
Coercion ret_nd : ndarray >-> outcome.

Definition omatmul (a b : outcome ndarray) : outcome ndarray :=
  x <- a;; y <- b;; matmul x y.
Definition oadd (a b : outcome ndarray) : outcome ndarray :=
  x <- a;; y <- b;; np_add x y.
Definition oneg (a : outcome ndarray) : outcome ndarray :=
  x <- a;; Ret (np_neg x).

Notation "a @@ b" := (omatmul a b) (at level 40, left associativity) : py_scope.
Notation "a +@ b" := (oadd a b) (at level 50, left associativity) : py_scope.
Notation "l .[ i ]" := (list_getitem l i) (at level 1, left associativity, format "l .[ i ]") : py_scope.
Notation "A .[ r0 ; r1 , c0 ; c1 ]" := (ret_nd (np_getitem A r0 r1 c0 c1))
  (at level 1, left associativity) : py_scope.

(** [l[i] += rhs]: the slot is read, the right-hand side evaluated, the
    array updated in place and stored back. *)
Definition slot_iadd (l : list ndarray) (i : Z) (rhs : outcome ndarray)
  : outcome (list ndarray) :=
  a <- l.[i];; b <- rhs;; a' <- np_iadd a b;; list_setitem l i a'.

(** [l[i] = rhs] *)
Definition slot_set (l : list ndarray) (i : Z) (rhs : outcome ndarray)
  : outcome (list ndarray) :=
  v <- rhs;; list_setitem l i v.

(** [range(start, stop, step)] *)
Definition py_range (start stop step : Z) : outcome (list Z) :=
  if step =? 0 then Raise ValueError
  else
    let count :=
      if 0 <? step then (stop - start + step - 1) / step
      else (start - stop - step - 1) / (- step) in
    Ret (map (fun k => start + Z.of_nat k * step) (seq 0 (Z.to_nat count))).

(** [math.log2] on a process count, read exactly: a process count is an MPI
    [int], far inside the range where the double-precision logarithm of a
    power of two is the only integral value.  [math.log2] of a number that
    is not positive is a [ValueError]. *)
Definition log2_is_integer (n : Z) : outcome bool :=
  if n <=? 0 then Raise ValueError else Ret (n =? 2 ^ Z.log2 n).

(** [int(math.log2(n))] *)
Definition int_log2 (n : Z) : outcome Z :=
  if n <=? 0 then Raise ValueError else Ret (Z.log2 n).

(** [math.ceil(d / 2)] *)
Definition ceil_half (d : Z) : Z := - ((- d) / 2).

(* ===================================================================== *)
(** * Effects: the trace of one rank, and the MPI environment *)
(* ===================================================================== *)

Inductive event : Type :=
| EvInv                                    (* a call of np.linalg.inv *)
| EvSend (obj : ndarray) (dest tag : Z)    (* comm.send *)
| EvRecv (source tag : Z)                  (* comm.recv *)
| EvPrint.                                 (* print *)

Definition trace := list event.

(** A computation of one rank: from the events so far to an outcome and the
    events after it. *)
Definition M (A : Type) : Type := trace -> outcome A * trace.

Definition ret {A} (a : A) : M A := fun t => (Ret a, t).
Definition lift {A} (o : outcome A) : M A := fun t => (o, t).
Definition bind {A B} (m : M A) (k : A -> M B) : M B :=
  fun t =>
    match m t with
    | (Ret a, t') => k a t'
    | (Raise e, t') => (Raise e, t')
    | (Hang, t') => (Hang, t')
    end.

Notation "x <~ m ;; k" := (bind m (fun x => k))
  (at level 100, m at next level, right associativity) : py_scope.

(** [MPI.COMM_WORLD] as one rank sees it.  The environment decides what a
    send or a receive does (return, raise, block), knowing the events so far. *)
Record Comm : Type := {
  Get_rank : Z;
  Get_size : Z;
  send_env : trace -> ndarray -> Z -> Z -> outcome unit;
  recv_env : trace -> Z -> Z -> outcome ndarray
}.

Definition comm_send (comm : Comm) (obj : ndarray) (dest tag : Z) : M unit :=
  fun t => (send_env comm t obj dest tag, t ++ [EvSend obj dest tag]).

Definition comm_recv (comm : Comm) (source tag : Z) : M ndarray :=
  fun t => (recv_env comm t source tag, t ++ [EvRecv source tag]).

Definition print : M unit := fun t => (Ret tt, t ++ [EvPrint]).

Definition linalg_inv (A : ndarray) : M ndarray :=
  fun t => (np_linalg_inv A, t ++ [EvInv]).

(** [for x in xs: s = body(x, s)] *)
Fixpoint for_each {S} (xs : list Z) (body : Z -> S -> M S) (s : S) : M S :=
  match xs with
  | [] => ret s
  | x :: xs' => s' <~ body x s;; for_each xs' body s'
  end.

(** The same loop over pure code. *)
Fixpoint ofor_each {S} (xs : list Z) (body : Z -> S -> outcome S) (s : S) : outcome S :=
  match xs with
  | [] => Ret s
  | x :: xs' => s' <- body x s;; ofor_each xs' body s'
  end.

(* ===================================================================== *)
(** * src/sinv/algorithms/pdiv/pdiv_localmap.py *)
(* ===================================================================== *)

Module PdivLocalmap.

(** [invert_partition]: a full dense inversion of the partition. *)
Definition invert_partition (K_local : ndarray) : M ndarray :=
  linalg_inv K_local.

(** [initialize_matrixmaps]: twelve blocks; numbers 1, 4, 5, 8 (slots 0, 3,
    4, 7) are the identity, the others zero. *)
Definition initialize_matrixmaps (K_local : ndarray) (blocksize : Z)
  : outcome (list ndarray) :=
  range12 <- py_range 0 12 1;;
  ofor_each range12
    (fun i l_M =>
       if (i =? 0) || (i =? 3) || (i =? 4) || (i =? 7) then
         x <- np_identity blocksize (dtype K_local);; Ret (l_M ++ [x])
       else
         x <- np_zeros blocksize blocksize (dtype K_local);; Ret (l_M ++ [x]))
    [].

(** [initialize_crossmaps]: twelve zero blocks (a list comprehension). *)
Definition initialize_crossmaps (K_local : ndarray) (blocksize : Z)
  : outcome (list ndarray) :=
  range12 <- py_range 0 12 1;;
  ofor_each range12
    (fun i l_C => x <- np_zeros blocksize blocksize (dtype K_local);; Ret (l_C ++ [x]))
    [].

(** [get_middle_process] *)
Definition get_middle_process (starting_process ending_process : Z) : Z :=
  starting_process - 1 + ceil_half (ending_process - starting_process).

(** [produce_UUR_ULL_ULR] *)
Definition produce_UUR_ULL_ULR (K_local : ndarray) (l_M : list ndarray) (blocksize : Z)
  : outcome (ndarray * ndarray * ndarray) :=
  let start_lastblock := shape0 K_local - blocksize in
  let end_lastblock := shape0 K_local in
  let bs := blocksize in
  let s := start_lastblock in
  let e := end_lastblock in
  UUR <- l_M.[0] @@ K_local.[0;bs, s;e]
         +@ l_M.[1] @@ K_local.[s;e, s;e];;
  ULL <- K_local.[s;e, 0;bs] @@ l_M.[4]
         +@ K_local.[s;e, s;e] @@ l_M.[5];;
  ULR <- K_local.[s;e, s;e]
         +@ K_local.[s;e, 0;bs] @@ l_M.[8] @@ K_local.[0;bs, s;e]
         +@ K_local.[s;e, 0;bs] @@ l_M.[9] @@ K_local.[s;e, s;e]
         +@ K_local.[s;e, s;e] @@ l_M.[10] @@ K_local.[0;bs, s;e]
         +@ K_local.[s;e, s;e] @@ l_M.[11] @@ K_local.[s;e, s;e];;
  Ret (UUR, ULL, ULR).

(** [produce_DUL_DUR_DLL] *)
Definition produce_DUL_DUR_DLL (K_local : ndarray) (l_M : list ndarray) (blocksize : Z)
  : outcome (ndarray * ndarray * ndarray) :=
  let start_lastblock := shape0 K_local - blocksize in
  let end_lastblock := shape0 K_local in
  let bs := blocksize in
  let s := start_lastblock in
  let e := end_lastblock in
  DUL <- K_local.[0;bs, 0;bs]
         +@ K_local.[0;bs, 0;bs] @@ l_M.[8] @@ K_local.[0;bs, 0;bs]
         +@ K_local.[0;bs, 0;bs] @@ l_M.[9] @@ K_local.[s;e, 0;bs]
         +@ K_local.[0;bs, s;e] @@ l_M.[10] @@ K_local.[0;bs, 0;bs]
         +@ K_local.[0;bs, s;e] @@ l_M.[11] @@ K_local.[s;e, 0;bs];;
  DUR <- K_local.[0;bs, 0;bs] @@ l_M.[2]
         +@ K_local.[0;bs, s;e] @@ l_M.[3];;
  DLL <- l_M.[6] @@ K_local.[0;bs, 0;bs]
         +@ l_M.[7] @@ K_local.[s;e, 0;bs];;
  Ret (DUL, DUR, DLL).

(** The three sends of one iteration of a producer's loop. *)
Definition send3 (comm : Comm) (a b c : ndarray) (process tag0 : Z) : M unit :=
  _ <~ comm_send comm a process tag0;;
  _ <~ comm_send comm b process (tag0 + 1);;
  comm_send comm c process (tag0 + 2).

(** [get_U]: the six boundary blocks [UUR, ULL, ULR, DUL, DUR, DLL]; the
    middle rank produces the first three and the rank after it the last
    three, every other rank of the group receives them. *)
Definition get_U (comm : Comm) (K_local : ndarray) (l_M : list ndarray)
    (starting_process middle_process ending_process blocksize : Z)
  : M (list ndarray) :=
  let comm_rank := Get_rank comm in
  _ <~ lift (np_zeros blocksize blocksize (dtype K_local));;
  _ <~ lift (np_zeros blocksize blocksize (dtype K_local));;
  _ <~ lift (np_zeros blocksize blocksize (dtype K_local));;
  _ <~ lift (np_zeros blocksize blocksize (dtype K_local));;
  _ <~ lift (np_zeros blocksize blocksize (dtype K_local));;
  _ <~ lift (np_zeros blocksize blocksize (dtype K_local));;
  U <~ (if comm_rank =? middle_process then
          U <~ lift (produce_UUR_ULL_ULR K_local l_M blocksize);;
          let '(UUR, ULL, ULR) := U in
          group <~ lift (py_range starting_process (ending_process + 1) 1);;
          _ <~ for_each group
                 (fun process _ =>
                    if negb (process =? middle_process)
                    then send3 comm UUR ULL ULR process 0
                    else ret tt) tt;;
          ret (UUR, ULL, ULR)
        else
          UUR <~ comm_recv comm middle_process 0;;
          ULL <~ comm_recv comm middle_process 1;;
          ULR <~ comm_recv comm middle_process 2;;
          ret (UUR, ULL, ULR));;
  let '(UUR, ULL, ULR) := U in
  D <~ (if comm_rank =? middle_process + 1 then
          D <~ lift (produce_DUL_DUR_DLL K_local l_M blocksize);;
          let '(DUL, DUR, DLL) := D in
          group <~ lift (py_range starting_process (ending_process + 1) 1);;
          _ <~ for_each group
                 (fun process _ =>
                    if negb (process =? middle_process + 1)
                    then send3 comm DUL DUR DLL process 3
                    else ret tt) tt;;
          ret (DUL, DUR, DLL)
        else
          DUL <~ comm_recv comm (middle_process + 1) 3;;
          DUR <~ comm_recv comm (middle_process + 1) 4;;
          DLL <~ comm_recv comm (middle_process + 1) 5;;
          ret (DUL, DUR, DLL));;
  let '(DUL, DUR, DLL) := D in
  ret [UUR; ULL; ULR; DUL; DUR; DLL].

(** The coupling matrix that [get_J] assembles before inverting it. *)
Definition get_J_assemble (l_U : list ndarray) (Bu_mid Bl_mid : ndarray) (blocksize : Z)
  : outcome ndarray :=
  let bs := blocksize in
  J <- np_zeros (2 * bs) (2 * bs) (dtype Bu_mid);;
  v <- np_identity bs (dtype Bu_mid);;
  J <- np_setitem J 0 bs 0 bs v;;
  v <- oneg (l_U.[3]) @@ Bl_mid;;
  J <- np_setitem J 0 bs bs (2 * bs) v;;
  v <- oneg (l_U.[2]) @@ Bu_mid;;
  J <- np_setitem J bs (2 * bs) 0 bs v;;
  v <- np_identity bs (dtype Bu_mid);;
  J <- np_setitem J bs (2 * bs) bs (2 * bs) v;;
  Ret J.

(** [get_J] *)
Definition get_J (l_U : list ndarray) (Bu_mid Bl_mid : ndarray) (blocksize : Z)
  : M ndarray :=
  J <~ lift (get_J_assemble l_U Bu_mid Bl_mid blocksize);;
  linalg_inv J.

(** [get_nextprocess_matrixmap]: the body is [pass]. *)
Definition get_nextprocess_matrixmap (l_M : list ndarray) (middle_process : Z) : pyobj :=
  PyNone.

(** [update_crossmap_upper].  [blocksize] is not a parameter: it is read as
    a global name. *)
Definition update_crossmap_upper (g : Globals) (l_M : list ndarray) (l_M_ip1 : pyobj)
    (l_C : list ndarray) (Bu_mid J : ndarray) : outcome (list ndarray) :=
  M3 <- l_M.[2];;
  M4 <- l_M.[3];;
  M7 <- l_M.[6];;
  M8 <- l_M.[7];;
  M3_ip1 <- py_getitem l_M_ip1 2;;
  M4_ip1 <- py_getitem l_M_ip1 3;;
  M7_ip1 <- py_getitem l_M_ip1 6;;
  M8_ip1 <- py_getitem l_M_ip1 7;;
  blocksize <- global_blocksize g;;
  let J12 := np_getitem J 0 blocksize blocksize (2 * blocksize) in
  l_C <- slot_iadd l_C 0 (M3 @@ Bu_mid @@ J12 @@ M7_ip1);;
  l_C <- slot_iadd l_C 1 (M3 @@ Bu_mid @@ J12 @@ M8_ip1);;
  l_C <- slot_iadd l_C 2 (M4 @@ Bu_mid @@ J12 @@ M7_ip1);;
  l_C <- slot_iadd l_C 3 (M4 @@ Bu_mid @@ J12 @@ M8_ip1);;
  l_C <- slot_iadd l_C 4 (M3_ip1 @@ Bu_mid @@ J12 @@ M7);;
  l_C <- slot_iadd l_C 5 (M3_ip1 @@ Bu_mid @@ J12 @@ M8);;
  l_C <- slot_iadd l_C 6 (M4_ip1 @@ Bu_mid @@ J12 @@ M7);;
  l_C <- slot_iadd l_C 7 (M4_ip1 @@ Bu_mid @@ J12 @@ M8);;
  Ret l_C.

(** [update_crossmap_middle] *)
Definition update_crossmap_middle (g : Globals) (l_M : list ndarray) (l_M_ip1 : pyobj)
    (l_C : list ndarray) (Bu_mid Bl_mid J : ndarray) : outcome (list ndarray) :=
  M3 <- l_M.[2];;
  M4 <- l_M.[3];;
  M7 <- l_M.[6];;
  M8 <- l_M.[7];;
  M1_ip1 <- py_getitem l_M_ip1 0;;
  M2_ip1 <- py_getitem l_M_ip1 1;;
  M5_ip1 <- py_getitem l_M_ip1 4;;
  M6_ip1 <- py_getitem l_M_ip1 5;;
  blocksize <- global_blocksize g;;
  let J11 := np_getitem J 0 blocksize 0 blocksize in
  let J22 := np_getitem J blocksize (2 * blocksize) blocksize (2 * blocksize) in
  l_C <- slot_iadd l_C 0 (M3 @@ Bu_mid @@ J11 @@ M1_ip1);;
  l_C <- slot_iadd l_C 1 (M3 @@ Bu_mid @@ J11 @@ M2_ip1);;
  l_C <- slot_iadd l_C 2 (M4 @@ Bu_mid @@ J11 @@ M1_ip1);;
  l_C <- slot_iadd l_C 3 (M4 @@ Bu_mid @@ J11 @@ M2_ip1);;
  l_C <- slot_iadd l_C 4 (M5_ip1 @@ Bl_mid @@ J22 @@ M7);;
  l_C <- slot_iadd l_C 5 (M5_ip1 @@ Bl_mid @@ J22 @@ M8);;
  l_C <- slot_iadd l_C 6 (M6_ip1 @@ Bl_mid @@ J22 @@ M7);;
  l_C <- slot_iadd l_C 7 (M6_ip1 @@ Bl_mid @@ J22 @@ M8);;
  Ret l_C.

(** [update_crossmap_lower] *)
Definition update_crossmap_lower (g : Globals) (l_M : list ndarray) (l_M_ip1 : pyobj)
    (l_C : list ndarray) (Bl_mid J : ndarray) : outcome (list ndarray) :=
  M1 <- l_M.[0];;
  M2 <- l_M.[1];;
  M5 <- l_M.[4];;
  M6 <- l_M.[5];;
  M1_ip1 <- py_getitem l_M_ip1 0;;
  M2_ip1 <- py_getitem l_M_ip1 1;;
  M5_ip1 <- py_getitem l_M_ip1 4;;
  M6_ip1 <- py_getitem l_M_ip1 5;;
  blocksize <- global_blocksize g;;
  let J21 := np_getitem J blocksize (2 * blocksize) 0 blocksize in
  l_C <- slot_iadd l_C 0 (M5 @@ Bl_mid @@ J21 @@ M1_ip1);;
  l_C <- slot_iadd l_C 1 (M5 @@ Bl_mid @@ J21 @@ M1_ip1);;  (* MAY BE WRONG HERE *)
  l_C <- slot_iadd l_C 2 (M6 @@ Bl_mid @@ J21 @@ M1_ip1);;
  l_C <- slot_iadd l_C 3 (M6 @@ Bl_mid @@ J21 @@ M2_ip1);;
  l_C <- slot_iadd l_C 4 (M5_ip1 @@ Bl_mid @@ J21 @@ M1);;
  l_C <- slot_iadd l_C 5 (M5_ip1 @@ Bl_mid @@ J21 @@ M2);;
  l_C <- slot_iadd l_C 6 (M6_ip1 @@ Bl_mid @@ J21 @@ M1);;
  l_C <- slot_iadd l_C 7 (M6_ip1 @@ Bl_mid @@ J21 @@ M2);;
  Ret l_C.

(** [update_crossmap] *)
Definition update_crossmap (comm : Comm) (g : Globals) (l_C l_M : list ndarray)
    (Bu_mid Bl_mid J : ndarray) (middle_process blocksize : Z)
  : outcome (list ndarray) :=
  let comm_rank := Get_rank comm in
  let l_M_ip1 := get_nextprocess_matrixmap l_M middle_process in
  if comm_rank <? middle_process then
    update_crossmap_upper g l_M l_M_ip1 l_C Bu_mid J
  else if comm_rank =? middle_process then
    update_crossmap_middle g l_M l_M_ip1 l_C Bu_mid Bl_mid J
  else
    update_crossmap_lower g l_M l_M_ip1 l_C Bl_mid J.

(** [update_matrixmap_upper]: the assignments in the order of the source;
    each line sees the list as the lines before it left it. *)
Definition update_matrixmap_upper (l_M : list ndarray)
    (UUR DUR ULL DLL Bu_mid Bl_mid J11 J12 J22 : ndarray) : outcome (list ndarray) :=
  l_M <- slot_iadd l_M 0 (UUR @@ Bu_mid @@ J12 @@ l_M.[6]);;
  l_M <- slot_iadd l_M 1 (UUR @@ Bu_mid @@ J12 @@ l_M.[7]);;

  l_M <- slot_set l_M 2 (l_M.[2] @@ Bu_mid @@ J11 @@ DUR);;
  l_M <- slot_set l_M 3 (l_M.[3] @@ Bu_mid @@ J11 @@ DUR);;

  l_M <- slot_iadd l_M 4 (l_M.[2] @@ Bu_mid @@ J12 @@ ULL);;
  l_M <- slot_iadd l_M 5 (l_M.[3] @@ Bu_mid @@ J12 @@ ULL);;

  l_M <- slot_set l_M 6 (DLL @@ Bl_mid @@ J22 @@ l_M.[6]);;
  l_M <- slot_set l_M 7 (DLL @@ Bl_mid @@ J22 @@ l_M.[7]);;

  l_M <- slot_iadd l_M 8 (l_M.[2] @@ Bu_mid @@ J12 @@ l_M.[6]);;
  l_M <- slot_iadd l_M 9 (l_M.[2] @@ Bu_mid @@ J12 @@ l_M.[7]);;
  l_M <- slot_iadd l_M 10 (l_M.[3] @@ Bu_mid @@ J12 @@ l_M.[6]);;
  l_M <- slot_iadd l_M 11 (l_M.[3] @@ Bu_mid @@ J12 @@ l_M.[7]);;
  Ret l_M.

(** [update_matrixmap_lower] *)
Definition update_matrixmap_lower (l_M : list ndarray)
    (UUR DUR ULL DLL Bu_mid Bl_mid J11 J21 J22 : ndarray) : outcome (list ndarray) :=
  l_M <- slot_set l_M 0 (UUR @@ Bu_mid @@ J11 @@ l_M.[0]);;
  l_M <- slot_set l_M 1 (UUR @@ Bu_mid @@ J11 @@ l_M.[1]);;

  l_M <- slot_iadd l_M 2 (l_M.[4] @@ Bl_mid @@ J21 @@ DUR);;
  l_M <- slot_iadd l_M 3 (l_M.[5] @@ Bl_mid @@ J21 @@ DUR);;

  l_M <- slot_set l_M 4 (l_M.[5] @@ Bl_mid @@ J22 @@ ULL);;
  l_M <- slot_set l_M 5 (l_M.[4] @@ Bl_mid @@ J22 @@ ULL);;

  l_M <- slot_iadd l_M 6 (DLL @@ Bl_mid @@ J21 @@ l_M.[0]);;
  l_M <- slot_iadd l_M 7 (DLL @@ Bl_mid @@ J21 @@ l_M.[1]);;

  l_M <- slot_iadd l_M 8 (l_M.[4] @@ Bl_mid @@ J21 @@ l_M.[0]);;
  l_M <- slot_iadd l_M 9 (l_M.[4] @@ Bl_mid @@ J21 @@ l_M.[1]);;
  l_M <- slot_iadd l_M 10 (l_M.[5] @@ Bl_mid @@ J21 @@ l_M.[0]);;
  l_M <- slot_iadd l_M 11 (l_M.[5] @@ Bl_mid @@ J21 @@ l_M.[1]);;
  Ret l_M.

(** [update_matrixmap] *)
Definition update_matrixmap (comm : Comm) (l_M l_U : list ndarray)
    (Bu_mid Bl_mid J : ndarray) (middle_process blocksize : Z)
  : outcome (list ndarray) :=
  let comm_rank := Get_rank comm in
  UUR <- l_U.[0];;
  DUR <- l_U.[4];;
  ULL <- l_U.[1];;
  DLL <- l_U.[5];;
  let J11 := np_getitem J 0 blocksize 0 blocksize in
  let J12 := np_getitem J 0 blocksize blocksize (2 * blocksize) in
  let J21 := np_getitem J blocksize (2 * blocksize) 0 blocksize in
  let J22 := np_getitem J blocksize (2 * blocksize) blocksize (2 * blocksize) in
  if comm_rank <=? middle_process then
    update_matrixmap_upper l_M UUR DUR ULL DLL Bu_mid Bl_mid J11 J12 J22
  else
    update_matrixmap_lower l_M UUR DUR ULL DLL Bu_mid Bl_mid J11 J21 J22.

(** One iteration of the loop of [update_maps], for the group starting at
    [active_process]. *)
Definition update_maps_body (comm : Comm) (g : Globals) (K_local : ndarray)
    (l_upperbridges l_lowerbridges : list ndarray)
    (process_stride blocksize : Z)
    (active_process : Z) (maps : list ndarray * list ndarray)
  : M (list ndarray * list ndarray) :=
  let comm_rank := Get_rank comm in
  let '(l_M, l_C) := maps in
  let starting_process := active_process in
  let ending_process := active_process + process_stride - 1 in
  let middle_process := get_middle_process starting_process ending_process in
  maps <~ (if (starting_process <=? comm_rank) && (comm_rank <=? ending_process) then
             l_U <~ get_U comm K_local l_M starting_process middle_process
                      ending_process blocksize;;
             Bu_mid <~ lift (l_upperbridges.[middle_process]);;
             Bl_mid <~ lift (l_lowerbridges.[middle_process]);;
             J <~ get_J l_U Bu_mid Bl_mid blocksize;;
             l_C <~ lift (update_crossmap comm g l_C l_M Bu_mid Bl_mid J
                            middle_process blocksize);;
             l_M <~ lift (update_matrixmap comm l_M l_U Bu_mid Bl_mid J
                            middle_process blocksize);;
             ret (l_M, l_C)
           else ret (l_M, l_C));;
  _ <~ (if comm_rank =? 0 then print else ret tt);;
  ret maps.

(** [update_maps].  The lists are updated in place: the caller's [l_M] and
    [l_C] are the ones returned here. *)
Definition update_maps (comm : Comm) (g : Globals) (l_M l_C : list ndarray)
    (K_local : ndarray) (l_upperbridges l_lowerbridges : list ndarray)
    (current_step blocksize : Z)
  : M (list ndarray * list ndarray) :=
  let comm_size := Get_size comm in
  let process_stride := 2 ^ current_step in
  groups <~ lift (py_range 0 comm_size process_stride);;
  for_each groups
    (update_maps_body comm g K_local l_upperbridges l_lowerbridges
       process_stride blocksize)
    (l_M, l_C).

(** [pdiv_localmap] *)
Definition pdiv_localmap (comm : Comm) (g : Globals) (K_local : ndarray)
    (l_upperbridges l_lowerbridges : list ndarray) (blocksize : Z)
  : M (ndarray * list ndarray * list ndarray) :=
  let comm_size := Get_size comm in
  K_local <~ invert_partition K_local;;
  l_M <~ lift (initialize_matrixmaps K_local blocksize);;
  l_C <~ lift (initialize_crossmaps K_local blocksize);;
  n_reduction_steps <~ lift (int_log2 comm_size);;
  steps <~ lift (py_range 1 (n_reduction_steps + 1) 1);;
  _ <~ for_each steps
         (fun current_step maps =>
            update_maps comm g (fst maps) (snd maps) K_local
              l_upperbridges l_lowerbridges current_step blocksize)
         (l_M, l_C);;
  ret (K_local, l_upperbridges, l_lowerbridges).

End PdivLocalmap.

(* ===================================================================== *)
(** * algorithms/pdiv_parallel.py *)
(* ===================================================================== *)

Module PdivParallel.

(** Every helper of this module has the body [pass]: it returns [None] and
    has no effect. *)
Definition allocate_memory_for_partitions (A : ndarray) (n_partitions blocksize : Z)
  : pyobj := PyNone.
Definition partition_subdomain (A l_start_blockrow l_partitions_sizes : ndarray)
    (blocksize : Z) : pyobj := PyNone.
Definition send_partitions (K_i l_start_blockrow l_partitions_sizes : ndarray)
    (blocksize : Z) : pyobj := PyNone.
Definition send_bridges (B_i : ndarray) (n_reduction_steps blocksize : Z)
  : pyobj := PyNone.
Definition recv_partitions (K_local l_start_blockrow l_partitions_sizes : ndarray)
    (blocksize : Z) : pyobj := PyNone.
Definition recv_bridges (B_local : ndarray) (n_reduction_steps blocksize : Z)
  : pyobj := PyNone.
Definition invert_partition (K_local : ndarray) (blocksize : Z) : pyobj := PyNone.
Definition assemble_subpartitions (K_local : ndarray)
    (current_step n_reduction_steps blocksize : Z) : pyobj := PyNone.
Definition compute_update_term (K_local B_local : ndarray)
    (current_step n_reduction_steps blocksize : Z) : pyobj := PyNone.
Definition update_partition (K_local : ndarray) (U : pyobj)
    (current_step n_reduction_steps blocksize : Z) : pyobj := PyNone.

(** [a, b, c, d = o] and [a, b = o] *)
Definition py_unpack4 (o : pyobj) : outcome (ndarray * ndarray * ndarray * ndarray) :=
  xs <- py_unpack o 4;;
  match xs with
  | [a; b; c; d] => Ret (a, b, c, d)
  | _ => Raise ValueError
  end.
Definition py_unpack2 (o : pyobj) : outcome (ndarray * ndarray) :=
  xs <- py_unpack o 2;;
  match xs with
  | [a; b] => Ret (a, b)
  | _ => Raise ValueError
  end.

(** [pdiv]: the process count is checked before anything else. *)
Definition pdiv (comm : Comm) (A : ndarray) (blocksize : Z) : M ndarray :=
  let comm_rank := Get_rank comm in
  let comm_size := Get_size comm in
  is_int <~ lift (log2_is_integer comm_size);;
  if negb is_int then lift (Raise ValueError)
  else
    let n_partitions := comm_size in
    n_reduction_steps <~ lift (int_log2 n_partitions);;
    parts <~ lift (py_unpack4 (allocate_memory_for_partitions A n_partitions blocksize));;
    let '(K_local, B_local, l_start_blockrow, l_partitions_sizes) := parts in
    _ <~ (if comm_rank =? 0 then
            KB <~ lift (py_unpack2 (partition_subdomain A l_start_blockrow
                                      l_partitions_sizes blocksize));;
            let '(K_i, B_i) := KB in
            let _ := send_partitions K_i l_start_blockrow l_partitions_sizes blocksize in
            let _ := send_bridges B_i n_reduction_steps blocksize in
            ret tt
          else
            let _ := recv_partitions K_local l_start_blockrow l_partitions_sizes blocksize in
            let _ := recv_bridges B_local n_reduction_steps blocksize in
            ret tt);;
    let _ := invert_partition K_local blocksize in
    steps <~ lift (py_range 0 n_reduction_steps 1);;
    _ <~ for_each steps
           (fun current_step _ =>
              let _ := assemble_subpartitions K_local current_step n_reduction_steps blocksize in
              let U := compute_update_term K_local B_local current_step
                         n_reduction_steps blocksize in
              let _ := update_partition K_local U current_step n_reduction_steps blocksize in
              ret tt) tt;;
    ret K_local.

End PdivParallel.

(* ===================================================================== *)
(** * Specification vocabulary *)
(* ===================================================================== *)

Import PdivLocalmap.

(** A well-formed [bs] x [bs] block of dtype [dt]. *)
Definition is_block (bs : nat) (dt : Dtype) (B : ndarray) : Prop :=
  dtype B = dt /\ nrows B = bs /\ ncols B = bs /\
  length (data B) = bs /\ Forall (fun row => length row = bs) (data B).

Definition is_identity_block (bs : nat) (dt : Dtype) (B : ndarray) : Prop :=
  is_block bs dt B /\
  forall i j, (i < bs)%nat -> (j < bs)%nat ->
    entry B i j = if Nat.eqb i j then c1 else c0.

Definition is_zero_block (bs : nat) (dt : Dtype) (B : ndarray) : Prop :=
  is_block bs dt B /\
  forall i j, (i < bs)%nat -> (j < bs)%nat -> entry B i j = c0.

(** [new[k]] is the value of [rhs]. *)
Definition assigned (new : list ndarray) (k : nat) (rhs : outcome ndarray) : Prop :=
  exists x, rhs = Ret x /\ new !! k = Some x.

(** [new[k]] is [old[k]] incremented in place by the value of [rhs]. *)
Definition incremented (old new : list ndarray) (k : nat) (rhs : outcome ndarray) : Prop :=
  exists a x a', old !! k = Some a /\ rhs = Ret x /\ np_iadd a x = Ret a' /\
                 new !! k = Some a'.

(** A computation that never returns normally. *)
Definition never_returns {A} (m : M A) : Prop :=
  forall t a t', m t <> (Ret a, t').

(** A computation only adds events to the trace. *)
Definition appends {A} (m : M A) : Prop :=
  forall t o t', m t = (o, t') -> exists rest, t' = t ++ rest.

Definition is_power_of_two (n : Z) : Prop := exists k, 0 <= k /\ n = 2 ^ k.

(** A computation rejected up front: it raises [ValueError] and leaves no
    event (no inversion, no message, no output) behind. *)
Definition rejected_before_work {A} (m : M A) : Prop :=
  forall t, m t = (Raise ValueError, t).

(** The matrix-map rules as a two-phase update: every right-hand side is
    evaluated from the map values before the call ([old]). *)
Definition update_matrixmap_upper_snapshot (l_M : list ndarray)
    (UUR DUR ULL DLL Bu_mid Bl_mid J11 J12 J22 : ndarray) : outcome (list ndarray) :=
  let old := l_M in
  l_M <- slot_iadd l_M 0 (UUR @@ Bu_mid @@ J12 @@ old.[6]);;
  l_M <- slot_iadd l_M 1 (UUR @@ Bu_mid @@ J12 @@ old.[7]);;
  l_M <- slot_set l_M 2 (old.[2] @@ Bu_mid @@ J11 @@ DUR);;
  l_M <- slot_set l_M 3 (old.[3] @@ Bu_mid @@ J11 @@ DUR);;
  l_M <- slot_iadd l_M 4 (old.[2] @@ Bu_mid @@ J12 @@ ULL);;
  l_M <- slot_iadd l_M 5 (old.[3] @@ Bu_mid @@ J12 @@ ULL);;
  l_M <- slot_set l_M 6 (DLL @@ Bl_mid @@ J22 @@ old.[6]);;
  l_M <- slot_set l_M 7 (DLL @@ Bl_mid @@ J22 @@ old.[7]);;
  l_M <- slot_iadd l_M 8 (old.[2] @@ Bu_mid @@ J12 @@ old.[6]);;
  l_M <- slot_iadd l_M 9 (old.[2] @@ Bu_mid @@ J12 @@ old.[7]);;
  l_M <- slot_iadd l_M 10 (old.[3] @@ Bu_mid @@ J12 @@ old.[6]);;
  l_M <- slot_iadd l_M 11 (old.[3] @@ Bu_mid @@ J12 @@ old.[7]);;
  Ret l_M.

Definition update_matrixmap_lower_snapshot (l_M : list ndarray)
    (UUR DUR ULL DLL Bu_mid Bl_mid J11 J21 J22 : ndarray) : outcome (list ndarray) :=
  let old := l_M in
  l_M <- slot_set l_M 0 (UUR @@ Bu_mid @@ J11 @@ old.[0]);;
  l_M <- slot_set l_M 1 (UUR @@ Bu_mid @@ J11 @@ old.[1]);;
  l_M <- slot_iadd l_M 2 (old.[4] @@ Bl_mid @@ J21 @@ DUR);;
  l_M <- slot_iadd l_M 3 (old.[5] @@ Bl_mid @@ J21 @@ DUR);;
  l_M <- slot_set l_M 4 (old.[5] @@ Bl_mid @@ J22 @@ ULL);;
  l_M <- slot_set l_M 5 (old.[4] @@ Bl_mid @@ J22 @@ ULL);;
  l_M <- slot_iadd l_M 6 (DLL @@ Bl_mid @@ J21 @@ old.[0]);;
  l_M <- slot_iadd l_M 7 (DLL @@ Bl_mid @@ J21 @@ old.[1]);;
  l_M <- slot_iadd l_M 8 (old.[4] @@ Bl_mid @@ J21 @@ old.[0]);;
  l_M <- slot_iadd l_M 9 (old.[4] @@ Bl_mid @@ J21 @@ old.[1]);;
  l_M <- slot_iadd l_M 10 (old.[5] @@ Bl_mid @@ J21 @@ old.[0]);;
  l_M <- slot_iadd l_M 11 (old.[5] @@ Bl_mid @@ J21 @@ old.[1]);;
  Ret l_M.

(** [V] as an assignment into an array of dtype [dt] stores it. *)
Definition np_astype (dt : Dtype) (V : ndarray) : ndarray :=
  tabulate dt (nrows V) (ncols V) (fun i j => cast_to dt (entry V i j)).

(** The coupling matrix [Jc] has identity blocks on its diagonal, its
    upper-right block is [-X @ Bl_mid] and its lower-left block is
    [-Y @ Bu_mid], as stored in an array of the dtype of [Jc]. *)
Definition coupling_blocks_from (X Y Bu_mid Bl_mid : ndarray) (blocksize : Z)
    (Jc : ndarray) : Prop :=
  let bs := blocksize in
  exists V12 V21,
    oneg X @@ Bl_mid = Ret V12 /\
    oneg Y @@ Bu_mid = Ret V21 /\
    np_getitem Jc 0 bs bs (2 * bs) = np_astype (dtype Jc) V12 /\
    np_getitem Jc bs (2 * bs) 0 bs = np_astype (dtype Jc) V21 /\
    is_identity_block (Z.to_nat bs) (dtype Jc) (np_getitem Jc 0 bs 0 bs) /\
    is_identity_block (Z.to_nat bs) (dtype Jc)
      (np_getitem Jc bs (2 * bs) bs (2 * bs)).

(** One application of a cross-map rule, on any arguments. *)
Inductive crossmap_rule : list ndarray -> list ndarray -> Prop :=
| rule_upper g l_M l_M_ip1 l_C Bu_mid J l_C' :
    update_crossmap_upper g l_M l_M_ip1 l_C Bu_mid J = Ret l_C' ->
    crossmap_rule l_C l_C'
| rule_middle g l_M l_M_ip1 l_C Bu_mid Bl_mid J l_C' :
    update_crossmap_middle g l_M l_M_ip1 l_C Bu_mid Bl_mid J = Ret l_C' ->
    crossmap_rule l_C l_C'
| rule_lower g l_M l_M_ip1 l_C Bl_mid J l_C' :
    update_crossmap_lower g l_M l_M_ip1 l_C Bl_mid J = Ret l_C' ->
    crossmap_rule l_C l_C'.

(** The cross maps a run can hold: the seed, then any number of rule
    applications. *)
Inductive crossmap_run (K_local : ndarray) (blocksize : Z) : list ndarray -> Prop :=
| run_seed l_C :
    initialize_crossmaps K_local blocksize = Ret l_C ->
    crossmap_run K_local blocksize l_C
| run_step l_C l_C' :
    crossmap_run K_local blocksize l_C -> crossmap_rule l_C l_C' ->
    crossmap_run K_local blocksize l_C'.

(* ===================================================================== *)
(** * Concrete inputs and environments *)
(* ===================================================================== *)

(** Real scalars and 1 x 1 blocks. *)
Definition q (z : Z) : cplx := creal (inject_Z z).
Definition blk (dt : Dtype) (z : Z) : ndarray := of_rows dt [[q z]].

(** The module imported (no global [blocksize]) and run as a script (the
    script binds [blocksize = 2] at module level). *)
Definition globals_imported : Globals := {| g_blocksize := None |}.
Definition globals_script : Globals := {| g_blocksize := Some 2 |}.

(** The MPI environment of a run with one worker: there is nobody to talk to. *)
Definition comm_single : Comm :=
  {| Get_rank := 0; Get_size := 1;
     send_env := fun _ _ _ _ => Raise MPIException;
     recv_env := fun _ _ _ => Hang |}.

(** What a neighbouring rank holding the partition [K_part] sends in the
    first reduction step under the tag [tag]: one of the blocks it produces
    from its inverted partition and its seed maps (tags 0, 1, 2 are UUR, ULL,
    ULR; tags 3, 4, 5 are DUL, DUR, DLL). *)
Definition step1_block (K_part : ndarray) (blocksize tag : Z) : outcome ndarray :=
  K_inv <- np_linalg_inv K_part;;
  l_M <- initialize_matrixmaps K_inv blocksize;;
  if tag <? 3 then
    U <- produce_UUR_ULL_ULR K_inv l_M blocksize;;
    let '(UUR, ULL, ULR) := U in
    Ret (if tag =? 0 then UUR else if tag =? 1 then ULL else ULR)
  else
    D <- produce_DUL_DUR_DLL K_inv l_M blocksize;;
    let '(DUL, DUR, DLL) := D in
    Ret (if tag =? 3 then DUL else if tag =? 4 then DUR else DLL).

(** The environment of rank [rank] among [size] ranks whose partner in the
    first step holds [K_partner]: a send to an existing rank succeeds, a
    receive returns what the partner produces. *)
Definition comm_world (size rank : Z) (K_partner : ndarray) (blocksize : Z) : Comm :=
  {| Get_rank := rank; Get_size := size;
     send_env := fun _ _ dest _ =>
       if (0 <=? dest) && (dest <? size) then Ret tt else Raise MPIException;
     recv_env := fun _ source tag =>
       if (0 <=? source) && (source <? size)
       then step1_block K_partner blocksize tag
       else Raise MPIException |}.

(** The block-tridiagonal matrix [[2, 1], [1, 2]] (two blocks of size 1),
    its two partitions and its bridge. *)
Definition ex_A : ndarray := of_rows float64 [[q 2; q 1]; [q 1; q 2]].
Definition ex_K0 : ndarray := np_getitem ex_A 0 1 0 1.
Definition ex_K1 : ndarray := np_getitem ex_A 1 2 1 2.
Definition ex_Bu : ndarray := np_getitem ex_A 0 1 1 2.
Definition ex_Bl : ndarray := np_getitem ex_A 1 2 0 1.

(** Six distinct 1 x 1 boundary blocks [UUR, ULL, ULR, DUL, DUR, DLL]. *)
Definition ex_l_U : list ndarray := map (blk float64) [2; 3; 5; 7; 11; 13].

(** Twelve distinct 1 x 1 maps, a partner's maps, a cross map of twelve
    slots and a 2 x 2 matrix [J], for running the rules. *)
Definition ex_l_M : list ndarray :=
  map (blk float64) [1; 2; 3; 4; 5; 6; 7; 8; 9; 10; 11; 12].
Definition ex_l_M_ip1 : pyobj :=
  PyList (map (blk float64) [13; 14; 15; 16; 17; 18; 19; 20; 21; 22; 23; 24]).
Definition ex_J : ndarray := of_rows float64 [[q 1; q 2]; [q 3; q 4]].
Definition globals_one : Globals := {| g_blocksize := Some 1 |}.

(* ===================================================================== *)
(** * Further vocabulary: groups, shapes, traces *)
(* ===================================================================== *)

(** The groups the loop of [update_maps] visits at a step, each with the
    three ranks the loop computes for it: starting, middle and ending
    process. *)
Definition update_maps_groups (comm_size current_step : Z)
  : outcome (list (Z * Z * Z)) :=
  let process_stride := 2 ^ current_step in
  groups <- py_range 0 comm_size process_stride;;
  Ret (map (fun active_process =>
              let starting_process := active_process in
              let ending_process := active_process + process_stride - 1 in
              (starting_process,
               get_middle_process starting_process ending_process,
               ending_process))
           groups).

(** An array of the given dtype and shape. *)
Definition shaped (r c : nat) (dt : Dtype) (A : ndarray) : Prop :=
  dtype A = dt /\ nrows A = r /\ ncols A = c.

(** An expression that evaluates to an array of the given dtype and shape. *)
Definition oshaped (r c : nat) (dt : Dtype) (o : outcome ndarray) : Prop :=
  exists V, o = Ret V /\ shaped r c dt V.

(** Twelve maps, each a block of the block size. *)
Definition maps_ok (bs : nat) (dt : Dtype) (l : list ndarray) : Prop :=
  length l = 12%nat /\ Forall (shaped bs bs dt) l.

(** Every message of the events is exchanged with a rank in [lo, hi]. *)
Definition peer_within (lo hi : Z) (ev : event) : Prop :=
  match ev with
  | EvSend _ dest _ => lo <= dest <= hi
  | EvRecv source _ => lo <= source <= hi
  | EvInv | EvPrint => True
  end.

Definition is_print (ev : event) : Prop :=
  match ev with EvPrint => True | _ => False end.

Definition is_send (ev : event) : Prop :=
  match ev with EvSend _ _ _ => True | _ => False end.

(** A message is never exchanged with the rank itself. *)
Definition not_self (rank : Z) (ev : event) : Prop :=
  match ev with
  | EvSend _ dest _ => dest <> rank
  | EvRecv source _ => source <> rank
  | EvInv | EvPrint => True
  end.

(** A computation only adds events, and each event it adds satisfies [P]. *)
Definition emits {A} (P : event -> Prop) (m : M A) : Prop :=
  forall t o t', m t = (o, t') -> exists rest, t' = t ++ rest /\ Forall P rest.

(** A scalar in reduced form. *)
Definition canon (x : cplx) : Prop := Qred (re x) = re x /\ Qred (im x) = im x.

(** The identity block and the zero block, as [np.identity] and [np.zeros]
    build them. *)
Definition block_I (bs : nat) (dt : Dtype) : ndarray :=
  tabulate dt bs bs (fun i j => if Nat.eqb i j then c1 else c0).
Definition block_O (bs : nat) (dt : Dtype) : ndarray :=
  tabulate dt bs bs (fun _ _ => c0).

(** A block whose rows are as long as its shape says and whose entries
    are in reduced form: what the array operations of this model return. *)
Definition cblock (bs : nat) (dt : Dtype) (B : ndarray) : Prop :=
  exists f, B = tabulate dt bs bs f /\
            forall i j, (i < bs)%nat -> (j < bs)%nat -> canon (f i j).

(* ===================================================================== *)
(** * Basic facts about the embedding *)
(* ===================================================================== *)

Lemma obind_Ret_inv {A B} (m : outcome A) (k : A -> outcome B) b :
  obind m k = Ret b -> exists a, m = Ret a /\ k a = Ret b.
Proof. destruct m; simpl; intros H; try discriminate. eauto. Qed.

Lemma bind_Ret_inv {A B} (m : M A) (k : A -> M B) t b t' :
  bind m k t = (Ret b, t') -> exists a t1, m t = (Ret a, t1) /\ k a t1 = (Ret b, t').
Proof.
  unfold bind. destruct (m t) as [[a | e |] t1]; intros H; try discriminate. eauto.
Qed.

Lemma never_returns_bind_l {A B} (m : M A) (k : A -> M B) :
  never_returns m -> never_returns (bind m k).
Proof.
  intros Hm t b t' H. apply bind_Ret_inv in H as (a & t1 & Ha & _).
  exact (Hm _ _ _ Ha).
Qed.

Lemma never_returns_bind_r {A B} (m : M A) (k : A -> M B) :
  (forall a, never_returns (k a)) -> never_returns (bind m k).
Proof.
  intros Hk t b t' H. apply bind_Ret_inv in H as (a & t1 & _ & Hb).
  exact (Hk _ _ _ _ Hb).
Qed.

Lemma never_returns_lift_Raise {A} (o : outcome A) e :
  o = Raise e -> never_returns (lift o).
Proof. intros -> t a t'. unfold lift. discriminate. Qed.

(** Splitting a monadic equation [m >>= k = Ret b] in a hypothesis. *)
Ltac obind_inv H :=
  let a := fresh "v" in
  let E := fresh "E" in
  apply obind_Ret_inv in H; destruct H as (a & E & H); cbv beta in H.

Lemma entry_tabulate dt nr nc f i j :
  (i < nr)%nat -> (j < nc)%nat -> entry (tabulate dt nr nc f) i j = f i j.
Proof.
  intros Hi Hj. unfold entry, tabulate. simpl.
  rewrite (nth_indep _ [] (map (fun j0 => f 0%nat j0) (seq 0 nc)))
    by (rewrite length_map, length_seq; exact Hi).
  rewrite (map_nth (fun i0 => map (fun j0 => f i0 j0) (seq 0 nc)) (seq 0 nr) 0%nat i).
  rewrite seq_nth by exact Hi. simpl.
  rewrite (nth_indep _ c0 (f i 0%nat))
    by (rewrite length_map, length_seq; exact Hj).
  rewrite (map_nth (fun j0 => f i j0) (seq 0 nc) 0%nat j).
  rewrite seq_nth by exact Hj. reflexivity.
Qed.

Lemma tabulate_ext dt nr nc f g :
  (forall i j, (i < nr)%nat -> (j < nc)%nat -> f i j = g i j) ->
  tabulate dt nr nc f = tabulate dt nr nc g.
Proof.
  intros H. unfold tabulate. f_equal.
  apply map_ext_in. intros i Hi. apply in_seq in Hi.
  apply map_ext_in. intros j Hj. apply in_seq in Hj.
  apply H; lia.
Qed.

Lemma tabulate_is_block dt bs f : is_block bs dt (tabulate dt bs bs f).
Proof.
  unfold is_block, tabulate. simpl. repeat split.
  - rewrite length_map, length_seq. reflexivity.
  - apply Forall_forall. intros row Hrow.
    apply list_elem_of_In, in_map_iff in Hrow as (i & <- & _).
    rewrite length_map, length_seq. reflexivity.
Qed.

Lemma np_zeros_Ret bs dt :
  0 <= bs -> np_zeros bs bs dt
             = Ret (tabulate dt (Z.to_nat bs) (Z.to_nat bs) (fun _ _ => c0)).
Proof.
  intros H. unfold np_zeros.
  destruct (Z.ltb_spec bs 0); [lia | reflexivity].
Qed.

Lemma np_identity_Ret bs dt :
  0 <= bs -> np_identity bs dt
             = Ret (tabulate dt (Z.to_nat bs) (Z.to_nat bs)
                      (fun i j => if Nat.eqb i j then c1 else c0)).
Proof.
  intros H. unfold np_identity.
  destruct (Z.ltb_spec bs 0); [lia | reflexivity].
Qed.

Lemma zeros_is_zero_block dt bs :
  is_zero_block bs dt (tabulate dt bs bs (fun _ _ => c0)).
Proof.
  split; [apply tabulate_is_block |].
  intros i j Hi Hj. apply entry_tabulate; assumption.
Qed.

Lemma identity_is_identity_block dt bs :
  is_identity_block bs dt
    (tabulate dt bs bs (fun i j => if Nat.eqb i j then c1 else c0)).
Proof.
  split; [apply tabulate_is_block |].
  intros i j Hi Hj. apply entry_tabulate; assumption.
Qed.

(** The seed maps, written out. *)
Lemma initialize_matrixmaps_eq K_local blocksize :
  0 <= blocksize ->
  let I := tabulate (dtype K_local) (Z.to_nat blocksize) (Z.to_nat blocksize)
             (fun i j => if Nat.eqb i j then c1 else c0) in
  let O := tabulate (dtype K_local) (Z.to_nat blocksize) (Z.to_nat blocksize)
             (fun _ _ => c0) in
  initialize_matrixmaps K_local blocksize
  = Ret [I; O; O; I; I; O; O; I; O; O; O; O].
Proof.
  intros H. unfold initialize_matrixmaps.
  change (py_range 0 12 1) with (Ret [0; 1; 2; 3; 4; 5; 6; 7; 8; 9; 10; 11]).
  cbn -[np_identity np_zeros]. 
  rewrite np_identity_Ret, np_zeros_Ret by exact H. reflexivity.
Qed.

Lemma initialize_crossmaps_eq K_local blocksize :
  0 <= blocksize ->
  let O := tabulate (dtype K_local) (Z.to_nat blocksize) (Z.to_nat blocksize)
             (fun _ _ => c0) in
  initialize_crossmaps K_local blocksize
  = Ret [O; O; O; O; O; O; O; O; O; O; O; O].
Proof.
  intros H. unfold initialize_crossmaps.
  change (py_range 0 12 1) with (Ret [0; 1; 2; 3; 4; 5; 6; 7; 8; 9; 10; 11]).
  cbn -[np_zeros].
  rewrite np_zeros_Ret by exact H. reflexivity.
Qed.

(** The model of [np.linalg.inv] on two matrices: the product with the
    argument is the identity. *)
Example np_linalg_inv_real_2x2 :
  (X <- np_linalg_inv ex_J;; matmul X ex_J) = np_identity 2 float64.
Proof. vm_compute. reflexivity. Qed.

Example np_linalg_inv_complex_3x3 :
  let A := of_rows complex128 [[Cplx 2 1; q 1; q 0];
                               [q 1; q 3; q 1];
                               [q 0; q 1; Cplx 1 1]] in
  (X <- np_linalg_inv A;; matmul A X) = np_identity 3 complex128.
Proof. vm_compute. reflexivity. Qed.

Example np_linalg_inv_singular :
  np_linalg_inv (of_rows float64 [[q 1; q 2]; [q 2; q 4]]) = Raise LinAlgError.
Proof. vm_compute. reflexivity. Qed.

(* ===================================================================== *)
(** * The map initialiser *)
(* ===================================================================== *)

(** C10. For every block size (not negative) and dtype,
    [initialize_matrixmaps] returns twelve blocks, the identity at slots 0,
    3, 4 and 7 and zero blocks elsewhere, and [initialize_crossmaps] returns
    twelve zero blocks; both results depend only on the block size and the
    dtype of the partition, so two calls with the same block size and dtype
    give identical seed maps. *)
Theorem map_initializer_seed (K_local : ndarray) (blocksize : Z)
    (Hbs : 0 <= blocksize) :
  let bs := Z.to_nat blocksize in
  let dt := dtype K_local in
  exists l_M l_C,
    initialize_matrixmaps K_local blocksize = Ret l_M /\
    initialize_crossmaps K_local blocksize = Ret l_C /\
    length l_M = 12%nat /\ length l_C = 12%nat /\
    (forall k B, l_M !! k = Some B ->
       if Nat.eqb k 0 || Nat.eqb k 3 || Nat.eqb k 4 || Nat.eqb k 7
       then is_identity_block bs dt B else is_zero_block bs dt B) /\
    (forall k B, l_C !! k = Some B -> is_zero_block bs dt B) /\
    (forall K_local', dtype K_local' = dtype K_local ->
       initialize_matrixmaps K_local' blocksize = Ret l_M /\
       initialize_crossmaps K_local' blocksize = Ret l_C).
Proof.
  intros bs dt.
  pose proof (initialize_matrixmaps_eq K_local blocksize Hbs) as HM.
  pose proof (initialize_crossmaps_eq K_local blocksize Hbs) as HC.
  cbv zeta in HM, HC. fold bs dt in HM, HC.
  eexists. eexists. split; [exact HM |]. split; [exact HC |].
  split; [reflexivity |]. split; [reflexivity |].
  split; [| split].
  - intros k B Hk.
    do 12 (destruct k as [| k];
           [injection Hk as <-; simpl;
            first [apply identity_is_identity_block | apply zeros_is_zero_block] |]).
    discriminate.
  - intros k B Hk.
    do 12 (destruct k as [| k];
           [injection Hk as <-; apply zeros_is_zero_block |]).
    discriminate.
  - intros K' HK'.
    rewrite (initialize_matrixmaps_eq K' blocksize Hbs).
    rewrite (initialize_crossmaps_eq K' blocksize Hbs).
    cbv zeta. rewrite HK'. split; reflexivity.
Qed.

Lemma map_initializer_seed_witness :
  let bs := Z.to_nat 1 in
  let dt := dtype (blk float64 2) in
  exists l_M l_C,
    initialize_matrixmaps (blk float64 2) 1 = Ret l_M /\
    initialize_crossmaps (blk float64 2) 1 = Ret l_C /\
    length l_M = 12%nat /\ length l_C = 12%nat /\
    (forall k B, l_M !! k = Some B ->
       if Nat.eqb k 0 || Nat.eqb k 3 || Nat.eqb k 4 || Nat.eqb k 7
       then is_identity_block bs dt B else is_zero_block bs dt B) /\
    (forall k B, l_C !! k = Some B -> is_zero_block bs dt B) /\
    (forall K_local', dtype K_local' = dtype (blk float64 2) ->
       initialize_matrixmaps K_local' 1 = Ret l_M /\
       initialize_crossmaps K_local' 1 = Ret l_C).
Proof. apply (map_initializer_seed (blk float64 2) 1). lia. Defined.

(* ===================================================================== *)
(** * One worker *)
(* ===================================================================== *)

(** With one worker the loop over the reduction steps is empty. *)
Lemma pdiv_localmap_one_worker comm g K_local l_upperbridges l_lowerbridges blocksize t :
  Get_size comm = 1 -> 0 <= blocksize ->
  pdiv_localmap comm g K_local l_upperbridges l_lowerbridges blocksize t
  = (K_inv <~ invert_partition K_local;;
     ret (K_inv, l_upperbridges, l_lowerbridges)) t.
Proof.
  intros HP Hbs. unfold pdiv_localmap, bind, invert_partition, linalg_inv.
  destruct (np_linalg_inv K_local) as [K_inv | e |]; try reflexivity.
  rewrite (initialize_matrixmaps_eq K_inv blocksize Hbs).
  rewrite (initialize_crossmaps_eq K_inv blocksize Hbs).
  rewrite HP. reflexivity.
Qed.

(** C9. With one worker, [pdiv_localmap] runs zero reduction steps and
    returns exactly what the local inverter gives ([np.linalg.inv] of the
    partition, or its error) with the two bridge lists as they were passed;
    the only event of the run is that inversion: the seed maps are built and
    then neither read nor updated. *)
Theorem single_worker_run (comm : Comm) (g : Globals) (K_local : ndarray)
    (l_upperbridges l_lowerbridges : list ndarray) (blocksize : Z) (t : trace)
    (HP : Get_size comm = 1) (Hbs : 0 <= blocksize) :
  (n <- int_log2 (Get_size comm);; py_range 1 (n + 1) 1) = Ret [] /\
  pdiv_localmap comm g K_local l_upperbridges l_lowerbridges blocksize t
  = (K_inv <~ invert_partition K_local;;
     ret (K_inv, l_upperbridges, l_lowerbridges)) t /\
  pdiv_localmap comm g K_local l_upperbridges l_lowerbridges blocksize t
  = (match np_linalg_inv K_local with
     | Ret K_inv => Ret (K_inv, l_upperbridges, l_lowerbridges)
     | Raise e => Raise e
     | Hang => Hang
     end, t ++ [EvInv]).
Proof.
  pose proof (pdiv_localmap_one_worker comm g K_local l_upperbridges l_lowerbridges
                blocksize t HP Hbs) as Hrun.
  rewrite HP. split; [reflexivity |]. split; [exact Hrun |].
  rewrite Hrun. unfold bind, invert_partition, linalg_inv.
  destruct (np_linalg_inv K_local); reflexivity.
Qed.

Lemma single_worker_run_witness :
  Get_size comm_single = 1 /\ 0 <= 1 /\
  pdiv_localmap comm_single globals_imported (blk float64 2) [] [] 1 []
  = (Ret (of_rows float64 [[Cplx (1 # 2) 0]], [], []), [EvInv]).
Proof.
  split; [reflexivity |]. split; [lia |].
  destruct (single_worker_run comm_single globals_imported (blk float64 2) [] [] 1 [])
    as (_ & _ & H); [reflexivity | lia |].
  rewrite H. reflexivity.
Defined.

(* ===================================================================== *)
(** * The cross-map update cannot complete *)
(* ===================================================================== *)

Lemma list_index_Ret {A} (l : list A) i k :
  list_index l i = Ret k -> 0 <= i -> k = Z.to_nat i /\ (k < length l)%nat.
Proof.
  unfold list_index. intros H Hi.
  destruct (Z.ltb_spec i 0); [lia |].
  destruct (_ || _) eqn:E; [discriminate |].
  injection H as <-. apply orb_false_elim in E as [_ E].
  apply Z.leb_gt in E. lia.
Qed.

Lemma list_getitem_cases {A} (l : list A) i :
  (exists x, list_getitem l i = Ret x) \/ list_getitem l i = Raise IndexError.
Proof.
  unfold list_getitem, list_index.
  destruct (_ || _); simpl; [right; reflexivity |].
  destruct (l !! _); [left; eauto | right; reflexivity].
Qed.

Lemma list_getitem_in_range {A} (l : list A) i :
  0 <= i < Z.of_nat (length l) -> exists x, list_getitem l i = Ret x.
Proof.
  intros Hi. unfold list_getitem, list_index.
  destruct (Z.ltb_spec i 0); [lia |].
  destruct (Z.ltb_spec i 0); [lia |].
  destruct (Z.leb_spec (Z.of_nat (length l)) i); [lia |]. simpl.
  destruct (l !! Z.to_nat i) eqn:E; [eauto |].
  apply lookup_ge_None in E. lia.
Qed.

Lemma list_getitem_Ret {A} (l : list A) i x :
  list_getitem l i = Ret x -> 0 <= i -> l !! Z.to_nat i = Some x.
Proof.
  unfold list_getitem. intros H Hi. obind_inv H.
  apply list_index_Ret in E as [-> _]; [| exact Hi].
  destruct (l !! Z.to_nat i); [congruence | discriminate].
Qed.

(** Whatever the rank and the maps, [update_crossmap] raises. *)
Lemma update_crossmap_raises comm g l_C l_M Bu_mid Bl_mid J middle_process blocksize :
  exists e, update_crossmap comm g l_C l_M Bu_mid Bl_mid J middle_process blocksize
            = Raise e.
Proof.
  unfold update_crossmap, get_nextprocess_matrixmap.
  destruct (_ <? _); [| destruct (_ =? _)];
    unfold update_crossmap_upper, update_crossmap_middle, update_crossmap_lower;
    repeat match goal with
           | |- context [obind (list_getitem l_M ?i) _] =>
               destruct (list_getitem_cases l_M i) as [[? ->] | ->];
               [cbn [obind] | eexists; reflexivity]
           end;
    eexists; reflexivity.
Qed.

(** With the matrix maps in place (at least the eight slots the rules read),
    the exception is the [TypeError] of subscripting [None]. *)
Lemma update_crossmap_TypeError comm g l_C l_M Bu_mid Bl_mid J middle_process blocksize :
  (8 <= length l_M)%nat ->
  update_crossmap comm g l_C l_M Bu_mid Bl_mid J middle_process blocksize
  = Raise TypeError.
Proof.
  intros Hlen.
  unfold update_crossmap, get_nextprocess_matrixmap.
  destruct (_ <? _); [| destruct (_ =? _)];
    unfold update_crossmap_upper, update_crossmap_middle, update_crossmap_lower;
    repeat match goal with
           | |- context [obind (list_getitem l_M ?i) _] =>
               let H := fresh in
               destruct (list_getitem_in_range l_M i) as [? H]; [lia |];
               rewrite H; cbn [obind]
           end;
    reflexivity.
Qed.

Lemma for_each_never_returns {S} (xs : list Z) (body : Z -> S -> M S) x :
  In x xs -> (forall s, never_returns (body x s)) ->
  forall s, never_returns (for_each xs body s).
Proof.
  intros Hin Hx. induction xs as [| y ys IH]; [destruct Hin |].
  intros s. simpl. destruct Hin as [-> | Hin].
  - apply never_returns_bind_l, Hx.
  - apply never_returns_bind_r. intros s'. apply IH, Hin.
Qed.

Lemma bind_lift_Ret {A B} (a : A) (k : A -> M B) t :
  bind (lift (Ret a)) k t = k a t.
Proof. reflexivity. Qed.

(** The group of a rank at a given stride is visited by the loop. *)
Lemma py_range_group size stride rank :
  0 < stride -> 0 <= rank < size ->
  exists groups a, py_range 0 size stride = Ret groups /\ In a groups /\
                   a <= rank <= a + stride - 1.
Proof.
  intros Hs Hr. unfold py_range.
  destruct (Z.eqb_spec stride 0); [lia |].
  destruct (Z.ltb_spec 0 stride); [| lia].
  eexists. exists (stride * (rank / stride)). split; [reflexivity |]. split.
  - apply in_map_iff. exists (Z.to_nat (rank / stride)).
    assert (0 <= rank / stride) by (apply Z.div_pos; lia).
    split; [rewrite Z2Nat.id by assumption; lia |].
    apply in_seq. split; [lia |]. simpl.
    apply Z2Nat.inj_lt; [assumption | |].
    + apply Z.div_pos; lia.
    + replace (size - 0 + stride - 1) with ((size - 1) + 1 * stride) by lia.
      rewrite Z.div_add by lia.
      assert (rank / stride <= (size - 1) / stride)
        by (apply Z.div_le_mono; lia).
      lia.
  - pose proof (Z.mul_div_le rank stride Hs).
    pose proof (Z.mul_succ_div_gt rank stride Hs). lia.
Qed.

(** The body of the loop of [update_maps], run on the group of the rank. *)
Lemma update_maps_body_never_returns comm g K_local l_upperbridges l_lowerbridges
    process_stride blocksize active_process maps :
  active_process <= Get_rank comm <= active_process + process_stride - 1 ->
  never_returns (update_maps_body comm g K_local l_upperbridges l_lowerbridges
                   process_stride blocksize active_process maps).
Proof.
  intros Hin. unfold update_maps_body. destruct maps as [l_M l_C].
  destruct (Z.leb_spec active_process (Get_rank comm)); [| lia].
  destruct (Z.leb_spec (Get_rank comm) (active_process + process_stride - 1)); [| lia].
  cbn [andb].
  apply never_returns_bind_l.
  do 4 (apply never_returns_bind_r; intros ?).
  apply never_returns_bind_l.
  match goal with
  | |- never_returns (lift (update_crossmap ?c ?g' ?lc ?lm ?bu ?bl ?j ?m ?b)) =>
      destruct (update_crossmap_raises c g' lc lm bu bl j m b) as [e He];
      exact (never_returns_lift_Raise _ e He)
  end.
Qed.

Lemma update_maps_never_returns comm g l_M l_C K_local l_upperbridges l_lowerbridges
    current_step blocksize :
  0 <= Get_rank comm < Get_size comm ->
  never_returns (update_maps comm g l_M l_C K_local l_upperbridges l_lowerbridges
                   current_step blocksize).
Proof.
  intros Hrank. unfold update_maps.
  destruct (Z.ltb_spec current_step 0) as [Hneg | Hpos].
  - rewrite Z.pow_neg_r by exact Hneg.
    apply never_returns_bind_l.
    apply (never_returns_lift_Raise _ ValueError). reflexivity.
  - assert (Hs : 0 < 2 ^ current_step) by (apply Z.pow_pos_nonneg; lia).
    destruct (py_range_group (Get_size comm) (2 ^ current_step) (Get_rank comm) Hs Hrank)
      as (groups & a & Hgroups & Hin & Ha).
    rewrite Hgroups. intros t. rewrite bind_lift_Ret. revert t.
    apply (for_each_never_returns groups _ a Hin).
    intros maps. apply update_maps_body_never_returns, Ha.
Qed.

Lemma pdiv_localmap_never_returns comm g K_local l_upperbridges l_lowerbridges blocksize :
  2 <= Get_size comm -> 0 <= Get_rank comm < Get_size comm ->
  never_returns (pdiv_localmap comm g K_local l_upperbridges l_lowerbridges blocksize).
Proof.
  intros HP Hrank. unfold pdiv_localmap.
  do 3 (apply never_returns_bind_r; intros ?).
  assert (Hlog : 1 <= Z.log2 (Get_size comm)).
  { change 1 with (Z.log2 2). apply Z.log2_le_mono. exact HP. }
  unfold int_log2. destruct (Z.leb_spec (Get_size comm) 0); [lia |].
  intros t. rewrite bind_lift_Ret. revert t.
  unfold py_range at 1.
  change (1 =? 0) with false. change (0 <? 1) with true. cbn iota.
  intros t. rewrite bind_lift_Ret. revert t.
  apply never_returns_bind_l.
  apply (for_each_never_returns _ _ 1).
  - apply in_map_iff. exists 0%nat. split; [reflexivity |].
    apply in_seq. rewrite Z.div_1_r. lia.
  - intros maps. apply update_maps_never_returns, Hrank.
Qed.

(** With a partner's map in hand, the rules reach the slices of [J], which
    read the name [blocksize]: unbound when the module is imported. *)
Lemma update_crossmap_rules_NameError g l_M l' l_C Bu_mid Bl_mid J :
  g_blocksize g = None -> (8 <= length l_M)%nat -> (8 <= length l')%nat ->
  update_crossmap_upper g l_M (PyList l') l_C Bu_mid J = Raise NameError /\
  update_crossmap_middle g l_M (PyList l') l_C Bu_mid Bl_mid J = Raise NameError /\
  update_crossmap_lower g l_M (PyList l') l_C Bl_mid J = Raise NameError.
Proof.
  intros Hg HM Hl'.
  unfold update_crossmap_upper, update_crossmap_middle, update_crossmap_lower,
    py_getitem, global_blocksize.
  rewrite Hg.
  repeat split;
    repeat match goal with
           | |- context [obind (list_getitem ?l ?i) _] =>
               let H := fresh in
               destruct (list_getitem_in_range l i) as [? H]; [lia |];
               rewrite H; cbn [obind]
           end;
    reflexivity.
Qed.

(** C2. For every process count of at least two and every rank of it:
    [get_nextprocess_matrixmap] returns [None]; subscripting it is a
    [TypeError]; so [update_crossmap] raises on every input (that
    [TypeError] whenever the matrix maps have their slots), and were a map
    supplied the rules would stop at the unbound name [blocksize]; hence no
    call of [update_maps] and no run of [pdiv_localmap] returns normally.
    A run with one worker and an invertible partition does return. *)
Theorem crossmap_update_always_raises (comm : Comm) (g : Globals) (K_local : ndarray)
    (l_upperbridges l_lowerbridges : list ndarray) (blocksize : Z)
    (HP : 2 <= Get_size comm) (Hrank : 0 <= Get_rank comm < Get_size comm) :
  (forall l_M middle_process, get_nextprocess_matrixmap l_M middle_process = PyNone) /\
  (forall i, py_getitem PyNone i = Raise TypeError) /\
  (forall l_C l_M Bu_mid Bl_mid J middle_process,
      exists e, update_crossmap comm g l_C l_M Bu_mid Bl_mid J middle_process blocksize
                = Raise e) /\
  (forall l_C l_M Bu_mid Bl_mid J middle_process,
      (8 <= length l_M)%nat ->
      update_crossmap comm g l_C l_M Bu_mid Bl_mid J middle_process blocksize
      = Raise TypeError) /\
  (forall l_M l' l_C Bu_mid Bl_mid J,
      (8 <= length l_M)%nat -> (8 <= length l')%nat ->
      update_crossmap_upper globals_imported l_M (PyList l') l_C Bu_mid J
      = Raise NameError /\
      update_crossmap_middle globals_imported l_M (PyList l') l_C Bu_mid Bl_mid J
      = Raise NameError /\
      update_crossmap_lower globals_imported l_M (PyList l') l_C Bl_mid J
      = Raise NameError) /\
  (forall l_M l_C current_step,
      never_returns (update_maps comm g l_M l_C K_local l_upperbridges l_lowerbridges
                       current_step blocksize)) /\
  never_returns (pdiv_localmap comm g K_local l_upperbridges l_lowerbridges blocksize) /\
  (forall comm1 K_inv t,
      Get_size comm1 = 1 -> 0 <= blocksize -> np_linalg_inv K_local = Ret K_inv ->
      pdiv_localmap comm1 g K_local l_upperbridges l_lowerbridges blocksize t
      = (Ret (K_inv, l_upperbridges, l_lowerbridges), t ++ [EvInv])).
Proof.
  split; [reflexivity |]. split; [reflexivity |].
  split; [intros; apply update_crossmap_raises |].
  split; [intros; apply update_crossmap_TypeError; assumption |].
  split; [intros; apply update_crossmap_rules_NameError; [reflexivity | assumption ..] |].
  split; [intros; apply update_maps_never_returns; assumption |].
  split; [apply pdiv_localmap_never_returns; assumption |].
  intros comm1 K_inv t H1 Hbs Hinv.
  rewrite pdiv_localmap_one_worker by assumption.
  unfold bind, invert_partition, linalg_inv. rewrite Hinv. reflexivity.
Qed.

Lemma crossmap_update_always_raises_witness :
  2 <= Get_size (comm_world 2 0 (blk float64 2) 1) /\
  0 <= Get_rank (comm_world 2 0 (blk float64 2) 1)
    < Get_size (comm_world 2 0 (blk float64 2) 1) /\
  never_returns (pdiv_localmap (comm_world 2 0 (blk float64 2) 1) globals_imported
                   (blk float64 2) [blk float64 1] [blk float64 1] 1).
Proof.
  split; [simpl; lia |]. split; [simpl; lia |].
  apply (crossmap_update_always_raises (comm_world 2 0 (blk float64 2) 1)
           globals_imported (blk float64 2) [blk float64 1] [blk float64 1] 1);
    simpl; lia.
Defined.

(* ===================================================================== *)
(** * The slots the update rules write *)
(* ===================================================================== *)

Lemma list_setitem_Ret {A} (l : list A) i x l' :
  0 <= i -> list_setitem l i x = Ret l' ->
  (Z.to_nat i < length l)%nat /\ l' = <[Z.to_nat i := x]> l.
Proof.
  unfold list_setitem. intros Hi H. obind_inv H.
  apply list_index_Ret in E as [-> Hlt]; [| exact Hi].
  injection H as <-. split; [exact Hlt | reflexivity].
Qed.

Lemma slot_iadd_Ret l i rhs l' :
  0 <= i -> slot_iadd l i rhs = Ret l' ->
  exists a x a', l !! Z.to_nat i = Some a /\ rhs = Ret x /\ np_iadd a x = Ret a' /\
                 l' = <[Z.to_nat i := a']> l.
Proof.
  unfold slot_iadd. intros Hi H. do 3 obind_inv H.
  apply list_getitem_Ret in E; [| exact Hi].
  apply list_setitem_Ret in H as [_ ->]; [| exact Hi].
  eauto 10.
Qed.

Lemma slot_set_Ret l i rhs l' :
  0 <= i -> slot_set l i rhs = Ret l' ->
  exists x, rhs = Ret x /\ (Z.to_nat i < length l)%nat /\ l' = <[Z.to_nat i := x]> l.
Proof.
  unfold slot_set. intros Hi H. obind_inv H.
  apply list_setitem_Ret in H as [Hlt ->]; [| exact Hi].
  eauto.
Qed.

(** Evaluate the literal slot numbers. *)
Ltac norm_idx :=
  repeat match goal with
         | |- context [Z.to_nat ?z] =>
             let n := eval vm_compute in (Z.to_nat z) in
             change (Z.to_nat z) with n
         | H : context [Z.to_nat ?z] |- _ =>
             let n := eval vm_compute in (Z.to_nat z) in
             change (Z.to_nat z) with n in H
         end.

(** Take a successful run of a rule apart, statement by statement. *)
Ltac split_rule H :=
  repeat obind_inv H;
  repeat match goal with
         | E : slot_iadd _ _ _ = Ret _ |- _ =>
             apply slot_iadd_Ret in E; [| lia];
             destruct E as (? & ? & ? & ? & ? & ? & ?)
         | E : slot_set _ _ _ = Ret _ |- _ =>
             apply slot_set_Ret in E; [| lia];
             destruct E as (? & ? & ? & ?)
         end;
  norm_idx.

(** Read a slot through the assignments to the other slots. *)
Ltac lookup_ne :=
  repeat match goal with
         | H : context [<[?i:=_]> _ !! ?j] |- _ =>
             rewrite (list_lookup_insert_ne _ i j) in H by (clear; lia)
         | |- context [<[?i:=_]> _ !! ?j] =>
             rewrite (list_lookup_insert_ne _ i j) by (clear; lia)
         end.

(** One expression evaluated twice has one value. *)
Ltac same_value :=
  repeat match goal with
         | H1 : ?e = Ret ?a, H2 : ?e = Ret ?b |- _ =>
             assert (b = a) by congruence; subst b; clear H2
         end.

Ltac lookup_eq :=
  apply list_lookup_insert_eq; repeat rewrite length_insert;
  eapply lookup_lt_Some; eassumption.

(** C6. In [update_crossmap_lower] the right-hand sides added to slot 0 and
    to slot 1 are one and the same expression, [M5 @ Bl_mid @ J21 @ M1_ip1]:
    whenever the rule completes, both slots have been incremented by that
    value. *)
Theorem update_crossmap_lower_slots_0_1 (g : Globals) (l_M : list ndarray)
    (l_M_ip1 : pyobj) (l_C : list ndarray) (Bl_mid J : ndarray) (l_C' : list ndarray)
    (Hrun : update_crossmap_lower g l_M l_M_ip1 l_C Bl_mid J = Ret l_C') :
  exists M5 M1_ip1 blocksize,
    l_M.[4] = Ret M5 /\ py_getitem l_M_ip1 0 = Ret M1_ip1 /\
    global_blocksize g = Ret blocksize /\
    let J21 := np_getitem J blocksize (2 * blocksize) 0 blocksize in
    let increment := M5 @@ Bl_mid @@ J21 @@ M1_ip1 in
    incremented l_C l_C' 0 increment /\ incremented l_C l_C' 1 increment.
Proof.
  unfold update_crossmap_lower in Hrun. split_rule Hrun.
  injection Hrun as <-. subst. lookup_ne.
  do 3 eexists. split; [eassumption |]. split; [eassumption |].
  split; [eassumption |]. cbv zeta.
  same_value.
  split; unfold incremented; do 3 eexists;
    (split; [eassumption |]); (split; [eassumption |]);
    (split; [eassumption |]); lookup_ne; lookup_eq.
Qed.

Lemma update_crossmap_lower_slots_0_1_witness :
  exists l_C',
    update_crossmap_lower globals_one ex_l_M ex_l_M_ip1
      (map (blk float64) [0; 0; 0; 0; 0; 0; 0; 0]) (blk float64 1) ex_J
    = Ret l_C' /\
    exists M5 M1_ip1 blocksize,
      ex_l_M.[4] = Ret M5 /\ py_getitem ex_l_M_ip1 0 = Ret M1_ip1 /\
      global_blocksize globals_one = Ret blocksize /\
      let J21 := np_getitem ex_J blocksize (2 * blocksize) 0 blocksize in
      let increment := M5 @@ blk float64 1 @@ J21 @@ M1_ip1 in
      incremented (map (blk float64) [0; 0; 0; 0; 0; 0; 0; 0]) l_C' 0 increment /\
      incremented (map (blk float64) [0; 0; 0; 0; 0; 0; 0; 0]) l_C' 1 increment.
Proof.
  eexists. split; [vm_compute; reflexivity |].
  apply (update_crossmap_lower_slots_0_1 globals_one ex_l_M ex_l_M_ip1
           (map (blk float64) [0; 0; 0; 0; 0; 0; 0; 0]) (blk float64 1) ex_J).
  vm_compute. reflexivity.
Defined.

(** A slot the rule does not assign is as it was. *)
Ltac lookup_frame :=
  repeat match goal with
         | |- context [<[?i:=_]> _ !! ?j] =>
             rewrite (list_lookup_insert_ne _ i j) by lia
         end.

(** Each cross-map rule keeps the length of the list and every slot from 8 up. *)
Lemma crossmap_rule_frame l_C l_C' :
  crossmap_rule l_C l_C' ->
  length l_C' = length l_C /\
  forall k, (8 <= k)%nat -> l_C' !! k = l_C !! k.
Proof.
  intros [g l_M l_M_ip1 l_C0 Bu_mid J l_C0' Hrun
         | g l_M l_M_ip1 l_C0 Bu_mid Bl_mid J l_C0' Hrun
         | g l_M l_M_ip1 l_C0 Bl_mid J l_C0' Hrun];
    [unfold update_crossmap_upper in Hrun
    | unfold update_crossmap_middle in Hrun
    | unfold update_crossmap_lower in Hrun];
    split_rule Hrun; injection Hrun as <-; subst;
    (split; [repeat rewrite length_insert; reflexivity |]);
    intros k Hk; lookup_frame; reflexivity.
Qed.

Lemma initialize_crossmaps_Ret_nonneg K_local blocksize l_C :
  initialize_crossmaps K_local blocksize = Ret l_C -> 0 <= blocksize.
Proof.
  intros H. destruct (Z.ltb_spec blocksize 0) as [Hneg | Hpos]; [| exact Hpos].
  exfalso. unfold initialize_crossmaps in H.
  change (py_range 0 12 1) with (Ret [0; 1; 2; 3; 4; 5; 6; 7; 8; 9; 10; 11]) in H.
  cbn -[np_zeros] in H. unfold np_zeros in H.
  apply Z.ltb_lt in Hneg. rewrite Hneg in H. discriminate H.
Qed.

(** What [update_crossmap] does to the cross maps is an application of one
    of the three rules. *)
Lemma update_crossmap_applies_a_rule comm g l_C l_M Bu_mid Bl_mid J
    middle_process blocksize l_C' :
  update_crossmap comm g l_C l_M Bu_mid Bl_mid J middle_process blocksize = Ret l_C' ->
  crossmap_rule l_C l_C'.
Proof.
  unfold update_crossmap. destruct (_ <? _); [| destruct (_ =? _)]; intros H.
  - exact (rule_upper _ _ _ _ _ _ _ H).
  - exact (rule_middle _ _ _ _ _ _ _ _ H).
  - exact (rule_lower _ _ _ _ _ _ _ H).
Qed.

(** C8. Whatever cross maps a run holds (the seed of [initialize_crossmaps]
    followed by any applications of the three update rules), the list has
    twelve slots and slots 8 to 11 are zero blocks; and one more application
    of a rule leaves every slot from 8 up as it is: the rules write slots 0
    to 7 only. *)
Theorem crossmap_slots_8_to_11_stay_zero (K_local : ndarray) (blocksize : Z)
    (l_C : list ndarray) (Hrun : crossmap_run K_local blocksize l_C) :
  length l_C = 12%nat /\
  (forall k, (8 <= k < 12)%nat ->
     exists B, l_C !! k = Some B /\
               is_zero_block (Z.to_nat blocksize) (dtype K_local) B) /\
  (forall l_C', crossmap_rule l_C l_C' ->
     length l_C' = 12%nat /\ forall k, (8 <= k)%nat -> l_C' !! k = l_C !! k).
Proof.
  assert (Hinv : length l_C = 12%nat /\
                 forall k, (8 <= k < 12)%nat ->
                   exists B, l_C !! k = Some B /\
                             is_zero_block (Z.to_nat blocksize) (dtype K_local) B).
  { induction Hrun as [l_C Hseed | l_C l_C' Hrun [IHlen IHzero] Hrule].
    - pose proof (initialize_crossmaps_Ret_nonneg _ _ _ Hseed) as Hbs.
      rewrite (initialize_crossmaps_eq K_local blocksize Hbs) in Hseed.
      cbv zeta in Hseed. injection Hseed as <-.
      split; [reflexivity |].
      intros k Hk. eexists. split; [| apply zeros_is_zero_block].
      do 8 (destruct k as [| k]; [lia |]).
      do 4 (destruct k as [| k]; [reflexivity |]). lia.
    - destruct (crossmap_rule_frame _ _ Hrule) as [Hlen Hframe].
      split; [congruence |].
      intros k Hk. rewrite Hframe by lia. apply IHzero, Hk. }
  destruct Hinv as [Hlen Hzero].
  split; [exact Hlen |]. split; [exact Hzero |].
  intros l_C' Hrule. destruct (crossmap_rule_frame _ _ Hrule) as [Hlen' Hframe].
  split; [congruence | exact Hframe].
Qed.

Lemma crossmap_slots_8_to_11_stay_zero_witness :
  exists l_C,
    crossmap_run (blk float64 2) 1 l_C /\
    l_C !! 0%nat = Some (blk float64 114) /\
    length l_C = 12%nat /\
    (forall k, (8 <= k < 12)%nat ->
       exists B, l_C !! k = Some B /\
                 is_zero_block (Z.to_nat 1) (dtype (blk float64 2)) B) /\
    (forall l_C', crossmap_rule l_C l_C' ->
       length l_C' = 12%nat /\ forall k, (8 <= k)%nat -> l_C' !! k = l_C !! k).
Proof.
  assert (Hrun : exists l_C, crossmap_run (blk float64 2) 1 l_C /\
                             l_C !! 0%nat = Some (blk float64 114)).
  { eexists. split.
    - eapply run_step.
      + apply run_seed. vm_compute. reflexivity.
      + apply (rule_upper globals_one ex_l_M ex_l_M_ip1 _ (blk float64 1) ex_J).
        vm_compute. reflexivity.
    - reflexivity. }
  destruct Hrun as (l_C & Hrun & H0).
  exists l_C. split; [exact Hrun |]. split; [exact H0 |].
  exact (crossmap_slots_8_to_11_stay_zero (blk float64 2) 1 l_C Hrun).
Defined.

(* ===================================================================== *)
(** * The matrix-map rules update in place *)
(* ===================================================================== *)

Lemma list_getitem_insert_ne {A} (l : list A) k x i :
  0 <= i -> Z.to_nat i <> k ->
  list_getitem (<[k := x]> l) i = list_getitem l i.
Proof.
  intros Hi Hne. unfold list_getitem, list_index. rewrite length_insert.
  destruct (Z.ltb_spec i 0); [lia |].
  destruct (_ || _); [reflexivity |]. cbn [obind].
  rewrite list_lookup_insert_ne by congruence. reflexivity.
Qed.

(** Read a slot, as an expression, through assignments to other slots. *)
Ltac getitem_ne :=
  repeat match goal with
         | H : context [list_getitem (<[?k:=?x]> ?l) ?i] |- _ =>
             rewrite (list_getitem_insert_ne l k x i) in H by (clear; lia)
         | |- context [list_getitem (<[?k:=?x]> ?l) ?i] =>
             rewrite (list_getitem_insert_ne l k x i) by (clear; lia)
         end.

Ltac length_ins :=
  repeat match goal with
         | H : context [length (<[_:=_]> _)] |- _ => rewrite length_insert in H
         end.

Ltac slot_done :=
  lookup_ne; apply list_lookup_insert_eq; repeat rewrite length_insert;
  first [assumption | eapply lookup_lt_Some; eassumption].

Ltac solve_assigned :=
  unfold assigned; eexists; getitem_ne; (split; [eassumption | slot_done]).

Ltac solve_incremented :=
  unfold incremented; do 3 eexists; getitem_ne;
  (split; [eassumption |]); (split; [eassumption |]); (split; [eassumption |]);
  slot_done.

(** C5. The matrix-map rules use values they have themselves just written.
    In [update_matrixmap_upper], slots 2, 3, 6 and 7 are assigned from the
    values before the call, and the increments of slots 4, 5, 8, 9, 10 and 11
    are computed from the values of slots 2, 3, 6 and 7 after the call.  In
    [update_matrixmap_lower], slot 4 is assigned from the old slot 5 and slot
    5 from the new slot 4.  There are inputs on which each rule differs from
    its two-phase variant, which reads only the values before the call. *)
Theorem matrixmap_rules_read_new_values :
  (forall l_M UUR DUR ULL DLL Bu_mid Bl_mid J11 J12 J22 l_M',
      update_matrixmap_upper l_M UUR DUR ULL DLL Bu_mid Bl_mid J11 J12 J22 = Ret l_M' ->
      assigned l_M' 2 (l_M.[2] @@ Bu_mid @@ J11 @@ DUR) /\
      assigned l_M' 3 (l_M.[3] @@ Bu_mid @@ J11 @@ DUR) /\
      assigned l_M' 6 (DLL @@ Bl_mid @@ J22 @@ l_M.[6]) /\
      assigned l_M' 7 (DLL @@ Bl_mid @@ J22 @@ l_M.[7]) /\
      incremented l_M l_M' 4 (l_M'.[2] @@ Bu_mid @@ J12 @@ ULL) /\
      incremented l_M l_M' 5 (l_M'.[3] @@ Bu_mid @@ J12 @@ ULL) /\
      incremented l_M l_M' 8 (l_M'.[2] @@ Bu_mid @@ J12 @@ l_M'.[6]) /\
      incremented l_M l_M' 9 (l_M'.[2] @@ Bu_mid @@ J12 @@ l_M'.[7]) /\
      incremented l_M l_M' 10 (l_M'.[3] @@ Bu_mid @@ J12 @@ l_M'.[6]) /\
      incremented l_M l_M' 11 (l_M'.[3] @@ Bu_mid @@ J12 @@ l_M'.[7])) /\
  (forall l_M UUR DUR ULL DLL Bu_mid Bl_mid J11 J21 J22 l_M',
      update_matrixmap_lower l_M UUR DUR ULL DLL Bu_mid Bl_mid J11 J21 J22 = Ret l_M' ->
      assigned l_M' 4 (l_M.[5] @@ Bl_mid @@ J22 @@ ULL) /\
      assigned l_M' 5 (l_M'.[4] @@ Bl_mid @@ J22 @@ ULL)) /\
  (exists l_M UUR DUR ULL DLL Bu_mid Bl_mid J11 J12 J22,
      update_matrixmap_upper l_M UUR DUR ULL DLL Bu_mid Bl_mid J11 J12 J22
      <> update_matrixmap_upper_snapshot l_M UUR DUR ULL DLL Bu_mid Bl_mid J11 J12 J22) /\
  (exists l_M UUR DUR ULL DLL Bu_mid Bl_mid J11 J21 J22,
      update_matrixmap_lower l_M UUR DUR ULL DLL Bu_mid Bl_mid J11 J21 J22
      <> update_matrixmap_lower_snapshot l_M UUR DUR ULL DLL Bu_mid Bl_mid J11 J21 J22).
Proof.
  split; [| split; [| split]].
  - intros l_M UUR DUR ULL DLL Bu_mid Bl_mid J11 J12 J22 l_M' Hrun.
    unfold update_matrixmap_upper in Hrun. split_rule Hrun.
    injection Hrun as <-. subst. lookup_ne. length_ins. getitem_ne.
    repeat split; first [solve_assigned | solve_incremented].
  - intros l_M UUR DUR ULL DLL Bu_mid Bl_mid J11 J21 J22 l_M' Hrun.
    unfold update_matrixmap_lower in Hrun. split_rule Hrun.
    injection Hrun as <-. subst. lookup_ne. length_ins. getitem_ne.
    repeat split; first [solve_assigned | solve_incremented].
  - exists ex_l_M, (blk float64 2), (blk float64 3), (blk float64 5), (blk float64 7),
      (blk float64 1), (blk float64 1), (blk float64 1), (blk float64 1), (blk float64 1).
    vm_compute. congruence.
  - exists ex_l_M, (blk float64 2), (blk float64 3), (blk float64 5), (blk float64 7),
      (blk float64 1), (blk float64 1), (blk float64 1), (blk float64 1), (blk float64 1).
    vm_compute. congruence.
Qed.

Lemma matrixmap_rules_read_new_values_witness :
  exists l_Mu l_Ml,
    update_matrixmap_upper ex_l_M (blk float64 2) (blk float64 3) (blk float64 5)
      (blk float64 7) (blk float64 1) (blk float64 1) (blk float64 1) (blk float64 1)
      (blk float64 1) = Ret l_Mu /\
    update_matrixmap_lower ex_l_M (blk float64 2) (blk float64 3) (blk float64 5)
      (blk float64 7) (blk float64 1) (blk float64 1) (blk float64 1) (blk float64 1)
      (blk float64 1) = Ret l_Ml /\
    incremented ex_l_M l_Mu 4 (l_Mu.[2] @@ blk float64 1 @@ blk float64 1 @@ blk float64 5) /\
    assigned l_Ml 5 (l_Ml.[4] @@ blk float64 1 @@ blk float64 1 @@ blk float64 5).
Proof.
  destruct matrixmap_rules_read_new_values as (Hup & Hlow & _ & _).
  eexists. eexists.
  split; [vm_compute; reflexivity |]. split; [vm_compute; reflexivity |].
  split.
  - apply (Hup ex_l_M (blk float64 2) (blk float64 3) (blk float64 5)
             (blk float64 7) (blk float64 1) (blk float64 1) (blk float64 1)
             (blk float64 1) (blk float64 1)).
    vm_compute. reflexivity.
  - apply (Hlow ex_l_M (blk float64 2) (blk float64 3) (blk float64 5)
             (blk float64 7) (blk float64 1) (blk float64 1) (blk float64 1)
             (blk float64 1) (blk float64 1)).
    vm_compute. reflexivity.
Defined.

(* ===================================================================== *)
(** * The coupling matrix of [get_J] *)
(* ===================================================================== *)

Lemma slice_range_first bs :
  0 <= bs -> slice_range (Z.to_nat (2 * bs)) 0 bs = (0%nat, Z.to_nat bs).
Proof.
  intros H. unfold slice_range, slice_bound.
  rewrite Z2Nat.id by lia.
  destruct (Z.ltb_spec bs 0); [lia |]. simpl (0 <? 0).  cbn iota.
  rewrite Z.min_l by lia. rewrite (Z.min_l bs) by lia.
  rewrite Z.sub_0_r. reflexivity.
Qed.

Lemma slice_range_second bs :
  0 <= bs -> slice_range (Z.to_nat (2 * bs)) bs (2 * bs) = (Z.to_nat bs, Z.to_nat bs).
Proof.
  intros H. unfold slice_range, slice_bound.
  rewrite Z2Nat.id by lia.
  destruct (Z.ltb_spec bs 0); [lia |].
  destruct (Z.ltb_spec (2 * bs) 0); [lia |].
  rewrite (Z.min_l bs) by lia. rewrite Z.min_id.
  f_equal. f_equal. lia.
Qed.

Lemma list_getitem_Some {A} (l : list A) i x :
  l !! Z.to_nat i = Some x -> 0 <= i -> list_getitem l i = Ret x.
Proof.
  intros H Hi. pose proof (lookup_lt_Some _ _ _ H) as Hlt.
  unfold list_getitem, list_index.
  destruct (Z.ltb_spec i 0); [lia |].
  destruct (Z.ltb_spec i 0); [lia |].
  destruct (Z.leb_spec (Z.of_nat (length l)) i); [lia |].
  cbn [orb obind]. rewrite H. reflexivity.
Qed.

Lemma bidx_lt n i : (i < n)%nat -> bidx n i = i.
Proof.
  unfold bidx. intros H. destruct (Nat.eqb_spec n 1); [lia | reflexivity].
Qed.

(** What [A[rs:rs+rl, cs:cs+cl] = V] stores, entry by entry, for a value of
    the shape of the slice. *)
Lemma np_setitem_entry A r0 r1 c0' c1' V A' rs rl cs cl :
  slice_range (nrows A) r0 r1 = (rs, rl) ->
  slice_range (ncols A) c0' c1' = (cs, cl) ->
  nrows V = rl -> ncols V = cl ->
  np_setitem A r0 r1 c0' c1' V = Ret A' ->
  A' = tabulate (dtype A) (nrows A) (ncols A)
         (fun i j =>
            if (rs <=? i)%nat && (i <? rs + rl)%nat
               && (cs <=? j)%nat && (j <? cs + cl)%nat
            then cast_to (dtype A) (entry V (i - rs) (j - cs))
            else entry A i j).
Proof.
  intros Hr Hc HVr HVc H. unfold np_setitem in H. rewrite Hr, Hc in H.
  unfold broadcast_to in H. rewrite HVr, HVc in H.
  rewrite !Nat.eqb_refl in H. simpl in H. injection H as <-.
  apply tabulate_ext. intros i j Hi Hj.
  destruct (_ && _) eqn:E; [| reflexivity].
  apply andb_prop in E as [E E4]. apply andb_prop in E as [E E3].
  apply andb_prop in E as [E1 E2].
  apply Nat.leb_le in E1, E3. apply Nat.ltb_lt in E2, E4.
  rewrite !bidx_lt by lia. reflexivity.
Qed.

Lemma matmul_shape A B V :
  matmul A B = Ret V ->
  nrows V = nrows A /\ ncols V = ncols B /\ dtype V = promote (dtype A) (dtype B).
Proof.
  unfold matmul. destruct (Nat.eqb _ _); [| discriminate].
  intros H. injection H as <-. auto.
Qed.

Lemma cast_to_c1 dt : cast_to dt c1 = c1.
Proof. destruct dt; reflexivity. Qed.

Lemma cast_to_c0 dt : cast_to dt c0 = c0.
Proof. destruct dt; reflexivity. Qed.

Ltac decide_bounds :=
  repeat match goal with
         | |- context [(?a <=? ?b)%nat] => destruct (Nat.leb_spec a b); try lia
         | |- context [(?a <? ?b)%nat] => destruct (Nat.ltb_spec a b); try lia
         end;
  cbn [andb].

(** Read an entry of an array built by successive block assignments. *)
Ltac block_entry := repeat (rewrite entry_tabulate by lia; decide_bounds).

(** The matrix assembled by [get_J], block by block. *)
Lemma get_J_assemble_blocks l_U Bu_mid Bl_mid blocksize ULR DUL Jc :
  l_U !! 2%nat = Some ULR -> l_U !! 3%nat = Some DUL ->
  nrows DUL = Z.to_nat blocksize -> ncols Bl_mid = Z.to_nat blocksize ->
  nrows ULR = Z.to_nat blocksize -> ncols Bu_mid = Z.to_nat blocksize ->
  get_J_assemble l_U Bu_mid Bl_mid blocksize = Ret Jc ->
  dtype Jc = dtype Bu_mid /\
  nrows Jc = Z.to_nat (2 * blocksize) /\ ncols Jc = Z.to_nat (2 * blocksize) /\
  coupling_blocks_from DUL ULR Bu_mid Bl_mid blocksize Jc.
Proof.
  intros HULR HDUL Hd Hbl Hu Hbu H.
  unfold get_J_assemble in H.
  obind_inv H. rename v into J0, E into EJ0.
  assert (Hbs : 0 <= blocksize).
  { unfold np_zeros in EJ0. destruct (Z.ltb_spec (2 * blocksize) 0); [discriminate | lia]. }
  rewrite np_zeros_Ret in EJ0 by lia. injection EJ0 as EJ0.
  rewrite np_identity_Ret in H by lia. cbn [obind] in H.
  obind_inv H. rename v into J1, E into EJ1.
  obind_inv H. rename v into V12, E into EV12.
  obind_inv H. rename v into J2, E into EJ2.
  obind_inv H. rename v into V21, E into EV21.
  obind_inv H. rename v into J3, E into EJ3.
  obind_inv H. rename v into J4, E into EJ4.
  injection H as <-.
  set (n := Z.to_nat blocksize) in *.
  assert (HN : Z.to_nat (2 * blocksize) = (n + n)%nat) by (subst n; lia).
  rewrite (list_getitem_Some _ 3 _ HDUL) in EV12 by lia.
  rewrite (list_getitem_Some _ 2 _ HULR) in EV21 by lia.
  cbn [oneg omatmul obind ret_nd] in EV12, EV21.
  destruct (matmul_shape _ _ _ EV12) as (HV12r & HV12c & _).
  destruct (matmul_shape _ _ _ EV21) as (HV21r & HV21c & _).
  cbn [np_neg tabulate nrows] in HV12r, HV21r.
  subst J0.
  eapply np_setitem_entry in EJ1;
    [| apply slice_range_first, Hbs | apply slice_range_first, Hbs
     | reflexivity | reflexivity].
  cbn [dtype nrows ncols tabulate] in EJ1. subst J1.
  eapply np_setitem_entry in EJ2;
    [| apply slice_range_first, Hbs | apply slice_range_second, Hbs
     | rewrite HV12r; exact Hd | rewrite HV12c; exact Hbl].
  cbn [dtype nrows ncols tabulate] in EJ2. subst J2.
  eapply np_setitem_entry in EJ3;
    [| apply slice_range_second, Hbs | apply slice_range_first, Hbs
     | rewrite HV21r; exact Hu | rewrite HV21c; exact Hbu].
  cbn [dtype nrows ncols tabulate] in EJ3. subst J3.
  eapply np_setitem_entry in EJ4;
    [| apply slice_range_second, Hbs | apply slice_range_second, Hbs
     | reflexivity | reflexivity].
  cbn [dtype nrows ncols tabulate] in EJ4. subst J4.
  fold n. rewrite HN.
  split; [reflexivity |]. split; [reflexivity |]. split; [reflexivity |].
  unfold coupling_blocks_from. exists V12, V21.
  cbn [oneg omatmul obind ret_nd].
  split; [exact EV12 |]. split; [exact EV21 |].
  unfold np_getitem, np_astype.
  cbn [dtype nrows ncols tabulate].
  rewrite <- HN, !(slice_range_first _ Hbs), !(slice_range_second _ Hbs), HN.
  fold n. rewrite HV12r, HV12c, HV21r, HV21c, Hd, Hbl, Hu, Hbu.
  split; [| split; [| split]].
  - apply tabulate_ext. intros i j Hi Hj. block_entry.
    replace (0 + i - 0)%nat with i by lia.
    replace (n + j - n)%nat with j by lia. reflexivity.
  - apply tabulate_ext. intros i j Hi Hj. block_entry.
    replace (n + i - n)%nat with i by lia.
    replace (0 + j - 0)%nat with j by lia. reflexivity.
  - split; [apply tabulate_is_block |].
    intros i j Hi Hj. block_entry.
    replace (0 + i - 0)%nat with i by lia.
    replace (0 + j - 0)%nat with j by lia.
    destruct (i =? j)%nat; [apply cast_to_c1 | apply cast_to_c0].
  - split; [apply tabulate_is_block |].
    intros i j Hi Hj. block_entry.
    replace (n + i - n)%nat with i by lia.
    replace (n + j - n)%nat with j by lia.
    destruct (i =? j)%nat; [apply cast_to_c1 | apply cast_to_c0].
Qed.

(** C3 (as the code has it). Whenever [get_J] returns [J] for boundary
    blocks and bridges of the block size, [J] is [np.linalg.inv] of the
    2 blocksize x 2 blocksize matrix with identity blocks on the diagonal,
    upper-right block [-DUL @ Bl_mid] and lower-left block [-ULR @ Bu_mid],
    where [DUL = l_U[3]] and [ULR = l_U[2]]: the corner blocks next to the
    bridge, not [ULL] and [DUR]. The inversion is the only event. *)
Theorem get_J_coupling_matrix (l_U : list ndarray) (Bu_mid Bl_mid : ndarray)
    (blocksize : Z) (ULR DUL : ndarray) (t : trace) (J : ndarray) (t' : trace)
    (HULR : l_U !! 2%nat = Some ULR) (HDUL : l_U !! 3%nat = Some DUL)
    (HDULr : nrows DUL = Z.to_nat blocksize) (HBlc : ncols Bl_mid = Z.to_nat blocksize)
    (HULRr : nrows ULR = Z.to_nat blocksize) (HBuc : ncols Bu_mid = Z.to_nat blocksize)
    (Hrun : get_J l_U Bu_mid Bl_mid blocksize t = (Ret J, t')) :
  exists Jc,
    get_J_assemble l_U Bu_mid Bl_mid blocksize = Ret Jc /\
    dtype Jc = dtype Bu_mid /\
    nrows Jc = Z.to_nat (2 * blocksize) /\ ncols Jc = Z.to_nat (2 * blocksize) /\
    coupling_blocks_from DUL ULR Bu_mid Bl_mid blocksize Jc /\
    np_linalg_inv Jc = Ret J /\
    t' = t ++ [EvInv].
Proof.
  unfold get_J in Hrun.
  apply bind_Ret_inv in Hrun as (Jc & t1 & HJc & Hinv).
  unfold lift in HJc. injection HJc as HJc <-.
  unfold linalg_inv in Hinv. injection Hinv as Hinv <-.
  exists Jc. split; [exact HJc |].
  destruct (get_J_assemble_blocks l_U Bu_mid Bl_mid blocksize ULR DUL Jc
              HULR HDUL HDULr HBlc HULRr HBuc HJc) as (Hdt & Hnr & Hnc & Hblocks).
  repeat (split; [assumption |]). reflexivity.
Qed.

Lemma get_J_coupling_matrix_witness :
  exists J,
    get_J ex_l_U (blk float64 1) (blk float64 1) 1 [] = (Ret J, [EvInv]) /\
    exists Jc,
      get_J_assemble ex_l_U (blk float64 1) (blk float64 1) 1 = Ret Jc /\
      dtype Jc = dtype (blk float64 1) /\
      nrows Jc = Z.to_nat (2 * 1) /\ ncols Jc = Z.to_nat (2 * 1) /\
      coupling_blocks_from (blk float64 7) (blk float64 5)
        (blk float64 1) (blk float64 1) 1 Jc /\
      np_linalg_inv Jc = Ret J /\
      [EvInv] = [] ++ [EvInv].
Proof.
  eexists. split; [vm_compute; reflexivity |].
  apply (get_J_coupling_matrix ex_l_U (blk float64 1) (blk float64 1) 1
           (blk float64 5) (blk float64 7) []);
    [reflexivity | reflexivity | reflexivity | reflexivity | reflexivity
    | reflexivity | vm_compute; reflexivity].
Defined.

(** C3 as stated fails: for the blocks [ex_l_U], where [ULL = l_U[1]] is
    [[3]] and [DUR = l_U[4]] is [[11]], the matrix that [get_J] inverts has
    upper-right block [[-7]] and lower-left block [[-5]]; it is not built
    from [ULL] and [DUR]. *)
Lemma get_J_not_from_ULL_DUR :
  ex_l_U !! 1%nat = Some (blk float64 3) /\
  ex_l_U !! 4%nat = Some (blk float64 11) /\
  exists Jc J,
    get_J_assemble ex_l_U (blk float64 1) (blk float64 1) 1 = Ret Jc /\
    Jc = of_rows float64 [[q 1; q (-7)]; [q (-5); q 1]] /\
    get_J ex_l_U (blk float64 1) (blk float64 1) 1 [] = (Ret J, [EvInv]) /\
    np_linalg_inv Jc = Ret J /\
    ~ coupling_blocks_from (blk float64 3) (blk float64 11)
        (blk float64 1) (blk float64 1) 1 Jc.
Proof.
  split; [reflexivity |]. split; [reflexivity |].
  eexists. eexists.
  split; [vm_compute; reflexivity |]. split; [vm_compute; reflexivity |].
  split; [vm_compute; reflexivity |]. split; [vm_compute; reflexivity |].
  intros (V12 & V21 & H12 & _ & Hblock & _).
  vm_compute in H12. injection H12 as <-.
  vm_compute in Hblock. discriminate Hblock.
Qed.

(* ===================================================================== *)
(** * Validation of the process count *)
(* ===================================================================== *)

Lemma power_of_two_log2 n : n = 2 ^ Z.log2 n <-> is_power_of_two n.
Proof.
  split.
  - intros H. exists (Z.log2 n). split; [apply Z.log2_nonneg | exact H].
  - intros (k & Hk & ->). rewrite Z.log2_pow2 by exact Hk. reflexivity.
Qed.

Lemma three_not_power_of_two : ~ is_power_of_two 3.
Proof. intros H. apply power_of_two_log2 in H. discriminate H. Qed.

Lemma appends_ret {A} (a : A) : appends (ret a).
Proof. intros t o t' H. injection H as _ <-. exists []. symmetry. apply app_nil_r. Qed.

Lemma appends_lift {A} (o : outcome A) : appends (lift o).
Proof. intros t o' t' H. injection H as _ <-. exists []. symmetry. apply app_nil_r. Qed.

Lemma appends_bind {A B} (m : M A) (k : A -> M B) :
  appends m -> (forall a, appends (k a)) -> appends (bind m k).
Proof.
  intros Hm Hk t o t' H. unfold bind in H.
  destruct (m t) as [[a | e |] t1] eqn:E; destruct (Hm _ _ _ E) as [r1 ->].
  - destruct (Hk _ _ _ _ H) as [r2 ->]. exists (r1 ++ r2). symmetry. apply app_assoc.
  - injection H as _ <-. eauto.
  - injection H as _ <-. eauto.
Qed.

Lemma appends_send comm obj dest tag : appends (comm_send comm obj dest tag).
Proof. intros t o t' H. injection H as _ <-. eauto. Qed.

Lemma appends_recv comm source tag : appends (comm_recv comm source tag).
Proof. intros t o t' H. injection H as _ <-. eauto. Qed.

Lemma appends_print : appends print.
Proof. intros t o t' H. injection H as _ <-. eauto. Qed.

Lemma appends_linalg_inv A : appends (linalg_inv A).
Proof. intros t o t' H. injection H as _ <-. eauto. Qed.

Lemma appends_for_each {S} (xs : list Z) (body : Z -> S -> M S) :
  (forall x s, appends (body x s)) -> forall s, appends (for_each xs body s).
Proof.
  intros Hbody. induction xs as [| x xs IH]; intros s; simpl.
  - apply appends_ret.
  - apply appends_bind; [apply Hbody | exact IH].
Qed.

(** Every statement of the module only adds events. *)
Ltac appends_tac :=
  repeat first
    [ apply appends_ret | apply appends_lift | apply appends_send
    | apply appends_recv | apply appends_print | apply appends_linalg_inv
    | apply appends_bind; [| intros ?]
    | apply appends_for_each; intros ? ?
    | match goal with
      | |- appends (if ?c then _ else _) => destruct c
      | |- appends (let '(_, _) := ?x in _) => destruct x
      end ].

Lemma appends_get_U comm K_local l_M s m e blocksize :
  appends (get_U comm K_local l_M s m e blocksize).
Proof. unfold get_U, send3. appends_tac. Qed.

Lemma appends_get_J l_U Bu_mid Bl_mid blocksize :
  appends (get_J l_U Bu_mid Bl_mid blocksize).
Proof. unfold get_J. appends_tac. Qed.

Lemma appends_update_maps comm g l_M l_C K_local ub lb current_step blocksize :
  appends (update_maps comm g l_M l_C K_local ub lb current_step blocksize).
Proof.
  unfold update_maps, update_maps_body.
  appends_tac; first [apply appends_get_U | apply appends_get_J].
Qed.

(** [pdiv_localmap] starts by inverting the partition, whatever the
    process count. *)
Lemma pdiv_localmap_inverts_first comm g K_local ub lb blocksize t :
  exists o rest,
    pdiv_localmap comm g K_local ub lb blocksize t = (o, t ++ EvInv :: rest).
Proof.
  destruct (pdiv_localmap comm g K_local ub lb blocksize t) as [o t'] eqn:Hrun.
  exists o. unfold pdiv_localmap, bind at 1, invert_partition, linalg_inv in Hrun.
  destruct (np_linalg_inv K_local) as [K_inv | e |].
  - assert (Hk : appends
                   (l_M <~ lift (initialize_matrixmaps K_inv blocksize);;
                    l_C <~ lift (initialize_crossmaps K_inv blocksize);;
                    n_reduction_steps <~ lift (int_log2 (Get_size comm));;
                    steps <~ lift (py_range 1 (n_reduction_steps + 1) 1);;
                    _ <~ for_each steps
                           (fun current_step maps =>
                              update_maps comm g (fst maps) (snd maps) K_inv
                                ub lb current_step blocksize)
                           (l_M, l_C);;
                    ret (K_inv, ub, lb))).
    { do 4 (apply appends_bind; [apply appends_lift | intros ?]).
      apply appends_bind; [| intros ?; apply appends_ret].
      apply appends_for_each. intros current_step maps.
      apply appends_update_maps. }
    destruct (Hk _ _ _ Hrun) as [rest ->].
    exists rest. rewrite <- app_assoc. reflexivity.
  - injection Hrun as _ <-. exists []. reflexivity.
  - injection Hrun as _ <-. exists []. reflexivity.
Qed.

(** C4 (as the code has it). When the process count is not a power of two,
    [pdiv] of [pdiv_parallel.py] raises [ValueError] before anything else
    happens: no inversion, no message, no output.  [pdiv_localmap] has no
    such check: whatever the process count, its first act is the inversion
    of the local partition. *)
Theorem process_count_validation (comm : Comm)
    (Hsize : ~ is_power_of_two (Get_size comm)) :
  (forall A blocksize, rejected_before_work (PdivParallel.pdiv comm A blocksize)) /\
  (forall g K_local l_upperbridges l_lowerbridges blocksize t,
      exists o rest,
        pdiv_localmap comm g K_local l_upperbridges l_lowerbridges blocksize t
        = (o, t ++ EvInv :: rest)).
Proof.
  split.
  - intros A blocksize t. unfold PdivParallel.pdiv, bind, lift, log2_is_integer.
    destruct (Z.leb_spec (Get_size comm) 0); [reflexivity |].
    destruct (Z.eqb_spec (Get_size comm) (2 ^ Z.log2 (Get_size comm))) as [E | E].
    + exfalso. apply Hsize, power_of_two_log2, E.
    + reflexivity.
  - intros. apply pdiv_localmap_inverts_first.
Qed.

Lemma process_count_validation_witness :
  ~ is_power_of_two (Get_size (comm_world 3 0 (blk float64 2) 1)) /\
  PdivParallel.pdiv (comm_world 3 0 (blk float64 2) 1) (blk float64 2) 1 []
  = (Raise ValueError, []).
Proof.
  split; [exact three_not_power_of_two |].
  destruct (process_count_validation (comm_world 3 0 (blk float64 2) 1)
              three_not_power_of_two) as [Hpdiv _].
  apply Hpdiv.
Defined.

(** C4 as stated fails for [pdiv_localmap]: with three workers, rank 0
    inverts its partition, sends its three boundary blocks to rank 1,
    receives three, inverts the coupling matrix and only then stops, with
    the [TypeError] of the cross-map update, not a configuration error. *)
Lemma pdiv_localmap_three_workers_not_rejected :
  let comm := comm_world 3 0 (blk float64 2) 1 in
  let K_inv := of_rows float64 [[Cplx (1 # 2) 0]] in
  Get_size comm = 3 /\
  pdiv_localmap comm globals_imported (blk float64 2)
    [blk float64 1; blk float64 1] [blk float64 1; blk float64 1] 1 []
  = (Raise TypeError,
     [EvInv; EvSend K_inv 1 0; EvSend K_inv 1 1; EvSend K_inv 1 2;
      EvRecv 1 3; EvRecv 1 4; EvRecv 1 5; EvInv]) /\
  ~ rejected_before_work
      (pdiv_localmap comm globals_imported (blk float64 2)
         [blk float64 1; blk float64 1] [blk float64 1; blk float64 1] 1).
Proof.
  intros comm K_inv. split; [reflexivity |].
  assert (Hrun : pdiv_localmap comm globals_imported (blk float64 2)
                   [blk float64 1; blk float64 1] [blk float64 1; blk float64 1] 1 []
                 = (Raise TypeError,
                    [EvInv; EvSend K_inv 1 0; EvSend K_inv 1 1; EvSend K_inv 1 2;
                     EvRecv 1 3; EvRecv 1 4; EvRecv 1 5; EvInv]))
    by (vm_compute; reflexivity).
  split; [exact Hrun |].
  intros Hrej. specialize (Hrej []). rewrite Hrun in Hrej. discriminate Hrej.
Qed.

(* ===================================================================== *)
(** * The result of a run *)
(* ===================================================================== *)

(** Whenever [pdiv_localmap] returns, it returns the inverse of the local
    partition and the very bridge lists it was given. *)
Lemma pdiv_localmap_returns comm g K_local ub lb blocksize t K' ub' lb' t' :
  pdiv_localmap comm g K_local ub lb blocksize t = (Ret (K', ub', lb'), t') ->
  np_linalg_inv K_local = Ret K' /\ ub' = ub /\ lb' = lb.
Proof.
  intros H. unfold pdiv_localmap in H.
  apply bind_Ret_inv in H as (K_inv & t1 & Hinv & H).
  do 5 (apply bind_Ret_inv in H as (? & ? & _ & H)).
  unfold ret in H. injection H as <- <- <- _.
  unfold invert_partition, linalg_inv in Hinv. injection Hinv as Hinv _.
  auto.
Qed.

(** C1 (the code at a failing input). The matrix [[2, 1], [1, 2]], block
    size 1, two workers.  The diagonal blocks of its inverse are [[2/3]] and
    [[2/3]].  Neither rank returns them: each inverts its partition,
    exchanges the boundary blocks, inverts the coupling matrix and raises
    [TypeError] in the cross-map update, whether the module is imported or
    run as a script. *)
Theorem pdiv_localmap_two_workers_raises :
  let K_inv := of_rows float64 [[Cplx (1 # 2) 0]] in
  let trace0 := [EvInv; EvSend K_inv 1 0; EvSend K_inv 1 1; EvSend K_inv 1 2;
                 EvRecv 1 3; EvRecv 1 4; EvRecv 1 5; EvInv] in
  let trace1 := [EvInv; EvRecv 0 0; EvRecv 0 1; EvRecv 0 2;
                 EvSend K_inv 0 3; EvSend K_inv 0 4; EvSend K_inv 0 5; EvInv] in
  np_linalg_inv ex_A
  = Ret (of_rows float64 [[Cplx (2 # 3) 0; Cplx (-1 # 3) 0];
                          [Cplx (-1 # 3) 0; Cplx (2 # 3) 0]]) /\
  pdiv_localmap (comm_world 2 0 ex_K1 1) globals_imported ex_K0 [ex_Bu] [ex_Bl] 1 []
  = (Raise TypeError, trace0) /\
  pdiv_localmap (comm_world 2 1 ex_K0 1) globals_imported ex_K1 [ex_Bu] [ex_Bl] 1 []
  = (Raise TypeError, trace1) /\
  pdiv_localmap (comm_world 2 0 ex_K1 1) globals_script ex_K0 [ex_Bu] [ex_Bl] 1 []
  = (Raise TypeError, trace0) /\
  pdiv_localmap (comm_world 2 1 ex_K0 1) globals_script ex_K1 [ex_Bu] [ex_Bl] 1 []
  = (Raise TypeError, trace1).
Proof. repeat split; vm_compute; reflexivity. Qed.

(** C7 (the code at a failing input). With two workers, rank 0 holding the
    partition [[4]] and the bridges [[3]] and [[5]] gets nothing back: the
    run raises [TypeError].  With one worker, where the run does return,
    the bridge lists come back exactly as they were passed: nothing in the
    module writes to them. *)
Theorem pdiv_localmap_bridges_not_updated :
  pdiv_localmap (comm_world 2 0 (blk float64 4) 1) globals_imported
    (blk float64 4) [blk float64 3] [blk float64 5] 1 []
  = (Raise TypeError,
     [EvInv; EvSend (of_rows float64 [[Cplx (1 # 4) 0]]) 1 0;
      EvSend (of_rows float64 [[Cplx (1 # 4) 0]]) 1 1;
      EvSend (of_rows float64 [[Cplx (1 # 4) 0]]) 1 2;
      EvRecv 1 3; EvRecv 1 4; EvRecv 1 5; EvInv]) /\
  pdiv_localmap comm_single globals_imported
    (blk float64 4) [blk float64 3] [blk float64 5] 1 []
  = (Ret (of_rows float64 [[Cplx (1 # 4) 0]], [blk float64 3], [blk float64 5]),
     [EvInv]).
Proof. split; vm_compute; reflexivity. Qed.

(* ===================================================================== *)
(** * The reduction tree: groups and their middle *)
(* ===================================================================== *)

Lemma ceil_half_odd m : ceil_half (2 * m - 1) = m.
Proof.
  unfold ceil_half.
  replace (- (2 * m - 1)) with (1 + (- m) * 2) by lia.
  rewrite Z.div_add by lia. change (1 / 2) with 0. lia.
Qed.

Lemma pow2_split k : 1 <= k -> 2 ^ k = 2 * 2 ^ (k - 1).
Proof.
  intros H. replace k with (1 + (k - 1)) at 1 by lia.
  rewrite Z.pow_add_r by lia. reflexivity.
Qed.

Lemma get_middle_process_bounds s k :
  1 <= k ->
  s <= get_middle_process s (s + 2 ^ k - 1) /\
  get_middle_process s (s + 2 ^ k - 1) + 1 <= s + 2 ^ k - 1.
Proof.
  intros Hk. unfold get_middle_process.
  assert (Hp : 0 < 2 ^ (k - 1)) by (apply Z.pow_pos_nonneg; lia).
  rewrite (pow2_split k Hk).
  replace (s + 2 * 2 ^ (k - 1) - 1 - s) with (2 * 2 ^ (k - 1) - 1) by lia.
  rewrite ceil_half_odd. lia.
Qed.

(** X1. For a group of [2^k] consecutive ranks ([k >= 1]) starting at [s],
    [get_middle_process] is the last rank of the first half: the middle and
    the rank after it both lie in the group, and the two halves have
    [2^(k-1)] ranks each.  For a group of a single rank the result is the
    rank before the group. *)
Theorem get_middle_process_halves (s k : Z) (Hk : 1 <= k) :
  let e := s + 2 ^ k - 1 in
  let middle := get_middle_process s e in
  middle = s + 2 ^ (k - 1) - 1 /\
  s <= middle /\ middle + 1 <= e /\
  middle - s + 1 = 2 ^ (k - 1) /\ e - middle = 2 ^ (k - 1) /\
  get_middle_process s s = s - 1.
Proof.
  intros e middle. subst e middle. unfold get_middle_process.
  assert (Hp : 0 < 2 ^ (k - 1)) by (apply Z.pow_pos_nonneg; lia).
  rewrite (pow2_split k Hk).
  replace (s + 2 * 2 ^ (k - 1) - 1 - s) with (2 * 2 ^ (k - 1) - 1) by lia.
  rewrite ceil_half_odd.
  replace (s - s) with 0 by lia. change (ceil_half 0) with 0.
  repeat split; lia.
Qed.

Lemma get_middle_process_halves_witness :
  1 <= 2 /\
  get_middle_process 4 (4 + 2 ^ 2 - 1) = 4 + 2 ^ (2 - 1) - 1 /\
  get_middle_process 4 7 = 5.
Proof.
  split; [lia |].
  destruct (get_middle_process_halves 4 2) as (H & _); [lia |].
  split; [exact H | reflexivity].
Defined.

Lemma py_range_In start stop step x :
  0 < step ->
  forall l, py_range start stop step = Ret l ->
  (In x l <-> exists j, 0 <= j /\ x = start + j * step /\ x < stop).
Proof.
  intros Hs l H. unfold py_range in H.
  destruct (Z.eqb_spec step 0); [lia |].
  destruct (Z.ltb_spec 0 step); [| lia].
  injection H as <-. rewrite in_map_iff. split.
  - intros (j & <- & Hj). apply in_seq in Hj. exists (Z.of_nat j).
    split; [lia |]. split; [reflexivity |].
    destruct Hj as [_ Hj]. simpl in Hj.
    assert (Hc : Z.of_nat j < (stop - start + step - 1) / step) by lia.
    assert (Hd : step * ((stop - start + step - 1) / step) <= stop - start + step - 1)
      by (apply Z.mul_div_le; lia).
    nia.
  - intros (j & Hj & -> & Hlt). exists (Z.to_nat j).
    split; [rewrite Z2Nat.id by lia; reflexivity |].
    apply in_seq. split; [lia |]. simpl.
    assert (Hq : j + 1 <= (stop - start + step - 1) / step)
      by (apply Z.div_le_lower_bound; [lia | nia]).
    lia.
Qed.

(** X2. When the stride [2^k] of a step ([k >= 1]) divides the process
    count, every rank belongs to exactly one of the groups [update_maps]
    visits; that group lies inside the world ([0 <= start], [end <
    comm_size]) and contains its middle rank and the rank after it, the two
    producers of the boundary blocks. *)
Theorem update_maps_group_of_rank (comm_size k rank : Z)
    (Hk : 1 <= k) (Hdiv : (2 ^ k | comm_size)) (Hrank : 0 <= rank < comm_size) :
  exists groups,
    update_maps_groups comm_size k = Ret groups /\
    exists s m e,
      In (s, m, e) groups /\ s <= rank <= e /\
      0 <= s /\ s <= m /\ m + 1 <= e /\ e < comm_size /\
      forall s' m' e', In (s', m', e') groups -> s' <= rank <= e' ->
                       (s', m', e') = (s, m, e).
Proof.
  assert (Hs : 0 < 2 ^ k) by (apply Z.pow_pos_nonneg; lia).
  unfold update_maps_groups.
  assert (Hg : exists groups, py_range 0 comm_size (2 ^ k) = Ret groups).
  { unfold py_range. destruct (Z.eqb_spec (2 ^ k) 0); [lia | eauto]. }
  destruct Hg as [groups Hg]. rewrite Hg. cbn [obind]. eexists. split; [reflexivity |].
  pose proof (fun x => py_range_In 0 comm_size (2 ^ k) x Hs groups Hg) as Hin.
  set (s := 2 ^ k * (rank / 2 ^ k)).
  assert (Hlo : s <= rank) by (apply Z.mul_div_le; lia).
  assert (Hhi : rank < s + 2 ^ k).
  { pose proof (Z.mul_succ_div_gt rank (2 ^ k) Hs). subst s. lia. }
  assert (Hq : 0 <= rank / 2 ^ k) by (apply Z.div_pos; lia).
  destruct Hdiv as [c Hc].
  assert (He : s + 2 ^ k - 1 < comm_size).
  { assert (rank / 2 ^ k < c).
    { apply Z.div_lt_upper_bound; [lia |]. lia. }
    subst s. nia. }
  destruct (get_middle_process_bounds s k Hk) as (Hm1 & Hm2).
  exists s, (get_middle_process s (s + 2 ^ k - 1)), (s + 2 ^ k - 1).
  split.
  - apply in_map_iff. exists s. split; [reflexivity |].
    apply Hin. exists (rank / 2 ^ k). split; [exact Hq |].
    split; [subst s; lia | lia].
  - split; [lia |]. split; [subst s; nia |].
    split; [exact Hm1 |]. split; [exact Hm2 |]. split; [exact He |].
    intros s' m' e' H' Hr'.
    apply in_map_iff in H' as (a & Ha & Hina).
    injection Ha as <- <- <-.
    apply Hin in Hina as (j & Hj & -> & _).
    assert (j = rank / 2 ^ k).
    { apply (Z.div_unique rank (2 ^ k) j (rank - j * 2 ^ k)); lia. }
    subst j.
    replace (0 + rank / 2 ^ k * 2 ^ k) with s by (subst s; lia).
    reflexivity.
Qed.

Lemma update_maps_group_of_rank_witness :
  1 <= 1 /\ (2 ^ 1 | 4) /\ 0 <= 3 < 4 /\
  exists groups,
    update_maps_groups 4 1 = Ret groups /\
    exists s m e,
      In (s, m, e) groups /\ s <= 3 <= e /\
      0 <= s /\ s <= m /\ m + 1 <= e /\ e < 4 /\
      forall s' m' e', In (s', m', e') groups -> s' <= 3 <= e' ->
                       (s', m', e') = (s, m, e).
Proof.
  split; [lia |]. split; [exists 2; reflexivity |]. split; [lia |].
  apply (update_maps_group_of_rank 4 1 3); [lia | exists 2; reflexivity | lia].
Defined.

(* ===================================================================== *)
(** * What the entry points do on bad input *)
(* ===================================================================== *)

Lemma two_power_of_two : is_power_of_two 2.
Proof. exists 1. split; [lia | reflexivity]. Qed.

(** X3. [pdiv] never returns.  When the process count is a power of two it
    passes the check and stops at its first statement after it: unpacking
    the [None] that the stub [allocate_memory_for_partitions] returns is a
    [TypeError]; no event happens before.  For every process count the run
    ends in an exception. *)
Theorem pdiv_power_of_two_raises (comm : Comm) (A : ndarray) (blocksize : Z)
    (Hpow : is_power_of_two (Get_size comm)) :
  (forall t, PdivParallel.pdiv comm A blocksize t = (Raise TypeError, t)) /\
  (forall comm' t, exists e,
      PdivParallel.pdiv comm' A blocksize t = (Raise e, t)).
Proof.
  split.
  - intros t. destruct Hpow as (k & Hk & Hsize).
    assert (Hpos : 0 < Get_size comm) by (rewrite Hsize; apply Z.pow_pos_nonneg; lia).
    unfold PdivParallel.pdiv, bind, lift, log2_is_integer, int_log2.
    destruct (Z.leb_spec (Get_size comm) 0); [lia |].
    destruct (Z.eqb_spec (Get_size comm) (2 ^ Z.log2 (Get_size comm))) as [E | E].
    + reflexivity.
    + exfalso. apply E. rewrite Hsize at 2. rewrite Z.log2_pow2 by exact Hk.
      exact Hsize.
  - intros comm' t.
    unfold PdivParallel.pdiv, bind, lift, log2_is_integer, int_log2.
    destruct (Z.leb_spec (Get_size comm') 0); [eexists; reflexivity |].
    destruct (_ =? _); eexists; reflexivity.
Qed.

Lemma pdiv_power_of_two_raises_witness :
  is_power_of_two (Get_size (comm_world 2 0 (blk float64 2) 1)) /\
  PdivParallel.pdiv (comm_world 2 0 (blk float64 2) 1) ex_A 1 [] = (Raise TypeError, []).
Proof.
  split; [exact two_power_of_two |].
  destruct (pdiv_power_of_two_raises (comm_world 2 0 (blk float64 2) 1) ex_A 1
              two_power_of_two) as [H _].
  apply H.
Defined.

(** X4. Errors of [pdiv_localmap] before any communication, for every
    process count and rank: a partition that [np.linalg.inv] rejects (not
    square, singular) ends the run with that error, and a negative block
    size ends it with the [ValueError] of the map initialiser; in both
    cases the only event is the inversion. *)
Theorem pdiv_localmap_early_errors (comm : Comm) (g : Globals) (K_local : ndarray)
    (l_upperbridges l_lowerbridges : list ndarray) (blocksize : Z) (t : trace) :
  (forall e, np_linalg_inv K_local = Raise e ->
     pdiv_localmap comm g K_local l_upperbridges l_lowerbridges blocksize t
     = (Raise e, t ++ [EvInv])) /\
  (nrows K_local <> ncols K_local ->
     pdiv_localmap comm g K_local l_upperbridges l_lowerbridges blocksize t
     = (Raise LinAlgError, t ++ [EvInv])) /\
  (forall K_inv, np_linalg_inv K_local = Ret K_inv -> blocksize < 0 ->
     pdiv_localmap comm g K_local l_upperbridges l_lowerbridges blocksize t
     = (Raise ValueError, t ++ [EvInv])).
Proof.
  assert (Herr : forall e, np_linalg_inv K_local = Raise e ->
                   pdiv_localmap comm g K_local l_upperbridges l_lowerbridges blocksize t
                   = (Raise e, t ++ [EvInv])).
  { intros e He. unfold pdiv_localmap, bind, invert_partition, linalg_inv.
    rewrite He. reflexivity. }
  split; [exact Herr |]. split.
  - intros Hns. apply Herr. unfold np_linalg_inv.
    destruct (Nat.eqb_spec (nrows K_local) (ncols K_local)); [contradiction | reflexivity].
  - intros K_inv Hinv Hneg.
    unfold pdiv_localmap, bind, invert_partition, linalg_inv. rewrite Hinv.
    unfold lift, initialize_matrixmaps.
    change (py_range 0 12 1) with (Ret [0; 1; 2; 3; 4; 5; 6; 7; 8; 9; 10; 11]).
    cbn -[np_identity np_zeros]. unfold np_identity.
    apply Z.ltb_lt in Hneg. rewrite Hneg. reflexivity.
Qed.

Lemma pdiv_localmap_early_errors_witness :
  np_linalg_inv (of_rows float64 [[q 1; q 2]; [q 2; q 4]]) = Raise LinAlgError /\
  pdiv_localmap (comm_world 2 0 (blk float64 2) 1) globals_imported
    (of_rows float64 [[q 1; q 2]; [q 2; q 4]]) [blk float64 1] [blk float64 1] 1 []
  = (Raise LinAlgError, [] ++ [EvInv]) /\
  pdiv_localmap (comm_world 2 0 (blk float64 2) 1) globals_imported
    (blk float64 2) [blk float64 1] [blk float64 1] (-1) []
  = (Raise ValueError, [] ++ [EvInv]).
Proof.
  split; [vm_compute; reflexivity |].
  destruct (pdiv_localmap_early_errors (comm_world 2 0 (blk float64 2) 1)
              globals_imported (of_rows float64 [[q 1; q 2]; [q 2; q 4]])
              [blk float64 1] [blk float64 1] 1 []) as (H1 & _ & _).
  destruct (pdiv_localmap_early_errors (comm_world 2 0 (blk float64 2) 1)
              globals_imported (blk float64 2)
              [blk float64 1] [blk float64 1] (-1) []) as (_ & _ & H3).
  split.
  - apply H1. vm_compute. reflexivity.
  - apply (H3 (of_rows float64 [[Cplx (1 # 2) 0]])); [vm_compute; reflexivity | lia].
Defined.

(* ===================================================================== *)
(** * Shapes: the rules complete on blocks and keep them blocks *)
(* ===================================================================== *)

Lemma promote_same dt : promote dt dt = dt.
Proof. destruct dt; reflexivity. Qed.

Lemma oshaped_ret r c dt A : shaped r c dt A -> oshaped r c dt (ret_nd A).
Proof. intros H. exists A. split; [reflexivity | exact H]. Qed.

Lemma oshaped_matmul r k c dt a b :
  oshaped r k dt a -> oshaped k c dt b -> oshaped r c dt (a @@ b).
Proof.
  intros (A & -> & HdA & HrA & HcA) (B & -> & HdB & HrB & HcB).
  unfold omatmul. cbn [obind]. unfold matmul.
  rewrite HcA, HrB, Nat.eqb_refl. eexists. split; [reflexivity |].
  unfold shaped. cbn [dtype nrows ncols tabulate].
  rewrite HdA, HdB, promote_same. auto.
Qed.

Lemma oshaped_add r c dt a b :
  oshaped r c dt a -> oshaped r c dt b -> oshaped r c dt (a +@ b).
Proof.
  intros (A & -> & HdA & HrA & HcA) (B & -> & HdB & HrB & HcB).
  unfold oadd. cbn [obind]. unfold np_add, bdim.
  rewrite HrA, HrB, HcA, HcB, !Nat.eqb_refl. eexists. split; [reflexivity |].
  unfold shaped. cbn [dtype nrows ncols tabulate].
  rewrite HdA, HdB, promote_same. auto.
Qed.

Lemma oshaped_slot r c dt (l : list ndarray) i :
  Forall (shaped r c dt) l -> 0 <= i < Z.of_nat (length l) ->
  oshaped r c dt (l.[i]).
Proof.
  intros Hall Hi. destruct (list_getitem_in_range l i Hi) as [x Hx].
  exists x. split; [exact Hx |].
  apply list_getitem_Ret in Hx; [| lia].
  rewrite Forall_forall in Hall. apply Hall.
  apply list_elem_of_lookup. eauto.
Qed.

Lemma slice_range_head n bs :
  0 <= bs <= Z.of_nat n -> slice_range n 0 bs = (0%nat, Z.to_nat bs).
Proof.
  intros H. unfold slice_range, slice_bound.
  change (0 <? 0) with false. cbn iota.
  destruct (Z.ltb_spec bs 0); [lia |].
  rewrite Z.min_l by lia. rewrite (Z.min_l bs) by lia.
  rewrite Z.sub_0_r. reflexivity.
Qed.

Lemma slice_range_tail n bs :
  0 <= bs <= Z.of_nat n ->
  slice_range n (Z.of_nat n - bs) (Z.of_nat n)
  = (Z.to_nat (Z.of_nat n - bs), Z.to_nat bs).
Proof.
  intros H. unfold slice_range, slice_bound.
  destruct (Z.ltb_spec (Z.of_nat n - bs) 0); [lia |].
  destruct (Z.ltb_spec (Z.of_nat n) 0); [lia |].
  rewrite Z.min_l by lia. rewrite Z.min_id.
  f_equal. f_equal. lia.
Qed.

Lemma np_getitem_shaped A r0 r1 c0' c1' rs rl cs cl :
  slice_range (nrows A) r0 r1 = (rs, rl) ->
  slice_range (ncols A) c0' c1' = (cs, cl) ->
  np_getitem A r0 r1 c0' c1'
  = tabulate (dtype A) rl cl (fun i j => entry A (rs + i) (cs + j)).
Proof. intros Hr Hc. unfold np_getitem. rewrite Hr, Hc. reflexivity. Qed.

(** The four corner blocks of a square partition. *)
Lemma corner_shaped n dt K bs (top left : bool) :
  shaped n n dt K -> 0 <= bs <= Z.of_nat n ->
  let s := shape0 K - bs in
  let e := shape0 K in
  shaped (Z.to_nat bs) (Z.to_nat bs) dt
    (np_getitem K (if top then 0 else s) (if top then bs else e)
                  (if left then 0 else s) (if left then bs else e)).
Proof.
  intros (Hd & Hr & Hc) Hbs s e. subst s e. unfold shape0. rewrite Hr.
  destruct top, left;
    erewrite np_getitem_shaped;
    try (rewrite Hr; first [apply slice_range_head | apply slice_range_tail]; exact Hbs);
    try (rewrite Hc; first [apply slice_range_head | apply slice_range_tail]; exact Hbs);
    (split; [exact Hd | split; reflexivity]).
Qed.

Lemma J_block_shaped dt J blocksize (lower right : bool) :
  0 <= blocksize ->
  shaped (Z.to_nat (2 * blocksize)) (Z.to_nat (2 * blocksize)) dt J ->
  let bs := blocksize in
  shaped (Z.to_nat bs) (Z.to_nat bs) dt
    (np_getitem J (if lower then bs else 0) (if lower then 2 * bs else bs)
                  (if right then bs else 0) (if right then 2 * bs else bs)).
Proof.
  intros Hbs (Hd & Hr & Hc) bs. subst bs.
  destruct lower, right;
    erewrite np_getitem_shaped;
    try (rewrite Hr; first [apply slice_range_first | apply slice_range_second]; exact Hbs);
    try (rewrite Hc; first [apply slice_range_first | apply slice_range_second]; exact Hbs);
    (split; [exact Hd | split; reflexivity]).
Qed.

Lemma np_iadd_shaped r c dt A B :
  shaped r c dt A -> shaped r c dt B ->
  exists A', np_iadd A B = Ret A' /\ shaped r c dt A'.
Proof.
  intros (HdA & HrA & HcA) (HdB & HrB & HcB).
  unfold np_iadd, broadcast_to. rewrite HdA, HdB, HrA, HrB, HcA, HcB, !Nat.eqb_refl.
  cbn [orb andb].
  destruct dt; (eexists; split; [reflexivity |]);
    unfold shaped; cbn [dtype nrows ncols tabulate]; auto.
Qed.

Lemma maps_ok_insert bs dt l k x :
  maps_ok bs dt l -> shaped bs bs dt x -> maps_ok bs dt (<[k := x]> l).
Proof.
  intros [Hlen Hall] Hx. split; [rewrite length_insert; exact Hlen |].
  apply Forall_insert; assumption.
Qed.

Lemma list_setitem_ok {A} (l : list A) i x :
  0 <= i < Z.of_nat (length l) -> list_setitem l i x = Ret (<[Z.to_nat i := x]> l).
Proof.
  intros Hi. unfold list_setitem, list_index.
  destruct (Z.ltb_spec i 0); [lia |].
  destruct (Z.ltb_spec i 0); [lia |].
  destruct (Z.leb_spec (Z.of_nat (length l)) i); [lia |]. reflexivity.
Qed.

Lemma slot_iadd_ok bs dt l i rhs :
  maps_ok bs dt l -> 0 <= i < 12 -> oshaped bs bs dt rhs ->
  exists l', slot_iadd l i rhs = Ret l' /\ maps_ok bs dt l'.
Proof.
  intros Hok Hi (x & -> & Hx). pose proof Hok as [Hlen Hall].
  destruct (oshaped_slot bs bs dt l i Hall) as (a & Ha & Hsa); [lia |].
  destruct (np_iadd_shaped bs bs dt a x Hsa Hx) as (a' & Ha' & Hsa').
  unfold slot_iadd. rewrite Ha. cbn [obind]. rewrite Ha'. cbn [obind].
  rewrite list_setitem_ok by lia.
  eexists. split; [reflexivity |]. apply maps_ok_insert; assumption.
Qed.

Lemma slot_set_ok bs dt l i rhs :
  maps_ok bs dt l -> 0 <= i < 12 -> oshaped bs bs dt rhs ->
  exists l', slot_set l i rhs = Ret l' /\ maps_ok bs dt l'.
Proof.
  intros Hok Hi (x & -> & Hx). pose proof Hok as [Hlen Hall].
  unfold slot_set. cbn [obind]. rewrite list_setitem_ok by lia.
  eexists. split; [reflexivity |]. apply maps_ok_insert; assumption.
Qed.

(** Shape of an expression over blocks. *)
Ltac shape_tac :=
  repeat first
    [ assumption
    | apply oshaped_ret
    | apply oshaped_add
    | match goal with
      | |- oshaped ?r ?c _ (omatmul _ _) => apply (oshaped_matmul r r c)
      end
    | match goal with
      | H : maps_ok _ _ ?l |- oshaped _ _ _ (list_getitem ?l _) =>
          apply oshaped_slot; [exact (proj2 H) | rewrite (proj1 H); lia]
      end ].

(** Run a rule statement by statement on maps that are blocks. *)
Ltac step_rule bs dt :=
  repeat match goal with
         | |- context [obind (slot_iadd ?l ?i ?rhs) _] =>
             let H := fresh "E" in
             let l' := fresh "l" in
             let Hok := fresh "Hok" in
             destruct (slot_iadd_ok bs dt l i rhs) as (l' & H & Hok);
             [assumption | lia | shape_tac | rewrite H; cbn [obind]]
         | |- context [obind (slot_set ?l ?i ?rhs) _] =>
             let H := fresh "E" in
             let l' := fresh "l" in
             let Hok := fresh "Hok" in
             destruct (slot_set_ok bs dt l i rhs) as (l' & H & Hok);
             [assumption | lia | shape_tac | rewrite H; cbn [obind]]
         end.

Lemma update_matrixmap_upper_ok bs dt l_M UUR DUR ULL DLL Bu_mid Bl_mid J11 J12 J22 :
  maps_ok bs dt l_M ->
  shaped bs bs dt UUR -> shaped bs bs dt DUR -> shaped bs bs dt ULL ->
  shaped bs bs dt DLL -> shaped bs bs dt Bu_mid -> shaped bs bs dt Bl_mid ->
  shaped bs bs dt J11 -> shaped bs bs dt J12 -> shaped bs bs dt J22 ->
  exists l_M', update_matrixmap_upper l_M UUR DUR ULL DLL Bu_mid Bl_mid J11 J12 J22
               = Ret l_M' /\ maps_ok bs dt l_M'.
Proof.
  intros. unfold update_matrixmap_upper. step_rule bs dt. eauto.
Qed.

Lemma update_matrixmap_lower_ok bs dt l_M UUR DUR ULL DLL Bu_mid Bl_mid J11 J21 J22 :
  maps_ok bs dt l_M ->
  shaped bs bs dt UUR -> shaped bs bs dt DUR -> shaped bs bs dt ULL ->
  shaped bs bs dt DLL -> shaped bs bs dt Bu_mid -> shaped bs bs dt Bl_mid ->
  shaped bs bs dt J11 -> shaped bs bs dt J21 -> shaped bs bs dt J22 ->
  exists l_M', update_matrixmap_lower l_M UUR DUR ULL DLL Bu_mid Bl_mid J11 J21 J22
               = Ret l_M' /\ maps_ok bs dt l_M'.
Proof.
  intros. unfold update_matrixmap_lower. step_rule bs dt. eauto.
Qed.

Lemma obind3_shaped r c dt (e1 e2 e3 : outcome ndarray) :
  oshaped r c dt e1 -> oshaped r c dt e2 -> oshaped r c dt e3 ->
  exists a b d,
    (x <- e1;; y <- e2;; z <- e3;; Ret (x, y, z)) = Ret (a, b, d) /\
    shaped r c dt a /\ shaped r c dt b /\ shaped r c dt d.
Proof.
  intros (a & -> & Ha) (b & -> & Hb) (d & -> & Hd).
  exists a, b, d. auto.
Qed.

(** X5. On a square partition of dtype [dt] that holds at least one block
    row, with twelve maps that are blocks of that dtype, both producers of
    boundary blocks complete, and UUR, ULL, ULR, DUL, DUR, DLL are blocks of
    the block size and of dtype [dt]. *)
Theorem boundary_blocks_are_blocks (n : nat) (dt : Dtype) (K_local : ndarray)
    (l_M : list ndarray) (blocksize : Z)
    (HK : shaped n n dt K_local) (Hbs : 0 <= blocksize <= Z.of_nat n)
    (HM : maps_ok (Z.to_nat blocksize) dt l_M) :
  let bs := Z.to_nat blocksize in
  (exists UUR ULL ULR,
      produce_UUR_ULL_ULR K_local l_M blocksize = Ret (UUR, ULL, ULR) /\
      shaped bs bs dt UUR /\ shaped bs bs dt ULL /\ shaped bs bs dt ULR) /\
  (exists DUL DUR DLL,
      produce_DUL_DUR_DLL K_local l_M blocksize = Ret (DUL, DUR, DLL) /\
      shaped bs bs dt DUL /\ shaped bs bs dt DUR /\ shaped bs bs dt DLL).
Proof.
  intros bs.
  pose proof (corner_shaped n dt K_local blocksize true true HK Hbs) as Htl.
  pose proof (corner_shaped n dt K_local blocksize true false HK Hbs) as Htr.
  pose proof (corner_shaped n dt K_local blocksize false true HK Hbs) as Hbl.
  pose proof (corner_shaped n dt K_local blocksize false false HK Hbs) as Hbr.
  cbv beta iota zeta in Htl, Htr, Hbl, Hbr. fold bs in Htl, Htr, Hbl, Hbr, HM.
  split.
  - unfold produce_UUR_ULL_ULR. cbv zeta. apply obind3_shaped; shape_tac.
  - unfold produce_DUL_DUR_DLL. cbv zeta. apply obind3_shaped; shape_tac.
Qed.

Lemma ex_l_M_ok : maps_ok 1 float64 ex_l_M.
Proof. split; [reflexivity |]. repeat constructor. Qed.

Lemma ex_l_M_ip1_ok :
  maps_ok 1 float64 (map (blk float64) [13; 14; 15; 16; 17; 18; 19; 20; 21; 22; 23; 24]).
Proof. split; [reflexivity |]. repeat constructor. Qed.

Lemma boundary_blocks_are_blocks_witness :
  shaped 2 2 float64 ex_J /\ 0 <= 1 <= Z.of_nat 2 /\
  maps_ok (Z.to_nat 1) float64 ex_l_M /\
  exists UUR ULL ULR,
    produce_UUR_ULL_ULR ex_J ex_l_M 1 = Ret (UUR, ULL, ULR) /\
    shaped (Z.to_nat 1) (Z.to_nat 1) float64 UUR /\
    shaped (Z.to_nat 1) (Z.to_nat 1) float64 ULL /\
    shaped (Z.to_nat 1) (Z.to_nat 1) float64 ULR.
Proof.
  assert (HK : shaped 2 2 float64 ex_J) by (repeat split).
  assert (Hbs : 0 <= 1 <= Z.of_nat 2) by (simpl; lia).
  split; [exact HK |]. split; [exact Hbs |]. split; [exact ex_l_M_ok |].
  exact (proj1 (boundary_blocks_are_blocks 2 float64 ex_J ex_l_M 1 HK Hbs ex_l_M_ok)).
Defined.

(** X6. [update_matrixmap] keeps the maps blocks.  With twelve maps, six
    boundary blocks and two bridges that are all blocks of one dtype and of
    the block size, and [J] of twice that size, the update completes on
    every rank (upper or lower rule) and returns twelve maps that are again
    blocks of that dtype and size. *)
Theorem update_matrixmap_keeps_blocks (comm : Comm) (l_M l_U : list ndarray)
    (Bu_mid Bl_mid J : ndarray) (middle_process blocksize : Z) (dt : Dtype)
    (Hbs : 0 <= blocksize)
    (HM : maps_ok (Z.to_nat blocksize) dt l_M)
    (HUlen : length l_U = 6%nat)
    (HU : Forall (shaped (Z.to_nat blocksize) (Z.to_nat blocksize) dt) l_U)
    (HBu : shaped (Z.to_nat blocksize) (Z.to_nat blocksize) dt Bu_mid)
    (HBl : shaped (Z.to_nat blocksize) (Z.to_nat blocksize) dt Bl_mid)
    (HJ : shaped (Z.to_nat (2 * blocksize)) (Z.to_nat (2 * blocksize)) dt J) :
  exists l_M',
    update_matrixmap comm l_M l_U Bu_mid Bl_mid J middle_process blocksize = Ret l_M' /\
    maps_ok (Z.to_nat blocksize) dt l_M'.
Proof.
  unfold update_matrixmap.
  repeat match goal with
         | |- context [obind (list_getitem l_U ?i) _] =>
             let V := fresh "U" in
             let E := fresh "E" in
             let HV := fresh "HV" in
             destruct (oshaped_slot _ _ _ l_U i HU) as (V & E & HV);
             [rewrite HUlen; lia | rewrite E; cbn [obind]]
         end.
  pose proof (J_block_shaped dt J blocksize false false Hbs HJ) as HJ11.
  pose proof (J_block_shaped dt J blocksize false true Hbs HJ) as HJ12.
  pose proof (J_block_shaped dt J blocksize true false Hbs HJ) as HJ21.
  pose proof (J_block_shaped dt J blocksize true true Hbs HJ) as HJ22.
  cbv beta iota zeta in HJ11, HJ12, HJ21, HJ22. cbv zeta.
  destruct (_ <=? _).
  - apply update_matrixmap_upper_ok; assumption.
  - apply update_matrixmap_lower_ok; assumption.
Qed.

Lemma update_matrixmap_keeps_blocks_witness :
  exists l_M',
    update_matrixmap (comm_world 2 1 (blk float64 2) 1) ex_l_M ex_l_U
      (blk float64 1) (blk float64 1) ex_J 0 1 = Ret l_M' /\
    maps_ok (Z.to_nat 1) float64 l_M'.
Proof.
  apply (update_matrixmap_keeps_blocks (comm_world 2 1 (blk float64 2) 1)
           ex_l_M ex_l_U (blk float64 1) (blk float64 1) ex_J 0 1 float64).
  - lia.
  - exact ex_l_M_ok.
  - reflexivity.
  - repeat constructor.
  - repeat split.
  - repeat split.
  - repeat split.
Defined.

(** X7. The cross-map rules complete once they are given what the code
    does not supply.  With a partner's map that is a list of twelve blocks
    (instead of the [None] of [get_nextprocess_matrixmap]) and the global
    name [blocksize] bound to the block size, each of the three rules
    returns, on blocks of one dtype, twelve cross maps that are again blocks
    of that dtype and size. *)
Theorem crossmap_rules_complete_on_blocks (g : Globals) (l_M l' l_C : list ndarray)
    (Bu_mid Bl_mid J : ndarray) (blocksize : Z) (dt : Dtype)
    (Hg : g_blocksize g = Some blocksize) (Hbs : 0 <= blocksize)
    (HM : maps_ok (Z.to_nat blocksize) dt l_M)
    (HM' : maps_ok (Z.to_nat blocksize) dt l')
    (HC : maps_ok (Z.to_nat blocksize) dt l_C)
    (HBu : shaped (Z.to_nat blocksize) (Z.to_nat blocksize) dt Bu_mid)
    (HBl : shaped (Z.to_nat blocksize) (Z.to_nat blocksize) dt Bl_mid)
    (HJ : shaped (Z.to_nat (2 * blocksize)) (Z.to_nat (2 * blocksize)) dt J) :
  (exists l_C', update_crossmap_upper g l_M (PyList l') l_C Bu_mid J = Ret l_C' /\
                maps_ok (Z.to_nat blocksize) dt l_C') /\
  (exists l_C', update_crossmap_middle g l_M (PyList l') l_C Bu_mid Bl_mid J = Ret l_C' /\
                maps_ok (Z.to_nat blocksize) dt l_C') /\
  (exists l_C', update_crossmap_lower g l_M (PyList l') l_C Bl_mid J = Ret l_C' /\
                maps_ok (Z.to_nat blocksize) dt l_C').
Proof.
  pose proof (J_block_shaped dt J blocksize false false Hbs HJ) as HJ11.
  pose proof (J_block_shaped dt J blocksize false true Hbs HJ) as HJ12.
  pose proof (J_block_shaped dt J blocksize true false Hbs HJ) as HJ21.
  pose proof (J_block_shaped dt J blocksize true true Hbs HJ) as HJ22.
  cbv beta iota zeta in HJ11, HJ12, HJ21, HJ22.
  repeat split;
    unfold update_crossmap_upper, update_crossmap_middle, update_crossmap_lower,
      py_getitem, global_blocksize;
    rewrite Hg;
    repeat match goal with
           | |- context [obind (list_getitem ?l ?i) _] =>
               let V := fresh "M" in
               let E := fresh "E" in
               let HV := fresh "HV" in
               first [ destruct (oshaped_slot _ _ _ l i (proj2 HM)) as (V & E & HV);
                       [rewrite (proj1 HM); lia |]
                     | destruct (oshaped_slot _ _ _ l i (proj2 HM')) as (V & E & HV);
                       [rewrite (proj1 HM'); lia |] ];
               rewrite E; cbn [obind]
           end;
    cbv zeta; step_rule (Z.to_nat blocksize) dt; eauto.
Qed.

Lemma crossmap_rules_complete_on_blocks_witness :
  exists l_C',
    update_crossmap_middle globals_one ex_l_M ex_l_M_ip1 ex_l_M
      (blk float64 1) (blk float64 1) ex_J = Ret l_C' /\
    maps_ok (Z.to_nat 1) float64 l_C'.
Proof.
  refine (proj1 (proj2 (crossmap_rules_complete_on_blocks globals_one ex_l_M
            (map (blk float64) [13; 14; 15; 16; 17; 18; 19; 20; 21; 22; 23; 24])
            ex_l_M (blk float64 1) (blk float64 1) ex_J 1 float64
            eq_refl _ ex_l_M_ok ex_l_M_ip1_ok ex_l_M_ok _ _ _))).
  - lia.
  - repeat split.
  - repeat split.
  - repeat split.
Defined.

(** X8. The matrix-map rules use all twelve slots and nothing else: when
    [update_matrixmap_upper] or [update_matrixmap_lower] returns, the list
    it was given had at least twelve slots (on a shorter list the rule
    cannot return), the result has the same length, and every slot from 12
    up is as it was. *)
Theorem matrixmap_rules_frame (l_M : list ndarray)
    (UUR DUR ULL DLL Bu_mid Bl_mid J11 J12 J21 J22 : ndarray) (l_M' : list ndarray)
    (Hrun : update_matrixmap_upper l_M UUR DUR ULL DLL Bu_mid Bl_mid J11 J12 J22
            = Ret l_M' \/
            update_matrixmap_lower l_M UUR DUR ULL DLL Bu_mid Bl_mid J11 J21 J22
            = Ret l_M') :
  (12 <= length l_M)%nat /\ length l_M' = length l_M /\
  forall k, (12 <= k)%nat -> l_M' !! k = l_M !! k.
Proof.
  destruct Hrun as [Hrun | Hrun];
    [unfold update_matrixmap_upper in Hrun | unfold update_matrixmap_lower in Hrun];
    split_rule Hrun; injection Hrun as <-; subst; lookup_ne;
    (split; [| split]);
    try (repeat rewrite length_insert; reflexivity);
    try (intros k Hk; lookup_frame; reflexivity);
    match goal with
    | H : l_M !! 11%nat = Some _ |- _ => apply lookup_lt_Some in H; lia
    end.
Qed.

Lemma matrixmap_rules_frame_witness :
  exists l_M',
    update_matrixmap_lower (ex_l_M ++ [blk float64 99]) (blk float64 2) (blk float64 3)
      (blk float64 5) (blk float64 7) (blk float64 1) (blk float64 1) (blk float64 1)
      (blk float64 1) (blk float64 1) = Ret l_M' /\
    (12 <= length (ex_l_M ++ [blk float64 99]))%nat /\
    length l_M' = length (ex_l_M ++ [blk float64 99]) /\
    forall k, (12 <= k)%nat -> l_M' !! k = (ex_l_M ++ [blk float64 99]) !! k.
Proof.
  eexists. split; [vm_compute; reflexivity |].
  apply (matrixmap_rules_frame (ex_l_M ++ [blk float64 99]) (blk float64 2)
           (blk float64 3) (blk float64 5) (blk float64 7) (blk float64 1)
           (blk float64 1) (blk float64 1) (blk float64 1) (blk float64 1)
           (blk float64 1)).
  right. vm_compute. reflexivity.
Defined.

(* ===================================================================== *)
(** * The messages of [get_U] *)
(* ===================================================================== *)

Lemma emits_ret {A} P (a : A) : emits P (ret a).
Proof.
  intros t o t' H. injection H as _ <-. exists [].
  split; [symmetry; apply app_nil_r | constructor].
Qed.

Lemma emits_lift {A} P (o : outcome A) : emits P (lift o).
Proof.
  intros t o' t' H. injection H as _ <-. exists [].
  split; [symmetry; apply app_nil_r | constructor].
Qed.

Lemma emits_bind {A B} P (m : M A) (k : A -> M B) :
  emits P m -> (forall a t t1, m t = (Ret a, t1) -> emits P (k a)) ->
  emits P (bind m k).
Proof.
  intros Hm Hk t o t' H. unfold bind in H.
  destruct (m t) as [[a | e |] t1] eqn:E; destruct (Hm _ _ _ E) as (r1 & -> & Hr1).
  - destruct (Hk a _ _ E _ _ _ H) as (r2 & -> & Hr2).
    exists (r1 ++ r2). split; [symmetry; apply app_assoc | apply Forall_app; auto].
  - injection H as _ <-. eauto.
  - injection H as _ <-. eauto.
Qed.

Lemma emits_event {A} (P : event -> Prop) (ev : event) (f : trace -> outcome A) :
  P ev -> emits P (fun t => (f t, t ++ [ev])).
Proof.
  intros Hev t o t' H. injection H as _ <-. exists [ev].
  split; [reflexivity | repeat constructor; exact Hev].
Qed.

Lemma emits_send P comm obj dest tag :
  P (EvSend obj dest tag) -> emits P (comm_send comm obj dest tag).
Proof. intros H. exact (emits_event P _ _ H). Qed.

Lemma emits_recv P comm source tag :
  P (EvRecv source tag) -> emits P (comm_recv comm source tag).
Proof. intros H. exact (emits_event P _ _ H). Qed.

Lemma emits_for_each {S} P (xs : list Z) (body : Z -> S -> M S) :
  (forall x s, In x xs -> emits P (body x s)) ->
  forall s, emits P (for_each xs body s).
Proof.
  induction xs as [| x xs IH]; intros Hbody s; simpl.
  - apply emits_ret.
  - apply emits_bind; [apply Hbody; left; reflexivity |].
    intros s' _ _ _. apply IH. intros y s0 Hy. apply Hbody. right. exact Hy.
Qed.

Lemma lift_Ret_inv {A} (o : outcome A) t a t1 :
  lift o t = (Ret a, t1) -> o = Ret a.
Proof. unfold lift. intros H. injection H as -> _. reflexivity. Qed.

Lemma py_range_unit_bounds s e group p :
  py_range s (e + 1) 1 = Ret group -> In p group -> s <= p <= e.
Proof.
  intros Hg Hp.
  apply (py_range_In s (e + 1) 1 p ltac:(lia) group Hg) in Hp as (j & Hj & -> & Hlt).
  lia.
Qed.

(** The events [get_U] may add on a rank of the group [s, e] with middle [m]. *)
Lemma get_U_emits comm K_local l_M s m e blocksize (P : event -> Prop) :
  (forall obj p tag, s <= p <= e -> p <> Get_rank comm ->
     (Get_rank comm = m \/ Get_rank comm = m + 1) -> P (EvSend obj p tag)) ->
  (forall tag, Get_rank comm <> m -> P (EvRecv m tag)) ->
  (forall tag, Get_rank comm <> m + 1 -> P (EvRecv (m + 1) tag)) ->
  emits P (get_U comm K_local l_M s m e blocksize).
Proof.
  intros Hsend Hrm Hrm1. unfold get_U.
  do 6 (apply emits_bind; [apply emits_lift | intros ? ? ? _]).
  apply emits_bind.
  - destruct (Z.eqb_spec (Get_rank comm) m) as [Hr | Hr].
    + apply emits_bind; [apply emits_lift | intros [[UUR ULL] ULR] ? ? _].
      apply emits_bind; [apply emits_lift | intros group ? ? Hg].
      apply lift_Ret_inv in Hg.
      apply emits_bind; [| intros; apply emits_ret].
      apply emits_for_each. intros p [] Hp.
      pose proof (py_range_unit_bounds _ _ _ _ Hg Hp) as Hb.
      destruct (Z.eqb_spec p m) as [Hpm | Hpm]; cbn [negb]; [apply emits_ret |].
      unfold send3.
      repeat (apply emits_bind; [| intros ? ? ? _]);
        apply emits_send; apply Hsend; auto; congruence.
    + repeat (apply emits_bind; [apply emits_recv; apply Hrm; exact Hr | intros ? ? ? _]).
      apply emits_ret.
  - intros [[UUR ULL] ULR] ? ? _.
    apply emits_bind; [| intros [[DUL DUR] DLL] ? ? _; apply emits_ret].
    destruct (Z.eqb_spec (Get_rank comm) (m + 1)) as [Hr | Hr].
    + apply emits_bind; [apply emits_lift | intros [[DUL DUR] DLL] ? ? _].
      apply emits_bind; [apply emits_lift | intros group ? ? Hg].
      apply lift_Ret_inv in Hg.
      apply emits_bind; [| intros; apply emits_ret].
      apply emits_for_each. intros p [] Hp.
      pose proof (py_range_unit_bounds _ _ _ _ Hg Hp) as Hb.
      destruct (Z.eqb_spec p (m + 1)) as [Hpm | Hpm]; cbn [negb]; [apply emits_ret |].
      unfold send3.
      repeat (apply emits_bind; [| intros ? ? ? _]);
        apply emits_send; apply Hsend; auto; congruence.
    + repeat (apply emits_bind; [apply emits_recv; apply Hrm1; exact Hr | intros ? ? ? _]).
      apply emits_ret.
Qed.

(** X9. The messages of [get_U], whatever the environment answers and
    however the call ends.  In a group [s, e] that contains its middle rank
    [m] and the next one, a rank exchanges messages only with ranks of the
    group and never with itself; it computes no inverse and prints nothing;
    and a rank that is neither [m] nor [m + 1] sends nothing at all. *)
Theorem get_U_messages_stay_in_group (comm : Comm) (K_local : ndarray)
    (l_M : list ndarray) (s m e blocksize : Z) (t : trace)
    (o : outcome (list ndarray)) (t' : trace)
    (Hm : s <= m) (Hm1 : m + 1 <= e)
    (Hrun : get_U comm K_local l_M s m e blocksize t = (o, t')) :
  exists rest,
    t' = t ++ rest /\
    Forall (peer_within s e) rest /\
    Forall (not_self (Get_rank comm)) rest /\
    Forall (fun ev => ev <> EvInv /\ ~ is_print ev) rest /\
    (Get_rank comm <> m -> Get_rank comm <> m + 1 -> Forall (fun ev => ~ is_send ev) rest).
Proof.
  set (P := fun ev =>
              peer_within s e ev /\ not_self (Get_rank comm) ev /\
              (ev <> EvInv /\ ~ is_print ev) /\
              (Get_rank comm <> m -> Get_rank comm <> m + 1 -> ~ is_send ev)).
  assert (HP : emits P (get_U comm K_local l_M s m e blocksize)).
  { apply get_U_emits; subst P; cbn.
    - intros obj p tag Hp Hne Hprod.
      repeat split; try assumption; try discriminate; tauto.
    - intros tag Hr.
      repeat split; try lia; try discriminate; try congruence; tauto.
    - intros tag Hr.
      repeat split; try lia; try discriminate; try congruence; tauto. }
  destruct (HP _ _ _ Hrun) as (rest & -> & Hrest).
  exists rest. split; [reflexivity |].
  subst P. rewrite Forall_forall in Hrest.
  repeat split; try (intros Ha Hb); apply Forall_forall; intros ev Hev;
    destruct (Hrest ev Hev) as (H1 & H2 & H3 & H4); tauto.
Qed.

Lemma get_U_messages_stay_in_group_witness :
  exists o t',
    get_U (comm_world 2 0 (blk float64 2) 1) (blk float64 2) ex_l_M 0 0 1 1 [] = (o, t') /\
    exists rest,
      t' = [] ++ rest /\
      Forall (peer_within 0 1) rest /\
      Forall (not_self (Get_rank (comm_world 2 0 (blk float64 2) 1))) rest /\
      Forall (fun ev => ev <> EvInv /\ ~ is_print ev) rest /\
      (Get_rank (comm_world 2 0 (blk float64 2) 1) <> 0 ->
       Get_rank (comm_world 2 0 (blk float64 2) 1) <> 0 + 1 ->
       Forall (fun ev => ~ is_send ev) rest).
Proof.
  eexists. eexists. split; [vm_compute; reflexivity |].
  eapply (get_U_messages_stay_in_group (comm_world 2 0 (blk float64 2) 1)
            (blk float64 2) ex_l_M 0 0 1 1 []);
    [lia | lia | vm_compute; reflexivity].
Defined.

Lemma lift_inv {A} (o o' : outcome A) t t' :
  lift o t = (o', t') -> o = o' /\ t = t'.
Proof. unfold lift. intros H. injection H as -> ->. auto. Qed.

Lemma comm_send_Ret comm obj dest tag t u t' :
  comm_send comm obj dest tag t = (Ret u, t') -> t' = t ++ [EvSend obj dest tag].
Proof. unfold comm_send. intros H. injection H as _ <-. reflexivity. Qed.

(** A loop of a producer that completes has sent the three blocks to every
    rank of its list but the producer. *)
Lemma send_loop_Ret comm a b c producer tag0 xs :
  forall t u t',
    for_each xs
      (fun process _ =>
         if negb (process =? producer) then send3 comm a b c process tag0 else ret tt)
      tt t = (Ret u, t') ->
    exists rest,
      t' = t ++ rest /\
      forall p, In p xs -> p <> producer ->
        In (EvSend a p tag0) rest /\ In (EvSend b p (tag0 + 1)) rest /\
        In (EvSend c p (tag0 + 2)) rest.
Proof.
  induction xs as [| x xs IH]; intros t u t' H; simpl in H.
  - injection H as _ <-. exists []. split; [symmetry; apply app_nil_r |].
    intros p [].
  - apply bind_Ret_inv in H as ([] & t1 & Hx & Hrest).
    destruct (IH _ _ _ Hrest) as (r2 & -> & Hr2).
    destruct (Z.eqb_spec x producer) as [Hxp | Hxp]; cbn [negb] in Hx.
    + injection Hx as <-. exists r2. split; [reflexivity |].
      intros p [<- | Hp] Hne; [contradiction | apply Hr2; assumption].
    + unfold send3 in Hx.
      apply bind_Ret_inv in Hx as (? & ta & Ha & Hx).
      apply bind_Ret_inv in Hx as (? & tb & Hb & Hc).
      apply comm_send_Ret in Ha, Hb, Hc. subst ta tb t1.
      exists ([EvSend a x tag0; EvSend b x (tag0 + 1); EvSend c x (tag0 + 2)] ++ r2).
      split; [rewrite <- !app_assoc; reflexivity |].
      intros p [<- | Hp] Hne.
      * repeat split; apply in_or_app; left; simpl; auto.
      * destruct (Hr2 p Hp Hne) as (H1 & H2 & H3).
        repeat split; apply in_or_app; right; assumption.
Qed.

Lemma py_range_unit_In s e group p :
  py_range s (e + 1) 1 = Ret group -> s <= p <= e -> In p group.
Proof.
  intros Hg Hp.
  apply (py_range_In s (e + 1) 1 p ltac:(lia) group Hg).
  exists (p - s). split; [lia |]. split; lia.
Qed.

(** X10. When [get_U] returns on a producer rank, the broadcast is
    complete: the middle rank has sent the three blocks it produced (tags
    0, 1, 2) to every other rank of the group, the rank after it its three
    (tags 3, 4, 5), and the list returned holds those produced blocks in
    the producer's positions. *)
Theorem get_U_producer_broadcast (comm : Comm) (K_local : ndarray)
    (l_M : list ndarray) (s m e blocksize : Z) (t : trace)
    (l_U : list ndarray) (t' : trace)
    (Hrun : get_U comm K_local l_M s m e blocksize t = (Ret l_U, t')) :
  exists rest UUR ULL ULR DUL DUR DLL,
    t' = t ++ rest /\ l_U = [UUR; ULL; ULR; DUL; DUR; DLL] /\
    (Get_rank comm = m ->
       produce_UUR_ULL_ULR K_local l_M blocksize = Ret (UUR, ULL, ULR) /\
       forall p, s <= p <= e -> p <> m ->
         In (EvSend UUR p 0) rest /\ In (EvSend ULL p 1) rest /\
         In (EvSend ULR p 2) rest) /\
    (Get_rank comm = m + 1 ->
       produce_DUL_DUR_DLL K_local l_M blocksize = Ret (DUL, DUR, DLL) /\
       forall p, s <= p <= e -> p <> m + 1 ->
         In (EvSend DUL p 3) rest /\ In (EvSend DUR p 4) rest /\
         In (EvSend DLL p 5) rest).
Proof.
  unfold get_U in Hrun.
  do 6 (apply bind_Ret_inv in Hrun as (? & ? & Hz & Hrun);
        unfold lift in Hz; injection Hz as _ <-).
  apply bind_Ret_inv in Hrun as ([[UUR ULL] ULR] & t1 & HU & Hrun).
  apply bind_Ret_inv in Hrun as ([[DUL DUR] DLL] & t2 & HD & Hrun).
  unfold ret in Hrun. injection Hrun as <- <-.
  assert (HUt : exists r1, t1 = t ++ r1 /\
            (Get_rank comm = m ->
             produce_UUR_ULL_ULR K_local l_M blocksize = Ret (UUR, ULL, ULR) /\
             forall p, s <= p <= e -> p <> m ->
               In (EvSend UUR p 0) r1 /\ In (EvSend ULL p 1) r1 /\
               In (EvSend ULR p 2) r1)).
  { destruct (Z.eqb_spec (Get_rank comm) m) as [Hr | Hr].
    - apply bind_Ret_inv in HU as ([[a b] c] & ta & Hp & HU).
      apply lift_inv in Hp as [Hp <-].
      apply bind_Ret_inv in HU as (group & tb & Hg & HU).
      apply lift_inv in Hg as [Hg <-].
      apply bind_Ret_inv in HU as ([] & tc & Hloop & HU).
      unfold ret in HU. injection HU as <- <- <- <-.
      destruct (send_loop_Ret _ _ _ _ _ _ _ _ _ _ Hloop) as (r1 & -> & Hr1).
      exists r1. split; [reflexivity |]. intros _. split; [exact Hp |].
      intros p Hp' Hne. apply Hr1; [| exact Hne].
      apply (py_range_unit_In _ _ _ _ Hg Hp').
    - assert (Ha : appends (UUR0 <~ comm_recv comm m 0;;
                            ULL0 <~ comm_recv comm m 1;;
                            ULR0 <~ comm_recv comm m 2;;
                            ret (UUR0, ULL0, ULR0))) by appends_tac.
      destruct (Ha _ _ _ HU) as (r1 & ->). exists r1.
      split; [reflexivity |]. intros Heq. contradiction. }
  assert (HDt : exists r2, t2 = t1 ++ r2 /\
            (Get_rank comm = m + 1 ->
             produce_DUL_DUR_DLL K_local l_M blocksize = Ret (DUL, DUR, DLL) /\
             forall p, s <= p <= e -> p <> m + 1 ->
               In (EvSend DUL p 3) r2 /\ In (EvSend DUR p 4) r2 /\
               In (EvSend DLL p 5) r2)).
  { destruct (Z.eqb_spec (Get_rank comm) (m + 1)) as [Hr | Hr].
    - apply bind_Ret_inv in HD as ([[a b] c] & ta & Hp & HD).
      apply lift_inv in Hp as [Hp <-].
      apply bind_Ret_inv in HD as (group & tb & Hg & HD).
      apply lift_inv in Hg as [Hg <-].
      apply bind_Ret_inv in HD as ([] & tc & Hloop & HD).
      unfold ret in HD. injection HD as <- <- <- <-.
      destruct (send_loop_Ret _ _ _ _ _ _ _ _ _ _ Hloop) as (r2 & -> & Hr2).
      exists r2. split; [reflexivity |]. intros _. split; [exact Hp |].
      intros p Hp' Hne. apply Hr2; [| exact Hne].
      apply (py_range_unit_In _ _ _ _ Hg Hp').
    - assert (Ha : appends (DUL0 <~ comm_recv comm (m + 1) 3;;
                            DUR0 <~ comm_recv comm (m + 1) 4;;
                            DLL0 <~ comm_recv comm (m + 1) 5;;
                            ret (DUL0, DUR0, DLL0))) by appends_tac.
      destruct (Ha _ _ _ HD) as (r2 & ->). exists r2.
      split; [reflexivity |]. intros Heq. contradiction. }
  destruct HUt as (r1 & -> & HUs). destruct HDt as (r2 & -> & HDs).
  exists (r1 ++ r2), UUR, ULL, ULR, DUL, DUR, DLL.
  split; [symmetry; apply app_assoc |]. split; [reflexivity |]. split.
  - intros Hr. destruct (HUs Hr) as [Hp Hs]. split; [exact Hp |].
    intros p Hp' Hne. destruct (Hs p Hp' Hne) as (H1 & H2 & H3).
    repeat split; apply in_or_app; left; assumption.
  - intros Hr. destruct (HDs Hr) as [Hp Hs]. split; [exact Hp |].
    intros p Hp' Hne. destruct (Hs p Hp' Hne) as (H1 & H2 & H3).
    repeat split; apply in_or_app; right; assumption.
Qed.

Lemma get_U_producer_broadcast_witness :
  exists l_U t' rest UUR ULL ULR DUL DUR DLL,
    get_U (comm_world 2 0 (blk float64 2) 1) (blk float64 2) ex_l_M 0 0 1 1 []
    = (Ret l_U, t') /\
    t' = [] ++ rest /\ l_U = [UUR; ULL; ULR; DUL; DUR; DLL] /\
    In (EvSend UUR 1 0) rest /\ In (EvSend ULL 1 1) rest /\ In (EvSend ULR 1 2) rest.
Proof.
  edestruct (get_U_producer_broadcast (comm_world 2 0 (blk float64 2) 1)
               (blk float64 2) ex_l_M 0 0 1 1 [])
    as (rest & UUR & ULL & ULR & DUL & DUR & DLL & Ht & HlU & Hm & _).
  { vm_compute. reflexivity. }
  destruct (Hm eq_refl) as [_ Hs].
  destruct (Hs 1 ltac:(lia) ltac:(lia)) as (H1 & H2 & H3).
  eexists. eexists. exists rest, UUR, ULL, ULR, DUL, DUR, DLL.
  split; [vm_compute; reflexivity |].
  split; [exact Ht |]. split; [exact HlU |]. auto.
Defined.

(* ===================================================================== *)
(** * The events of a reduction step and of a run *)
(* ===================================================================== *)

Lemma emits_bind_never {A B} P (m : M A) (k : A -> M B) :
  emits P m -> never_returns m -> emits P (bind m k).
Proof.
  intros Hm Hn. apply emits_bind; [exact Hm |].
  intros a t t1 H. exfalso. exact (Hn _ _ _ H).
Qed.

Lemma emits_linalg_inv P A : P EvInv -> emits P (linalg_inv A).
Proof. intros H. exact (emits_event P _ _ H). Qed.

Lemma py_range_sorted start stop step l :
  0 < step -> py_range start stop step = Ret l -> StronglySorted Z.lt l.
Proof.
  intros Hs H. unfold py_range in H.
  destruct (Z.eqb_spec step 0) as [Hz | Hz]; [lia |]. injection H as <-.
  generalize (Z.to_nat
                (if 0 <? step then (stop - start + step - 1) / step
                 else (start - stop - step - 1) / - step)) as len.
  generalize 0%nat as a. intros a len. revert a.
  induction len as [| len IH]; intros a; simpl; constructor.
  - apply IH.
  - apply Forall_forall. intros y Hy.
    apply list_elem_of_In, in_map_iff in Hy as (k & <- & Hk).
    apply in_seq in Hk. nia.
Qed.

(** A loop whose body cannot return at the element [x0] of a sorted list
    never runs the elements after it. *)
Lemma emits_for_each_stop {S} P (xs : list Z) (body : Z -> S -> M S) x0 :
  StronglySorted Z.lt xs -> In x0 xs ->
  (forall x s, In x xs -> x < x0 -> emits P (body x s)) ->
  (forall s, emits P (body x0 s) /\ never_returns (body x0 s)) ->
  forall s, emits P (for_each xs body s).
Proof.
  intros Hsorted. induction Hsorted as [| x xs Hs IH Hall]; intros Hin Hlt Hx0 s.
  - destruct Hin.
  - simpl. destruct (Z.eq_dec x x0) as [-> | Hne].
    + apply emits_bind_never; apply Hx0.
    + destruct Hin as [Heq | Hin]; [contradiction |].
      assert (x < x0).
      { rewrite Forall_forall in Hall. apply Hall, list_elem_of_In, Hin. }
      apply emits_bind; [apply Hlt; [left; reflexivity | assumption] |].
      intros s' _ _ _. apply IH; [exact Hin | | exact Hx0].
      intros y s0 Hy Hylt. apply Hlt; [right; exact Hy | exact Hylt].
Qed.

(** The group block of the loop body of [update_maps], on a rank of the
    group: its events, and that it cannot return. *)
Lemma update_maps_body_in_group comm g K_local ub lb k blocksize a maps
    (P : event -> Prop) :
  1 <= k -> a <= Get_rank comm <= a + 2 ^ k - 1 ->
  P EvInv ->
  (forall obj p tag, a <= p <= a + 2 ^ k - 1 -> p <> Get_rank comm ->
     P (EvSend obj p tag)) ->
  (forall p tag, a <= p <= a + 2 ^ k - 1 -> p <> Get_rank comm -> P (EvRecv p tag)) ->
  emits P (update_maps_body comm g K_local ub lb (2 ^ k) blocksize a maps) /\
  never_returns (update_maps_body comm g K_local ub lb (2 ^ k) blocksize a maps).
Proof.
  intros Hk Hin Hinv Hsend Hrecv.
  split; [| apply update_maps_body_never_returns; exact Hin].
  destruct (get_middle_process_bounds a k Hk) as [Hm1 Hm2].
  unfold update_maps_body. destruct maps as [l_M l_C].
  destruct (Z.leb_spec a (Get_rank comm)); [| lia].
  destruct (Z.leb_spec (Get_rank comm) (a + 2 ^ k - 1)); [| lia].
  cbn [andb].
  apply emits_bind_never.
  - apply emits_bind.
    { apply get_U_emits.
      - intros obj p tag Hp Hne _. apply Hsend; assumption.
      - intros tag Hne. apply Hrecv; [lia | congruence].
      - intros tag Hne. apply Hrecv; [lia | congruence]. }
    intros l_U ? ? _.
    apply emits_bind; [apply emits_lift | intros Bu_mid ? ? _].
    apply emits_bind; [apply emits_lift | intros Bl_mid ? ? _].
    apply emits_bind.
    { unfold get_J. apply emits_bind; [apply emits_lift | intros ? ? ? _].
      apply emits_linalg_inv, Hinv. }
    intros J ? ? _.
    apply emits_bind; [apply emits_lift | intros ? ? ? _].
    apply emits_bind; [apply emits_lift | intros ? ? ? _].
    apply emits_ret.
  - do 4 (apply never_returns_bind_r; intros ?).
    apply never_returns_bind_l.
    match goal with
    | |- never_returns (lift (update_crossmap ?c ?g' ?lc ?lm ?bu ?bl ?j ?m ?b)) =>
        destruct (update_crossmap_raises c g' lc lm bu bl j m b) as [e He];
        exact (never_returns_lift_Raise _ e He)
    end.
Qed.

(** The loop body on a group the rank is not in, on a rank other than 0. *)
Lemma update_maps_body_out_of_group comm g K_local ub lb stride blocksize a maps
    (P : event -> Prop) :
  ~ (a <= Get_rank comm <= a + stride - 1) -> Get_rank comm <> 0 ->
  emits P (update_maps_body comm g K_local ub lb stride blocksize a maps).
Proof.
  intros Hout Hr0. unfold update_maps_body. destruct maps as [l_M l_C].
  assert (Hc : (a <=? Get_rank comm) && (Get_rank comm <=? a + stride - 1) = false).
  { apply andb_false_iff.
    destruct (Z.leb_spec a (Get_rank comm)); [right | left; reflexivity].
    apply Z.leb_gt. lia. }
  rewrite Hc.
  destruct (Z.eqb_spec (Get_rank comm) 0); [contradiction |].
  apply emits_bind; [apply emits_ret | intros ? ? ? _].
  apply emits_bind; [apply emits_ret | intros ? ? ? _]. apply emits_ret.
Qed.

(** The events of [update_maps] at step [k] on a rank of the world. *)
Lemma update_maps_emits comm g l_M l_C K_local ub lb k blocksize (P : event -> Prop) :
  1 <= k -> 0 <= Get_rank comm < Get_size comm ->
  let s := 2 ^ k * (Get_rank comm / 2 ^ k) in
  P EvInv ->
  (forall obj p tag, s <= p <= s + 2 ^ k - 1 -> p <> Get_rank comm ->
     P (EvSend obj p tag)) ->
  (forall p tag, s <= p <= s + 2 ^ k - 1 -> p <> Get_rank comm -> P (EvRecv p tag)) ->
  emits P (update_maps comm g l_M l_C K_local ub lb k blocksize).
Proof.
  intros Hk Hrank s Hinv Hsend Hrecv.
  assert (Hs : 0 < 2 ^ k) by (apply Z.pow_pos_nonneg; lia).
  assert (Hlo : s <= Get_rank comm) by (apply Z.mul_div_le; lia).
  assert (Hhi : Get_rank comm < s + 2 ^ k).
  { pose proof (Z.mul_succ_div_gt (Get_rank comm) (2 ^ k) Hs). subst s. lia. }
  unfold update_maps.
  apply emits_bind; [apply emits_lift |].
  intros groups ? ? Hg. apply lift_Ret_inv in Hg.
  apply (emits_for_each_stop P groups _ s).
  - apply (py_range_sorted _ _ _ _ Hs Hg).
  - apply (py_range_In 0 (Get_size comm) (2 ^ k) s Hs groups Hg).
    exists (Get_rank comm / 2 ^ k).
    split; [apply Z.div_pos; lia |]. split; [subst s; lia | lia].
  - intros a maps Ha Hlt.
    apply (py_range_In 0 (Get_size comm) (2 ^ k) a Hs groups Hg) in Ha
      as (j & Hj & -> & _).
    assert (Hjs : j < Get_rank comm / 2 ^ k) by (subst s; nia).
    apply update_maps_body_out_of_group; [subst s; nia | nia].
  - intros maps. apply update_maps_body_in_group; auto; lia.
Qed.

(** X11. The events of one reduction step, whatever the environment
    answers.  At step [k >= 1] a rank of the world talks only to the other
    ranks of its own group of [2^k] ranks, never to itself, and the
    progress line of rank 0 is never printed: the step stops inside the
    rank's group, before the [print] and before any later group. *)
Theorem update_maps_events (comm : Comm) (g : Globals) (l_M l_C : list ndarray)
    (K_local : ndarray) (l_upperbridges l_lowerbridges : list ndarray)
    (k blocksize : Z) (t : trace)
    (o : outcome (list ndarray * list ndarray)) (t' : trace)
    (Hk : 1 <= k) (Hrank : 0 <= Get_rank comm < Get_size comm)
    (Hrun : update_maps comm g l_M l_C K_local l_upperbridges l_lowerbridges
              k blocksize t = (o, t')) :
  let s := 2 ^ k * (Get_rank comm / 2 ^ k) in
  exists rest,
    t' = t ++ rest /\
    Forall (peer_within s (s + 2 ^ k - 1)) rest /\
    Forall (not_self (Get_rank comm)) rest /\
    Forall (fun ev => ~ is_print ev) rest.
Proof.
  intros s.
  set (P := fun ev => peer_within s (s + 2 ^ k - 1) ev /\
                      not_self (Get_rank comm) ev /\ ~ is_print ev).
  assert (HP : emits P (update_maps comm g l_M l_C K_local l_upperbridges
                          l_lowerbridges k blocksize)).
  { apply update_maps_emits; try assumption; subst P; cbn; intros; tauto. }
  destruct (HP _ _ _ Hrun) as (rest & -> & Hrest).
  exists rest. split; [reflexivity |].
  subst P. rewrite Forall_forall in Hrest.
  repeat split; apply Forall_forall; intros ev Hev;
    destruct (Hrest ev Hev) as (H1 & H2 & H3); assumption.
Qed.

Lemma update_maps_events_witness :
  exists o t',
    update_maps (comm_world 4 0 (blk float64 2) 1) globals_imported ex_l_M ex_l_M
      (blk float64 2) (map (blk float64) [1; 1; 1]) (map (blk float64) [1; 1; 1])
      1 1 [] = (o, t') /\
    exists rest,
      t' = [] ++ rest /\
      Forall (peer_within 0 1) rest /\
      Forall (not_self 0) rest /\
      Forall (fun ev => ~ is_print ev) rest.
Proof.
  eexists. eexists. split; [vm_compute; reflexivity |].
  eapply (update_maps_events (comm_world 4 0 (blk float64 2) 1) globals_imported
            ex_l_M ex_l_M (blk float64 2) (map (blk float64) [1; 1; 1])
            (map (blk float64) [1; 1; 1]) 1 1 []);
    [lia | simpl; lia | vm_compute; reflexivity].
Defined.

(** X12. The events of a whole run on a world of at least two ranks,
    whatever the environment answers: the run starts with the inversion of
    the partition, then talks only to the other rank of its pair (the ranks
    [2 (rank / 2)] and [2 (rank / 2) + 1] of the first reduction step),
    and never prints; it stops in that first step. *)
Theorem pdiv_localmap_events (comm : Comm) (g : Globals) (K_local : ndarray)
    (l_upperbridges l_lowerbridges : list ndarray) (blocksize : Z) (t : trace)
    (o : outcome (ndarray * list ndarray * list ndarray)) (t' : trace)
    (HP : 2 <= Get_size comm) (Hrank : 0 <= Get_rank comm < Get_size comm)
    (Hrun : pdiv_localmap comm g K_local l_upperbridges l_lowerbridges blocksize t
            = (o, t')) :
  let s := 2 * (Get_rank comm / 2) in
  exists rest,
    t' = t ++ EvInv :: rest /\
    Forall (peer_within s (s + 1)) rest /\
    Forall (not_self (Get_rank comm)) rest /\
    Forall (fun ev => ~ is_print ev) rest.
Proof.
  intros s.
  set (P := fun ev => peer_within s (s + 1) ev /\
                      not_self (Get_rank comm) ev /\ ~ is_print ev).
  assert (Hgoal : exists rest, t' = t ++ EvInv :: rest /\ Forall P rest).
  { unfold pdiv_localmap, bind at 1, invert_partition, linalg_inv in Hrun.
    destruct (np_linalg_inv K_local) as [K_inv | e |];
      [| injection Hrun as _ <-; exists []; split; [reflexivity | constructor] ..].
    assert (Hk : emits P
                   (l_M <~ lift (initialize_matrixmaps K_inv blocksize);;
                    l_C <~ lift (initialize_crossmaps K_inv blocksize);;
                    n_reduction_steps <~ lift (int_log2 (Get_size comm));;
                    steps <~ lift (py_range 1 (n_reduction_steps + 1) 1);;
                    _ <~ for_each steps
                           (fun current_step maps =>
                              update_maps comm g (fst maps) (snd maps) K_inv
                                l_upperbridges l_lowerbridges current_step blocksize)
                           (l_M, l_C);;
                    ret (K_inv, l_upperbridges, l_lowerbridges))).
    { apply emits_bind; [apply emits_lift | intros l_M ? ? _].
      apply emits_bind; [apply emits_lift | intros l_C ? ? _].
      apply emits_bind; [apply emits_lift | intros n ? ? Hn].
      apply emits_bind; [apply emits_lift | intros steps ? ? Hsteps].
      apply lift_Ret_inv in Hn, Hsteps.
      unfold int_log2 in Hn. destruct (Z.leb_spec (Get_size comm) 0); [lia |].
      injection Hn as <-.
      assert (Hlog : 1 <= Z.log2 (Get_size comm)).
      { change 1 with (Z.log2 2). apply Z.log2_le_mono. exact HP. }
      apply emits_bind; [| intros; apply emits_ret].
      apply (emits_for_each_stop P steps _ 1).
      - apply (py_range_sorted 1 (Z.log2 (Get_size comm) + 1) 1 steps ltac:(lia) Hsteps).
      - apply (py_range_In 1 (Z.log2 (Get_size comm) + 1) 1 1 ltac:(lia) steps Hsteps).
        exists 0. lia.
      - intros x maps Hx Hlt.
        apply (py_range_In 1 (Z.log2 (Get_size comm) + 1) 1 x ltac:(lia) steps Hsteps)
          in Hx as (j & Hj & -> & _). lia.
      - intros maps. split; [| apply update_maps_never_returns; exact Hrank].
        apply update_maps_emits; try lia; subst P s; cbn;
          change (2 ^ 1) with 2; intros; repeat split; try lia; tauto. }
    destruct (Hk _ _ _ Hrun) as (rest & -> & Hrest).
    exists rest. split; [rewrite <- app_assoc; reflexivity | exact Hrest]. }
  destruct Hgoal as (rest & -> & Hrest).
  exists rest. split; [reflexivity |].
  subst P. rewrite Forall_forall in Hrest.
  repeat split; apply Forall_forall; intros ev Hev;
    destruct (Hrest ev Hev) as (H1 & H2 & H3); assumption.
Qed.

Lemma pdiv_localmap_events_witness :
  exists o t',
    pdiv_localmap (comm_world 4 3 (blk float64 2) 1) globals_imported (blk float64 2)
      (map (blk float64) [1; 1; 1]) (map (blk float64) [1; 1; 1]) 1 [] = (o, t') /\
    exists rest,
      t' = [] ++ EvInv :: rest /\
      Forall (peer_within 2 (2 + 1)) rest /\
      Forall (not_self 3) rest /\
      Forall (fun ev => ~ is_print ev) rest.
Proof.
  eexists. eexists. split; [vm_compute; reflexivity |].
  eapply (pdiv_localmap_events (comm_world 4 3 (blk float64 2) 1) globals_imported
            (blk float64 2) (map (blk float64) [1; 1; 1])
            (map (blk float64) [1; 1; 1]) 1 []);
    [simpl; lia | simpl; lia | vm_compute; reflexivity].
Defined.

(* ===================================================================== *)
(** * The first reduction step: boundary blocks of the seed maps *)
(* ===================================================================== *)

Lemma Qred_canon x : Qred (Qred x) = Qred x.
Proof. apply Qred_complete, Qred_correct. Qed.

Lemma Qred_of_canon x y : x == y -> Qred y = y -> Qred x = y.
Proof. intros Hxy Hy. rewrite <- Hy. apply Qred_complete, Hxy. Qed.

Lemma cmul_c0_l x : cmul c0 x = c0.
Proof.
  unfold cmul, c0. cbn [re im]. f_equal;
    apply (Qred_of_canon _ (0 # 1)); try reflexivity; ring.
Qed.

Lemma cmul_c0_r x : cmul x c0 = c0.
Proof.
  unfold cmul, c0. cbn [re im]. f_equal;
    apply (Qred_of_canon _ (0 # 1)); try reflexivity; ring.
Qed.

Lemma cmul_c1_l x : canon x -> cmul c1 x = x.
Proof.
  intros [Hr Hi]. destruct x as [xr xi]. cbn [re im] in *.
  unfold cmul, c1. cbn [re im]. f_equal;
    apply Qred_of_canon; try assumption; ring.
Qed.

Lemma cmul_c1_r x : canon x -> cmul x c1 = x.
Proof.
  intros [Hr Hi]. destruct x as [xr xi]. cbn [re im] in *.
  unfold cmul, c1. cbn [re im]. f_equal;
    apply Qred_of_canon; try assumption; ring.
Qed.

Lemma cadd_c0_r x : canon x -> cadd x c0 = x.
Proof.
  intros [Hr Hi]. destruct x as [xr xi]. cbn [re im] in *.
  unfold cadd, c0. cbn [re im]. f_equal;
    apply Qred_of_canon; try assumption; ring.
Qed.

Lemma cadd_c0_l x : canon x -> cadd c0 x = x.
Proof.
  intros [Hr Hi]. destruct x as [xr xi]. cbn [re im] in *.
  unfold cadd, c0. cbn [re im]. f_equal;
    apply Qred_of_canon; try assumption; ring.
Qed.

Lemma canon_c0 : canon c0.
Proof. split; reflexivity. Qed.

Lemma canon_cdiv a b : canon (cdiv a b).
Proof. unfold cdiv, canon. cbn [re im]. split; apply Qred_canon. Qed.

(** A sum whose terms are all zero. *)
Lemma csum_zeros (f : nat -> cplx) a n :
  (forall k, (a <= k < a + n)%nat -> f k = c0) -> csum (map f (seq a n)) = c0.
Proof.
  unfold csum. revert a. induction n as [| n IH]; intros a H; [reflexivity |].
  simpl. rewrite H by lia. change (cadd c0 c0) with c0.
  apply IH. intros k Hk. apply H. lia.
Qed.

(** A sum with one term that is not zero. *)
Lemma csum_single (f : nat -> cplx) n i :
  (i < n)%nat -> canon (f i) ->
  (forall k, (k < n)%nat -> k <> i -> f k = c0) ->
  csum (map f (seq 0 n)) = f i.
Proof.
  intros Hi Hc Hz. unfold csum.
  assert (Hgen : forall m a acc,
             canon acc -> (a + m <= n)%nat ->
             fold_left cadd (map f (seq a m)) acc
             = if (a <=? i)%nat && (i <? a + m)%nat then cadd acc (f i) else acc).
  { induction m as [| m IH]; intros a acc Hacc Ham.
    - simpl. destruct (Nat.leb_spec a i); destruct (Nat.ltb_spec i (a + 0)); try reflexivity; lia.
    - simpl. destruct (Nat.eq_dec a i) as [-> | Hne].
      + rewrite IH; [| unfold cadd, canon; cbn [re im]; split; apply Qred_canon | lia].
        destruct (Nat.leb_spec (S i) i); [lia |]. cbn [andb].
        destruct (Nat.leb_spec i i); [| lia].
        destruct (Nat.ltb_spec i (i + S m)); [| lia]. reflexivity.
      + rewrite (Hz a) by lia. rewrite cadd_c0_r by exact Hacc.
        rewrite IH by (assumption || lia).
        destruct (Nat.leb_spec (S a) i); destruct (Nat.leb_spec a i);
          destruct (Nat.ltb_spec i (S a + m)); destruct (Nat.ltb_spec i (a + S m));
          try reflexivity; lia. }
  rewrite (Hgen n 0%nat c0 canon_c0) by lia.
  destruct (Nat.ltb_spec i (0 + n)); [| lia]. cbn [Nat.leb andb].
  apply cadd_c0_l, Hc.
Qed.

Lemma matmul_I_l bs dt B : cblock bs dt B -> matmul (block_I bs dt) B = Ret B.
Proof.
  intros (f & -> & Hf). unfold matmul, block_I. cbn [ncols nrows dtype tabulate].
  rewrite Nat.eqb_refl, promote_same. f_equal.
  apply tabulate_ext. intros i j Hi Hj.
  rewrite (map_ext_in _ (fun k => cmul (if Nat.eqb i k then c1 else c0) (f k j))).
  - rewrite (csum_single _ bs i Hi).
    + rewrite Nat.eqb_refl. apply cmul_c1_l, Hf; assumption.
    + rewrite Nat.eqb_refl, cmul_c1_l by (apply Hf; assumption). apply Hf; assumption.
    + intros k Hk Hne. destruct (Nat.eqb_spec i k); [congruence | apply cmul_c0_l].
  - intros k Hk. apply in_seq in Hk.
    fold (tabulate dt bs bs (fun i0 j0 => if Nat.eqb i0 j0 then c1 else c0)).
    fold (tabulate dt bs bs f).
    rewrite !entry_tabulate by lia. reflexivity.
Qed.

Lemma matmul_O_l bs dt B : shaped bs bs dt B -> matmul (block_O bs dt) B = Ret (block_O bs dt).
Proof.
  intros (Hd & Hr & Hc). unfold matmul, block_O. cbn [ncols nrows dtype tabulate].
  rewrite Hr, Hc, Hd, Nat.eqb_refl, promote_same. f_equal.
  apply tabulate_ext. intros i j Hi Hj.
  apply csum_zeros. intros k Hk.
  fold (tabulate dt bs bs (fun _ _ => c0)).
  rewrite entry_tabulate by lia. apply cmul_c0_l.
Qed.

Lemma matmul_O_r bs dt B : shaped bs bs dt B -> matmul B (block_O bs dt) = Ret (block_O bs dt).
Proof.
  intros (Hd & Hr & Hc). unfold matmul, block_O. cbn [ncols nrows dtype tabulate].
  rewrite Hr, Hc, Hd, Nat.eqb_refl, promote_same. f_equal.
  apply tabulate_ext. intros i j Hi Hj.
  apply csum_zeros. intros k Hk.
  fold (tabulate dt bs bs (fun _ _ => c0)).
  rewrite entry_tabulate by lia. apply cmul_c0_r.
Qed.

Lemma np_add_O_r bs dt B : cblock bs dt B -> np_add B (block_O bs dt) = Ret B.
Proof.
  intros (f & -> & Hf). unfold np_add, block_O, bdim. cbn [ncols nrows dtype tabulate].
  rewrite Nat.eqb_refl, promote_same. f_equal.
  apply tabulate_ext. intros i j Hi Hj.
  fold (tabulate dt bs bs f). fold (tabulate dt bs bs (fun _ _ => c0)).
  rewrite !bidx_lt by lia. rewrite !entry_tabulate by lia.
  apply cadd_c0_r, Hf; assumption.
Qed.

Lemma np_add_O_l bs dt B : cblock bs dt B -> np_add (block_O bs dt) B = Ret B.
Proof.
  intros (f & -> & Hf). unfold np_add, block_O, bdim. cbn [ncols nrows dtype tabulate].
  rewrite Nat.eqb_refl, promote_same. f_equal.
  apply tabulate_ext. intros i j Hi Hj.
  fold (tabulate dt bs bs f). fold (tabulate dt bs bs (fun _ _ => c0)).
  rewrite !bidx_lt by lia. rewrite !entry_tabulate by lia.
  apply cadd_c0_l, Hf; assumption.
Qed.

Lemma matmul_I_r bs dt B : cblock bs dt B -> matmul B (block_I bs dt) = Ret B.
Proof.
  intros (f & -> & Hf). unfold matmul, block_I. cbn [ncols nrows dtype tabulate].
  rewrite Nat.eqb_refl, promote_same. f_equal.
  apply tabulate_ext. intros i j Hi Hj.
  rewrite (map_ext_in _ (fun k => cmul (f i k) (if Nat.eqb k j then c1 else c0))).
  - rewrite (csum_single _ bs j Hj).
    + rewrite Nat.eqb_refl. apply cmul_c1_r, Hf; assumption.
    + rewrite Nat.eqb_refl, cmul_c1_r by (apply Hf; assumption). apply Hf; assumption.
    + intros k Hk Hne. destruct (Nat.eqb_spec k j); [congruence | apply cmul_c0_r].
  - intros k Hk. apply in_seq in Hk.
    fold (tabulate dt bs bs (fun i0 j0 => if Nat.eqb i0 j0 then c1 else c0)).
    fold (tabulate dt bs bs f).
    rewrite !entry_tabulate by lia. reflexivity.
Qed.

Lemma cblock_shaped bs dt B : cblock bs dt B -> shaped bs bs dt B.
Proof. intros (f & -> & _). repeat split. Qed.

Lemma omatmul_I_l bs dt B :
  cblock bs dt B -> Ret (block_I bs dt) @@ Ret B = Ret B.
Proof. intros H. unfold omatmul. cbn [obind]. apply matmul_I_l, H. Qed.

Lemma omatmul_I_r bs dt B :
  cblock bs dt B -> Ret B @@ Ret (block_I bs dt) = Ret B.
Proof. intros H. unfold omatmul. cbn [obind]. apply matmul_I_r, H. Qed.

Lemma omatmul_O_l bs dt B :
  cblock bs dt B -> Ret (block_O bs dt) @@ Ret B = Ret (block_O bs dt).
Proof.
  intros H. unfold omatmul. cbn [obind]. apply matmul_O_l, cblock_shaped, H.
Qed.

Lemma omatmul_O_r bs dt B :
  cblock bs dt B -> Ret B @@ Ret (block_O bs dt) = Ret (block_O bs dt).
Proof.
  intros H. unfold omatmul. cbn [obind]. apply matmul_O_r, cblock_shaped, H.
Qed.

Lemma oadd_O_r bs dt B :
  cblock bs dt B -> Ret B +@ Ret (block_O bs dt) = Ret B.
Proof. intros H. unfold oadd. cbn [obind]. apply np_add_O_r, H. Qed.

Lemma oadd_O_l bs dt B :
  cblock bs dt B -> Ret (block_O bs dt) +@ Ret B = Ret B.
Proof. intros H. unfold oadd. cbn [obind]. apply np_add_O_l, H. Qed.

(** What [np.linalg.inv] returns is square, its rows are as long as its
    shape says and its entries are in reduced form. *)
Lemma np_linalg_inv_Ret A K :
  np_linalg_inv A = Ret K ->
  exists h, K = tabulate (dtype A) (nrows A) (nrows A) h /\ forall i j, canon (h i j).
Proof.
  unfold np_linalg_inv. destruct (negb _); [discriminate |].
  destruct (c_is_zero _); [discriminate |].
  intros H. injection H as <-. eexists. split; [reflexivity |].
  intros i j. apply canon_cdiv.
Qed.

(** The four corner blocks of such a matrix. *)
Lemma corner_cblock dt n h bs (top left : bool) :
  (forall i j, canon (h i j)) -> 0 <= bs <= Z.of_nat n ->
  let K := tabulate dt n n h in
  let s := shape0 K - bs in
  let e := shape0 K in
  cblock (Z.to_nat bs) dt
    (np_getitem K (if top then 0 else s) (if top then bs else e)
                  (if left then 0 else s) (if left then bs else e)).
Proof.
  intros Hh Hbs K s e. subst s e. unfold shape0.
  replace (nrows K) with n by reflexivity.
  destruct top, left;
    erewrite np_getitem_shaped;
    try (first [apply slice_range_head | apply slice_range_tail]; exact Hbs);
    (eexists; split; [reflexivity |]);
    intros i j Hi Hj; subst K; cbv beta; rewrite entry_tabulate by lia; apply Hh.
Qed.

(** X13. In the first reduction step the boundary blocks are the corner
    blocks of the locally inverted partition.  With [K_local] as
    [np.linalg.inv] returns it, holding at least one block row, and the
    seed maps of [initialize_matrixmaps], the upper producer returns the
    upper-right, lower-left and lower-right corner blocks of [K_local]
    (UUR, ULL, ULR) and the lower producer its upper-left, upper-right and
    lower-left corner blocks (DUL, DUR, DLL), entry for entry. *)
Theorem first_step_boundary_blocks (A K_local : ndarray) (blocksize : Z)
    (l_M : list ndarray)
    (Hinv : np_linalg_inv A = Ret K_local)
    (Hbs : 0 <= blocksize <= shape0 K_local)
    (Hseed : initialize_matrixmaps K_local blocksize = Ret l_M) :
  let bs := blocksize in
  let s := shape0 K_local - blocksize in
  let e := shape0 K_local in
  produce_UUR_ULL_ULR K_local l_M blocksize
  = Ret (np_getitem K_local 0 bs s e, np_getitem K_local s e 0 bs,
         np_getitem K_local s e s e) /\
  produce_DUL_DUR_DLL K_local l_M blocksize
  = Ret (np_getitem K_local 0 bs 0 bs, np_getitem K_local 0 bs s e,
         np_getitem K_local s e 0 bs).
Proof.
  intros bs s e. subst bs.
  destruct (np_linalg_inv_Ret A K_local Hinv) as (h & HK & Hh).
  set (dt := dtype A) in *. set (n := nrows A) in *.
  assert (Hbs' : 0 <= blocksize <= Z.of_nat n) by (rewrite HK in Hbs; exact Hbs).
  rewrite (initialize_matrixmaps_eq K_local blocksize (proj1 Hbs)) in Hseed.
  cbv zeta in Hseed. injection Hseed as <-.
  replace (dtype K_local) with dt by (rewrite HK; reflexivity).
  fold (block_I (Z.to_nat blocksize) dt). fold (block_O (Z.to_nat blocksize) dt).
  pose proof (corner_cblock dt n h blocksize true true Hh Hbs') as Htl.
  pose proof (corner_cblock dt n h blocksize true false Hh Hbs') as Htr.
  pose proof (corner_cblock dt n h blocksize false true Hh Hbs') as Hbl.
  pose proof (corner_cblock dt n h blocksize false false Hh Hbs') as Hbr.
  cbv beta iota zeta in Htl, Htr, Hbl, Hbr. rewrite <- HK in Htl, Htr, Hbl, Hbr.
  fold s e in Htl, Htr, Hbl, Hbr.
  unfold produce_UUR_ULL_ULR, produce_DUL_DUR_DLL. cbv zeta. fold s e.
  generalize dependent (np_getitem K_local 0 blocksize 0 blocksize). intros Xtl Htl.
  generalize dependent (np_getitem K_local 0 blocksize s e). intros Xtr Htr.
  generalize dependent (np_getitem K_local s e 0 blocksize). intros Xbl Hbl.
  generalize dependent (np_getitem K_local s e s e). intros Xbr Hbr.
  set (I := block_I (Z.to_nat blocksize) dt).
  set (O := block_O (Z.to_nat blocksize) dt).
  set (seed := [I; O; O; I; I; O; O; I; O; O; O; O]).
  rewrite (list_getitem_Some seed 0 I eq_refl ltac:(lia)).
  rewrite (list_getitem_Some seed 1 O eq_refl ltac:(lia)).
  rewrite (list_getitem_Some seed 2 O eq_refl ltac:(lia)).
  rewrite (list_getitem_Some seed 3 I eq_refl ltac:(lia)).
  rewrite (list_getitem_Some seed 4 I eq_refl ltac:(lia)).
  rewrite (list_getitem_Some seed 5 O eq_refl ltac:(lia)).
  rewrite (list_getitem_Some seed 6 O eq_refl ltac:(lia)).
  rewrite (list_getitem_Some seed 7 I eq_refl ltac:(lia)).
  rewrite (list_getitem_Some seed 8 O eq_refl ltac:(lia)).
  rewrite (list_getitem_Some seed 9 O eq_refl ltac:(lia)).
  rewrite (list_getitem_Some seed 10 O eq_refl ltac:(lia)).
  rewrite (list_getitem_Some seed 11 O eq_refl ltac:(lia)).
  unfold ret_nd. subst I O.
  repeat first
    [ rewrite omatmul_I_l by assumption
    | rewrite omatmul_I_r by assumption
    | rewrite omatmul_O_l by assumption
    | rewrite omatmul_O_r by assumption
    | rewrite oadd_O_r by assumption
    | rewrite oadd_O_l by assumption ].
  split; reflexivity.
Qed.

Lemma first_step_boundary_blocks_witness :
  exists K_local l_M,
    np_linalg_inv ex_J = Ret K_local /\
    0 <= 1 <= shape0 K_local /\
    initialize_matrixmaps K_local 1 = Ret l_M /\
    produce_UUR_ULL_ULR K_local l_M 1
    = Ret (of_rows float64 [[Cplx 1 0]], of_rows float64 [[Cplx (3 # 2) 0]],
           of_rows float64 [[Cplx (-1 # 2) 0]]) /\
    produce_DUL_DUR_DLL K_local l_M 1
    = Ret (of_rows float64 [[Cplx (-2) 0]], of_rows float64 [[Cplx 1 0]],
           of_rows float64 [[Cplx (3 # 2) 0]]).
Proof.
  eexists. eexists.
  split; [vm_compute; reflexivity |].
  split; [vm_compute; split; discriminate |].
  split; [vm_compute; reflexivity |].
  refine (first_step_boundary_blocks ex_J _ 1 _ _ _ _).
  - vm_compute. reflexivity.
  - vm_compute. split; discriminate.
  - vm_compute. reflexivity.
Defined.

(* ===================================================================== *)
(** * The shape of [J] *)
(* ===================================================================== *)

Lemma np_setitem_shape A r0 r1 c0' c1' V A' :
  np_setitem A r0 r1 c0' c1' V = Ret A' ->
  dtype A' = dtype A /\ nrows A' = nrows A /\ ncols A' = ncols A.
Proof.
  unfold np_setitem.
  destruct (slice_range (nrows A) r0 r1) as [rs rl].
  destruct (slice_range (ncols A) c0' c1') as [cs cl].
  destruct (broadcast_to V rl cl); [| discriminate].
  intros H. injection H as <-. auto.
Qed.

(** X14. Whatever the shapes and dtypes of the boundary blocks (numpy
    broadcasts and casts them on assignment), a [J] that [get_J] returns is
    a square array of twice the block size with the dtype of the upper
    bridge [Bu_mid]; the block size is then not negative, the list [l_U]
    has at least four entries, and the one event of the call is the
    inversion. *)
Theorem get_J_shape (l_U : list ndarray) (Bu_mid Bl_mid : ndarray) (blocksize : Z)
    (t : trace) (J : ndarray) (t' : trace)
    (Hrun : get_J l_U Bu_mid Bl_mid blocksize t = (Ret J, t')) :
  shaped (Z.to_nat (2 * blocksize)) (Z.to_nat (2 * blocksize)) (dtype Bu_mid) J /\
  0 <= blocksize /\ (4 <= length l_U)%nat /\ t' = t ++ [EvInv].
Proof.
  unfold get_J in Hrun.
  apply bind_Ret_inv in Hrun as (Jc & t1 & HJc & Hinv).
  apply lift_inv in HJc as [HJc <-].
  unfold linalg_inv in Hinv. injection Hinv as Hinv <-.
  unfold get_J_assemble in HJc.
  obind_inv HJc.
  assert (Hbs : 0 <= blocksize).
  { unfold np_zeros in E. destruct (Z.ltb_spec (2 * blocksize) 0); [discriminate | lia]. }
  rewrite np_zeros_Ret in E by lia. injection E as <-.
  repeat obind_inv HJc. injection HJc as <-.
  repeat match goal with
         | H : np_setitem _ _ _ _ _ _ = Ret _ |- _ =>
             apply np_setitem_shape in H as (? & ? & ?)
         end.
  cbn [dtype nrows ncols tabulate] in *.
  destruct (np_linalg_inv_Ret _ _ Hinv) as (h & -> & _).
  split; [| split; [exact Hbs | split; [| reflexivity]]].
  - unfold shaped. cbn [dtype nrows ncols tabulate].
    repeat split; congruence.
  - match goal with
    | H : omatmul (oneg (list_getitem l_U 3)) _ = Ret _ |- _ =>
        unfold oneg, omatmul in H; obind_inv H;
        match goal with
        | H' : obind (list_getitem l_U 3) _ = Ret _ |- _ =>
            obind_inv H';
            match goal with
            | H'' : list_getitem l_U 3 = Ret _ |- _ =>
                apply list_getitem_Ret in H''; [| lia];
                apply lookup_lt_Some in H''; simpl in H''; lia
            end
        end
    end.
Qed.

Lemma get_J_shape_witness :
  exists J t',
    get_J ex_l_U (blk float64 1) (blk complex128 1) 1 [] = (Ret J, t') /\
    shaped (Z.to_nat (2 * 1)) (Z.to_nat (2 * 1)) (dtype (blk float64 1)) J /\
    0 <= 1 /\ (4 <= length ex_l_U)%nat /\ t' = [] ++ [EvInv].
Proof.
  eexists. eexists. split; [vm_compute; reflexivity |].
  apply (get_J_shape ex_l_U (blk float64 1) (blk complex128 1) 1 []).
  vm_compute. reflexivity.
Defined.
